(** * repo-sync: reference comparison and sync-safety engine

  A shallow embedding of [git.ts] (process execution, reference
  inventories, the classifier [compareRefs], the README source notice)
  and of [sync.ts] ([status], [push]), followed by the properties of the
  classifier, the aggregator and the push gate.

  Strings are byte strings: white space is ASCII white space, and the
  only line terminator left inside a line is the carriage return.  Numbers
  are integers.  JavaScript values that may be [undefined] or [null] are
  options, and a [Map] is an association list in insertion order.  The
  operating system (child processes, the file system, the clock) is an
  interface, [OS]; programs run in a monad that threads the state of the
  world, may throw, and records what they did. *)

From Stdlib Require Import String Ascii List ZArith Lia Bool.
From Stdlib Require Import DecimalString DecimalN.
Import ListNotations.

Open Scope string_scope.

(* ===================================================================== *)
(** ** JavaScript strings *)
(* ===================================================================== *)

Module Js.

Definition char (n : nat) : string := String (ascii_of_nat n) EmptyString.

Definition nl : string := char 10.
Definition dquote : string := char 34.

(** [s.split(sep)] for a one-character separator: never an empty list. *)
Fixpoint split (sep : ascii) (s : string) : list string :=
  match s with
  | EmptyString => [EmptyString]
  | String c rest =>
      if Ascii.eqb c sep then EmptyString :: split sep rest
      else match split sep rest with
           | [] => [String c EmptyString]
           | piece :: pieces => String c piece :: pieces
           end
  end.

(** [s.split(sep, limit)]: the first [limit] pieces of the full split. *)
Definition split_limit (sep : ascii) (limit : nat) (s : string) : list string :=
  firstn limit (split sep s).

(** White space as [trim] and [parseInt] skip it, among the bytes. *)
Definition is_space (c : ascii) : bool :=
  let n := nat_of_ascii c in
  ((9 <=? n) && (n <=? 13) || (n =? 32))%nat.

Fixpoint trimStart (s : string) : string :=
  match s with
  | String c rest => if is_space c then trimStart rest else s
  | EmptyString => EmptyString
  end.

Fixpoint trimEnd (s : string) : string :=
  match s with
  | EmptyString => EmptyString
  | String c rest =>
      match trimEnd rest with
      | EmptyString => if is_space c then EmptyString else String c EmptyString
      | rest' => String c rest'
      end
  end.

Definition trim (s : string) : string := trimEnd (trimStart s).

Definition is_digit (c : ascii) : bool :=
  let n := nat_of_ascii c in ((48 <=? n) && (n <=? 57))%nat.

Fixpoint digits_prefix (s : string) : string :=
  match s with
  | String c rest => if is_digit c then String c (digits_prefix rest) else EmptyString
  | EmptyString => EmptyString
  end.

Definition digits_value (s : string) : option Z :=
  match digits_prefix s with
  | EmptyString => None
  | ds => option_map (fun u => Z.of_N (N.of_uint u)) (NilEmpty.uint_of_string ds)
  end.

(** [Number.parseInt(s, 10)]; [None] is NaN. *)
Definition parseInt10 (s : string) : option Z :=
  match trimStart s with
  | String "-" rest => option_map Z.opp (digits_value rest)
  | String "+" rest => digits_value rest
  | s' => digits_value s'
  end.

(** [String(n)] for an integer. *)
Definition of_N (n : N) : string := NilEmpty.string_of_uint (N.to_uint n).

Definition of_Z (n : Z) : string :=
  match n with
  | Zneg p => "-" ++ of_N (Npos p)
  | _ => of_N (Z.to_N n)
  end.

(** [x || 0] on a number. *)
Definition or_zero (x : option Z) : Z :=
  match x with Some n => n | None => 0%Z end.

(** Truthiness of a string that may be undefined. *)
Definition truthy (x : option string) : bool :=
  match x with
  | None | Some EmptyString => false
  | Some _ => true
  end.

(** [x || null] on a string that may be undefined. *)
Definition or_null (x : option string) : option string :=
  if truthy x then x else None.

(** [s.includes(t)]. *)
Definition includes (t s : string) : bool :=
  match String.index 0 t s with Some _ => true | None => false end.

(** [s.endsWith(t)]. *)
Definition endsWith (t s : string) : bool :=
  let ls := String.length s in
  let lt := String.length t in
  (lt <=? ls)%nat && (String.substring (ls - lt) lt s =? t).

(** [s.replace(t, r)] for a string pattern [t] and a replacement without
    [$]: the first occurrence only. *)
Definition replace_first (t r s : string) : string :=
  match String.index 0 t s with
  | Some i =>
      String.substring 0 i s ++ r
      ++ String.substring (i + String.length t)
           (String.length s - (i + String.length t)) s
  | None => s
  end.

(** [xs.join(sep)]. *)
Definition join (sep : string) (xs : list string) : string := String.concat sep xs.

End Js.

(* ===================================================================== *)
(** ** JavaScript [Map<string, string>] *)
(* ===================================================================== *)

(** A [Map] iterates in insertion order and holds each key once: an
  association list whose keys are distinct. *)
Module JsMap.

Definition t : Type := list (string * string).

Definition empty : t := [].

Fixpoint get (k : string) (m : t) : option string :=
  match m with
  | [] => None
  | (k', v) :: rest => if k' =? k then Some v else get k rest
  end.

Definition has (k : string) (m : t) : bool :=
  match get k m with Some _ => true | None => false end.

(** [m.set(k, v)]: a present key keeps its place, a new one goes last. *)
Fixpoint set (k v : string) (m : t) : t :=
  match m with
  | [] => [(k, v)]
  | (k', v') :: rest => if k' =? k then (k', v) :: rest else (k', v') :: set k v rest
  end.

Definition keys (m : t) : list string := map fst m.

Definition Wf (m : t) : Prop := NoDup (keys m).

End JsMap.

(* ===================================================================== *)
(** ** The operating system and the monad of programs *)
(* ===================================================================== *)

(** What [execSync] does: it returns the child's standard output ([None]
    under [stdio: "inherit"]), or throws an error carrying the exit status,
    the captured standard error and a message. *)
Inductive ProcOutcome : Type :=
| Exited0 (stdout : option string)
| Failed (status : option Z) (stderr : option string) (message : string).

(** The result of a computation that may throw. *)
Inductive Outcome (A : Type) : Type :=
| Ok (a : A)
| Throw (e : string).
Arguments Ok {A} a.
Arguments Throw {A} e.

(** The collaborators of the program: [node:child_process], [node:fs],
    [node:os], [node:path] and the clock. *)
Class OS : Type := {
  World : Type;
  execSync : string -> option string -> bool -> World -> ProcOutcome * World;
  existsSync : string -> World -> bool;
  statSync_mtime : string -> World -> Outcome Z;
  mkdirSync : string -> World -> Outcome unit * World;
  writeFileSync : string -> string -> World -> Outcome unit * World;
  readFileSync : string -> World -> Outcome string;
  rmSync : string -> World -> Outcome unit * World;
  Date_now : World -> Z;
  tmpdir : string;
  homedir : string;
  path_join : string -> string -> string
}.

(** What a program did, in order. *)
Inductive Event : Type :=
| EvExec (command : string) (cwd : option string) (silent : bool)
| EvLog (message : string)
| EvMkdir (path : string)
| EvWrite (path content : string)
| EvRm (path : string).

Definition M `{OS} (A : Type) : Type := World -> Outcome A * World * list Event.

Definition ret `{OS} {A} (a : A) : M A := fun w => (Ok a, w, []).

Definition throw `{OS} {A} (e : string) : M A := fun w => (Throw e, w, []).

Definition bind `{OS} {A B} (m : M A) (f : A -> M B) : M B :=
  fun w =>
    match m w with
    | (Ok a, w1, t1) => let '(r, w2, t2) := f a w1 in (r, w2, (t1 ++ t2)%list)
    | (Throw e, w1, t1) => (Throw e, w1, t1)
    end.

(** [try { body } finally { fin }]: [fin] runs either way, and what it
    throws replaces the outcome of [body]. *)
Definition try_finally `{OS} {A} (body : M A) (fin : M unit) : M A :=
  fun w =>
    let '(r, w1, t1) := body w in
    match fin w1 with
    | (Ok _, w2, t2) => (r, w2, (t1 ++ t2)%list)
    | (Throw e, w2, t2) => (Throw e, w2, (t1 ++ t2)%list)
    end.

Declare Scope prog_scope.
Delimit Scope prog_scope with prog.
Notation "x <- m ;; k" := (bind m (fun x => k))
  (at level 61, m at next level, right associativity) : prog_scope.
Notation "m ;;; k" := (bind m (fun _ => k))
  (at level 61, right associativity) : prog_scope.
Open Scope prog_scope.

(** A loop [for (const x of xs) body] over an accumulator. *)
Fixpoint forM `{OS} {A S} (xs : list A) (body : S -> A -> M S) (acc : S) : M S :=
  match xs with
  | [] => ret acc
  | x :: rest => acc' <- body acc x ;; forM rest body acc'
  end.

Definition emit `{OS} (e : Event) : M unit := fun w => (Ok tt, w, [e]).

Definition console_log `{OS} (message : string) : M unit := emit (EvLog message).

Definition fs_exists `{OS} (path : string) : M bool :=
  fun w => (Ok (existsSync path w), w, []).

Definition fs_mtime `{OS} (path : string) : M Z :=
  fun w => (statSync_mtime path w, w, []).

Definition fs_mkdir `{OS} (path : string) : M unit :=
  fun w => let '(r, w') := mkdirSync path w in (r, w', [EvMkdir path]).

Definition fs_write `{OS} (path content : string) : M unit :=
  fun w => let '(r, w') := writeFileSync path content w in (r, w', [EvWrite path content]).

Definition fs_read `{OS} (path : string) : M string :=
  fun w => (readFileSync path w, w, []).

Definition fs_rm `{OS} (path : string) : M unit :=
  fun w => let '(r, w') := rmSync path w in (r, w', [EvRm path]).

Definition now `{OS} : M Z := fun w => (Ok (Date_now w), w, []).

(* ===================================================================== *)
(** ** types.ts *)
(* ===================================================================== *)

Module RepoConfig.
Record t : Type := {
  name : string;
  public : string;
  private : string;
  markSource : option bool
}.
End RepoConfig.

Inductive Status : Type := same | ahead | behind | diverged | new | missing.

Definition Status_eqb (a b : Status) : bool :=
  match a, b with
  | same, same | ahead, ahead | behind, behind
  | diverged, diverged | new, new | missing, missing => true
  | _, _ => false
  end.

Module RefComparison.
(** [name] is the second piece of the qualified name, undefined when the
    qualified name holds no slash. *)
Record t : Type := {
  name : option string;
  localRef : option string;
  privateRef : option string;
  status : Status;
  aheadCount : option Z;
  behindCount : option Z
}.
End RefComparison.

Module RepoStatus.
Record t : Type := {
  name : string;
  publicUrl : string;
  privateUrl : string;
  pulled : bool;
  pulledAt : option Z;
  branches : list RefComparison.t;
  tags : list RefComparison.t;
  error : option string
}.
End RepoStatus.

(* ===================================================================== *)
(** ** git.ts *)
(* ===================================================================== *)

Module ExecResult.
Record t : Type := {
  success : bool;
  output : string;
  error : option string
}.
End ExecResult.

(** [exec(command, cwd, silent = true)]: never throws. *)
Definition exec `{OS} (command : string) (cwd : option string) (silent : bool)
  : M ExecResult.t :=
  fun w =>
    let '(r, w') := execSync command cwd silent w in
    (Ok match r with
        | Exited0 out =>
            {| ExecResult.success := true;
               ExecResult.output := match out with Some o => Js.trim o | None => "" end;
               ExecResult.error := None |}
        | Failed _ stderr message =>
            {| ExecResult.success := false;
               ExecResult.output := "";
               ExecResult.error :=
                 Some (match Js.or_null stderr with Some e => e | None => message end) |}
        end,
     w', [EvExec command cwd silent]).

Definition cloneMirror `{OS} (publicUrl targetPath : string) : M ExecResult.t :=
  exec ("git clone --mirror " ++ Js.dquote ++ publicUrl ++ Js.dquote ++ " "
        ++ Js.dquote ++ targetPath ++ Js.dquote) None true.

Definition fetchOrigin `{OS} (repoPath : string) : M ExecResult.t :=
  exec "git fetch --prune origin" (Some repoPath) true.

Definition addRemote `{OS} (repoPath name url : string) : M ExecResult.t :=
  existing <- exec ("git remote get-url " ++ name) (Some repoPath) true ;;
  if ExecResult.success existing then
    if negb (ExecResult.output existing =? url) then
      exec ("git remote set-url " ++ name ++ " " ++ Js.dquote ++ url ++ Js.dquote)
        (Some repoPath) true
    else ret {| ExecResult.success := true; ExecResult.output := "";
                ExecResult.error := None |}
  else
    exec ("git remote add " ++ name ++ " " ++ Js.dquote ++ url ++ Js.dquote)
      (Some repoPath) true.

Definition fetchRemote `{OS} (repoPath remoteName : string) : M ExecResult.t :=
  exec ("git fetch " ++ remoteName) (Some repoPath) true.

Definition pushMirror_command (remoteName : string) : string :=
  "git push --mirror " ++ remoteName.

Definition pushMirror `{OS} (repoPath remoteName : string) : M ExecResult.t :=
  exec (pushMirror_command remoteName) (Some repoPath) false.

Definition nonempty (s : string) : bool :=
  match s with EmptyString => false | _ => true end.

(** One line of [for-each-ref] output: [const [name, sha] = line.split(" ")]
    and, when both are truthy, [refs.set(`<kind>/${name}`, sha)]. *)
Definition add_ref_line (kind : string) (refs : JsMap.t) (line : string) : JsMap.t :=
  match Js.split " " line with
  | name :: sha :: _ =>
      if nonempty name && nonempty sha then JsMap.set (kind ++ "/" ++ name) sha refs
      else refs
  | _ => refs
  end.

(** The lines of a result that succeeded with truthy output. *)
Definition output_lines (r : ExecResult.t) : list string :=
  if ExecResult.success r && nonempty (ExecResult.output r)
  then Js.split (ascii_of_nat 10) (ExecResult.output r)
  else [].

Definition for_each_ref_short (ns : string) : string :=
  "git for-each-ref --format='%(refname:short) %(objectname)' " ++ ns.

Definition getLocalRefs `{OS} (repoPath : string) : M JsMap.t :=
  branches <- exec (for_each_ref_short "refs/heads/") (Some repoPath) true ;;
  let refs := fold_left (add_ref_line "heads") (output_lines branches) JsMap.empty in
  tags <- exec (for_each_ref_short "refs/tags/") (Some repoPath) true ;;
  ret (fold_left (add_ref_line "tags") (output_lines tags) refs).

Definition is_hex (c : ascii) : bool :=
  let n := nat_of_ascii c in
  ((48 <=? n) && (n <=? 57) || (97 <=? n) && (n <=? 102))%nat.

Fixpoint all_chars (p : ascii -> bool) (s : string) : bool :=
  match s with
  | EmptyString => true
  | String c rest => p c && all_chars p rest
  end.

(** [.+] on a string without a line feed: not empty, no carriage return. *)
Definition dot_plus (s : string) : bool :=
  nonempty s && all_chars (fun c => negb (Ascii.eqb c (ascii_of_nat 13))) s.

(** [[a-f0-9]+]. *)
Definition hex_plus (s : string) : bool := nonempty s && all_chars is_hex s.

Definition drop (n : nat) (s : string) : string :=
  String.substring n (String.length s - n) s.

(** [line.match(/^refs\/remotes\/[^/]+\/(.+) ([a-f0-9]+)$/)]: the remote is
    the run up to the first slash, the hash follows the last space. *)
Definition match_remote_head (line : string) : option (string * string) :=
  if String.prefix "refs/remotes/" line then
    match Js.split "/" (drop 13 line) with
    | remote :: piece :: pieces =>
        let rest := Js.join "/" (piece :: pieces) in
        match rev (Js.split " " rest) with
        | sha :: before :: befores =>
            let name := Js.join " " (rev (before :: befores)) in
            if nonempty remote && dot_plus name && hex_plus sha
            then Some (name, sha) else None
        | _ => None
        end
    | _ => None
    end
  else None.

Fixpoint span (p : ascii -> bool) (s : string) : string * string :=
  match s with
  | String c rest =>
      if p c then let '(a, b) := span p rest in (String c a, b) else (EmptyString, s)
  | EmptyString => (EmptyString, EmptyString)
  end.

(** [line.match(/^([a-f0-9]+)\s+refs\/tags\/(.+)$/)]. *)
Definition match_remote_tag (line : string) : option (string * string) :=
  let '(sha, rest) := span is_hex line in
  let '(spaces, rest') := span Js.is_space rest in
  if nonempty sha && nonempty spaces && String.prefix "refs/tags/" rest'
     && dot_plus (drop 10 rest')
  then Some (sha, drop 10 rest') else None.

Definition add_remote_head (refs : JsMap.t) (line : string) : JsMap.t :=
  match match_remote_head line with
  | Some (name, sha) => JsMap.set ("heads/" ++ name) sha refs
  | None => refs
  end.

Definition add_remote_tag (refs : JsMap.t) (line : string) : JsMap.t :=
  match match_remote_tag line with
  | Some (sha, name) =>
      if negb (Js.endsWith "^{}" name) then JsMap.set ("tags/" ++ name) sha refs
      else refs
  | None => refs
  end.

Definition getRemoteRefs `{OS} (repoPath remoteName : string) : M JsMap.t :=
  result <- exec ("git for-each-ref --format='%(refname) %(objectname)' refs/remotes/"
                  ++ remoteName ++ "/") (Some repoPath) true ;;
  let refs := fold_left add_remote_head (output_lines result) JsMap.empty in
  tagsResult <- exec ("git ls-remote --tags " ++ remoteName) (Some repoPath) true ;;
  ret (fold_left add_remote_tag (output_lines tagsResult) refs).

Definition is_ancestor_command (ancestor descendant : string) : string :=
  "git merge-base --is-ancestor " ++ ancestor ++ " " ++ descendant.

Definition isAncestor `{OS} (repoPath ancestor descendant : string) : M bool :=
  result <- exec (is_ancestor_command ancestor descendant) (Some repoPath) true ;;
  ret (ExecResult.success result).

Definition commit_count_command (from to : string) : string :=
  "git rev-list --count " ++ from ++ ".." ++ to.

Definition getCommitCount `{OS} (repoPath from to : string) : M Z :=
  result <- exec (commit_count_command from to) (Some repoPath) true ;;
  if ExecResult.success result
  then ret (Js.or_zero (Js.parseInt10 (ExecResult.output result)))
  else ret 0%Z.

Module Compared.
Record t : Type := {
  branches : list RefComparison.t;
  tags : list RefComparison.t
}.
Definition empty : t := {| branches := []; tags := [] |}.
End Compared.

(** [const [type, name] = refName.split("/", 2)]. *)
Definition type_and_name (refName : string) : string * option string :=
  match Js.split_limit "/" 2 refName with
  | type :: rest => (type, nth_error rest 0)
  | [] => ("", None)
  end.

(** [(type === "tags" ? tags : branches).push(r)]. *)
Definition push_to (refName : string) (r : RefComparison.t) (acc : Compared.t)
  : Compared.t :=
  if fst (type_and_name refName) =? "tags"
  then {| Compared.branches := Compared.branches acc;
          Compared.tags := (Compared.tags acc ++ [r])%list |}
  else {| Compared.branches := (Compared.branches acc ++ [r])%list;
          Compared.tags := Compared.tags acc |}.

Definition mkRef (refName : string) (l p : option string) (s : Status)
  (a b : option Z) : RefComparison.t :=
  {| RefComparison.name := snd (type_and_name refName);
     RefComparison.localRef := l;
     RefComparison.privateRef := p;
     RefComparison.status := s;
     RefComparison.aheadCount := a;
     RefComparison.behindCount := b |}.

(** The record the first loop of [compareRefs] builds for one local ref. *)
Definition compareLocal `{OS} (repoPath : string) (privateRefs : JsMap.t)
  (refName localSha : string) : M RefComparison.t :=
  match Js.or_null (JsMap.get refName privateRefs) with
  | None => ret (mkRef refName (Some localSha) None new None None)
  | Some privateSha =>
      if localSha =? privateSha then
        ret (mkRef refName (Some localSha) (Some privateSha) same None None)
      else
        localIsAncestor <- isAncestor repoPath localSha privateSha ;;
        privateIsAncestor <- isAncestor repoPath privateSha localSha ;;
        if privateIsAncestor : bool then
          aheadCount <- getCommitCount repoPath privateSha localSha ;;
          ret (mkRef refName (Some localSha) (Some privateSha) ahead (Some aheadCount) None)
        else if localIsAncestor : bool then
          behindCount <- getCommitCount repoPath localSha privateSha ;;
          ret (mkRef refName (Some localSha) (Some privateSha) behind None (Some behindCount))
        else
          ret (mkRef refName (Some localSha) (Some privateSha) diverged None None)
  end.

(** The second loop: refs on private that are not local. *)
Definition addMissing (localRefs : JsMap.t) (acc : Compared.t)
  (entry : string * string) : Compared.t :=
  let '(refName, privateSha) := entry in
  if negb (JsMap.has refName localRefs)
  then push_to refName (mkRef refName None (Some privateSha) missing None None) acc
  else acc.

Definition compareRefs `{OS} (repoPath : string) (localRefs privateRefs : JsMap.t)
  : M Compared.t :=
  acc <- forM localRefs
           (fun acc entry =>
              r <- compareLocal repoPath privateRefs (fst entry) (snd entry) ;;
              ret (push_to (fst entry) r acc))
           Compared.empty ;;
  ret (fold_left (addMissing localRefs) privateRefs acc).

Definition repoExists `{OS} (repoPath : string) : M bool :=
  there <- fs_exists repoPath ;;
  if negb there then ret false
  else
    result <- exec "git rev-parse --git-dir" (Some repoPath) true ;;
    ret (ExecResult.success result).

Definition getRepoCloneTime `{OS} (repoPath : string) : M (option Z) :=
  there <- fs_exists repoPath ;;
  if negb there then ret None
  else mtime <- fs_mtime repoPath ;; ret (Some mtime).

Definition getDefaultBranch `{OS} (repoPath : string) : M string :=
  result <- exec "git symbolic-ref HEAD" (Some repoPath) true ;;
  if ExecResult.success result
  then ret (Js.replace_first "refs/heads/" "" (ExecResult.output result))
  else
    mainExists <- exec "git show-ref --verify refs/heads/main" (Some repoPath) true ;;
    if ExecResult.success mainExists then ret "main" else ret "master".

(** A value interpolated in a template string. *)
Definition interpolate (x : option string) : string :=
  match x with Some s => s | None => "undefined" end.

Definition failure (message : string) : ExecResult.t :=
  {| ExecResult.success := false; ExecResult.output := "";
     ExecResult.error := Some message |}.

Definition readmeNames : list string :=
  ["README.md"; "readme.md"; "README.MD"; "README"; "readme"; "README.txt"; "readme.txt"].

(** The first README name that exists in [tempDir], with its path. *)
Fixpoint findReadme `{OS} (tempDir : string) (names : list string)
  : M (option (string * string)) :=
  match names with
  | [] => ret None
  | name :: rest =>
      let path := path_join tempDir name in
      there <- fs_exists path ;;
      if there : bool then ret (Some (path, name)) else findReadme tempDir rest
  end.

Definition noticeMarker : string := "<!-- repo-sync-source-notice -->".
Definition noticeEnd : string := "<!-- end-repo-sync-source-notice -->".

Fixpoint drop_newlines (s : string) : string :=
  match s with
  | String c rest => if Ascii.eqb c (ascii_of_nat 10) then drop_newlines rest else s
  | EmptyString => EmptyString
  end.

(** [content.replace(/<!-- repo-sync-source-notice -->[\s\S]*?<!-- end-repo-sync-source-notice -->\n*/, "")]:
    from the first marker to the first end marker after it, and the line
    feeds that follow; nothing when no end marker follows the first marker. *)
Definition removeNotice (content : string) : string :=
  match String.index 0 noticeMarker content with
  | None => content
  | Some i =>
      let after := drop (i + String.length noticeMarker) content in
      match String.index 0 noticeEnd after with
      | None => content
      | Some j =>
          String.substring 0 i content
          ++ drop_newlines (drop (j + String.length noticeEnd) after)
      end
  end.

Definition noticeText (publicUrl : string) : string :=
  noticeMarker ++ Js.nl
  ++ "> **📦 Mirrored Repository**" ++ Js.nl
  ++ ">" ++ Js.nl
  ++ "> This repository is automatically mirrored from [" ++ publicUrl ++ "]("
  ++ publicUrl ++ ")." ++ Js.nl
  ++ "> Do not commit directly to this repository." ++ Js.nl
  ++ noticeEnd ++ Js.nl
  ++ Js.nl.

Definition commit_notice_command : string :=
  "git commit -m " ++ Js.dquote ++ "Add source repository notice" ++ Js.dquote.

(** The body of the [try] block of [addSourceNotice]. *)
Definition addSourceNotice_body `{OS} (tempDir repoPath publicUrl branch : string)
  : M ExecResult.t :=
  fs_mkdir tempDir ;;;
  cloneResult <- exec ("git clone " ++ Js.dquote ++ repoPath ++ Js.dquote ++ " "
                       ++ Js.dquote ++ tempDir ++ Js.dquote
                       ++ " --branch " ++ branch ++ " --single-branch") None true ;;
  if negb (ExecResult.success cloneResult) then
    ret (failure ("Failed to clone to temp: " ++ interpolate (ExecResult.error cloneResult)))
  else
    found <- findReadme tempDir readmeNames ;;
    readme <- match found with
              | Some (path, name) =>
                  if nonempty path && nonempty name then ret (path, name)
                  else
                    fs_write (path_join tempDir "README.md") "" ;;;
                    ret (path_join tempDir "README.md", "README.md")
              | None =>
                  fs_write (path_join tempDir "README.md") "" ;;;
                  ret (path_join tempDir "README.md", "README.md")
              end ;;
    let readmePath := fst readme in
    let readmeName := snd readme in
    currentContent <- fs_read readmePath ;;
    let newContent :=
      if Js.includes noticeMarker currentContent then removeNotice currentContent
      else currentContent in
    fs_write readmePath (noticeText publicUrl ++ newContent) ;;;
    exec ("git config user.email " ++ Js.dquote ++ "repo-sync@localhost" ++ Js.dquote)
      (Some tempDir) true ;;;
    exec ("git config user.name " ++ Js.dquote ++ "repo-sync" ++ Js.dquote)
      (Some tempDir) true ;;;
    exec ("git add " ++ Js.dquote ++ readmeName ++ Js.dquote) (Some tempDir) true ;;;
    commitResult <- exec commit_notice_command (Some tempDir) true ;;
    if negb (ExecResult.success commitResult) then
      ret (failure ("Failed to commit: " ++ interpolate (ExecResult.error commitResult)))
    else
      pushResult <- exec ("git push origin " ++ branch) (Some tempDir) true ;;
      if negb (ExecResult.success pushResult) then
        ret (failure ("Failed to push to bare repo: "
                      ++ interpolate (ExecResult.error pushResult)))
      else
        ret {| ExecResult.success := true; ExecResult.output := "Source notice added";
               ExecResult.error := None |}.

Definition addSourceNotice `{OS} (repoPath publicUrl branch : string) : M ExecResult.t :=
  t <- now ;;
  let tempDir := path_join tmpdir ("repo-sync-" ++ Js.of_Z t) in
  try_finally
    (addSourceNotice_body tempDir repoPath publicUrl branch)
    (there <- fs_exists tempDir ;;
     if there : bool then fs_rm tempDir else ret tt).

(* ===================================================================== *)
(** ** config.ts *)
(* ===================================================================== *)

Definition CACHE_DIR `{OS} : string := path_join homedir ".repo-sync".

Definition getTempDir `{OS} : string := path_join CACHE_DIR "repos".

Definition getRepoTempPath `{OS} (repoName : string) : string :=
  path_join getTempDir (repoName ++ ".git").

Definition ensureCacheDir `{OS} : M unit :=
  there <- fs_exists getTempDir ;;
  if negb there then fs_mkdir getTempDir else ret tt.

(* ===================================================================== *)
(** ** sync.ts *)
(* ===================================================================== *)

Module PullResult.
Record t : Type := {
  success : bool;
  repoPath : string;
  isNew : bool;
  error : option string
}.
End PullResult.

Module StatusResult.
Record t : Type := {
  status : RepoStatus.t;
  canPush : bool;
  hasChanges : bool;
  errors : list string
}.
End StatusResult.

Module PushResult.
Record t : Type := {
  success : bool;
  pushed : bool;
  error : option string
}.
End PushResult.

Definition pull `{OS} (repo : RepoConfig.t) : M PullResult.t :=
  ensureCacheDir ;;;
  let repoPath := getRepoTempPath (RepoConfig.name repo) in
  there <- repoExists repoPath ;;
  let fail isNew message :=
    {| PullResult.success := false; PullResult.repoPath := repoPath;
       PullResult.isNew := isNew; PullResult.error := Some message |} in
  fetched <-
    (if there : bool then
       console_log ("  Fetching updates from " ++ RepoConfig.public repo ++ "...") ;;;
       fetchResult <- fetchOrigin repoPath ;;
       if negb (ExecResult.success fetchResult)
       then ret (Some (fail false ("Failed to fetch: "
                                   ++ interpolate (ExecResult.error fetchResult))))
       else ret None
     else
       console_log ("  Cloning from " ++ RepoConfig.public repo ++ "...") ;;;
       cloneResult <- cloneMirror (RepoConfig.public repo) repoPath ;;
       if negb (ExecResult.success cloneResult)
       then ret (Some (fail true ("Failed to clone: "
                                  ++ interpolate (ExecResult.error cloneResult))))
       else ret None) ;;
  match fetched with
  | Some failed => ret failed
  | None =>
      remoteResult <- addRemote repoPath "private" (RepoConfig.private repo) ;;
      if negb (ExecResult.success remoteResult)
      then ret (fail (negb there) ("Failed to add private remote: "
                                   ++ interpolate (ExecResult.error remoteResult)))
      else ret {| PullResult.success := true; PullResult.repoPath := repoPath;
                  PullResult.isNew := negb there; PullResult.error := None |}
  end.

Definition notPulledMessage : string := "Not pulled yet. Run 'repo-sync pull' first.".
Definition behindMessage : string :=
  "Private has commits not in public - this shouldn't happen".
Definition divergedMessage : string :=
  "Refs have diverged - manual intervention may be needed".

Definition has_status (s : Status) (r : RefComparison.t) : bool :=
  Status_eqb (RefComparison.status r) s.

Definition status `{OS} (repo : RepoConfig.t) : M StatusResult.t :=
  let repoPath := getRepoTempPath (RepoConfig.name repo) in
  let baseStatus pulled pulledAt branches tags error :=
    {| RepoStatus.name := RepoConfig.name repo;
       RepoStatus.publicUrl := RepoConfig.public repo;
       RepoStatus.privateUrl := RepoConfig.private repo;
       RepoStatus.pulled := pulled;
       RepoStatus.pulledAt := pulledAt;
       RepoStatus.branches := branches;
       RepoStatus.tags := tags;
       RepoStatus.error := error |} in
  there <- repoExists repoPath ;;
  if negb there then
    ret {| StatusResult.status := baseStatus false None [] [] (Some notPulledMessage);
           StatusResult.canPush := false;
           StatusResult.hasChanges := false;
           StatusResult.errors := ["Not pulled yet"] |}
  else
    pulledAt <- getRepoCloneTime repoPath ;;
    console_log "  Fetching refs from private remote..." ;;;
    fetchResult <- fetchRemote repoPath "private" ;;
    (if negb (ExecResult.success fetchResult)
     then console_log "  Note: Could not fetch from private (may be empty or new)"
     else ret tt) ;;;
    localRefs <- getLocalRefs repoPath ;;
    privateRefs <- getRemoteRefs repoPath "private" ;;
    compared <- compareRefs repoPath localRefs privateRefs ;;
    let branches := Compared.branches compared in
    let tags := Compared.tags compared in
    let hasBehind := existsb (has_status behind) (branches ++ tags)%list in
    let hasDiverged := existsb (has_status diverged) (branches ++ tags)%list in
    let hasChanges :=
      existsb (fun r => has_status ahead r || has_status new r || has_status missing r)
        (branches ++ tags)%list in
    let errors :=
      ((if hasBehind then [behindMessage] else [])
       ++ (if hasDiverged then [divergedMessage] else []))%list in
    ret {| StatusResult.status := baseStatus true pulledAt branches tags None;
           StatusResult.canPush := negb hasBehind && negb hasDiverged;
           StatusResult.hasChanges := hasChanges;
           StatusResult.errors := errors |}.

Definition isTrue (flag : option bool) : bool :=
  match flag with Some true => true | _ => false end.

Definition pushFailure (message : string) : PushResult.t :=
  {| PushResult.success := false; PushResult.pushed := false;
     PushResult.error := Some message |}.

(** The tail of [push]: the source notice when configured, then the mirror
    push. *)
Definition push_proceed `{OS} (repo : RepoConfig.t) (repoPath : string)
  : M PushResult.t :=
  noticeFailed <-
    (if isTrue (RepoConfig.markSource repo) then
       console_log "  Adding source notice to README..." ;;;
       branch <- getDefaultBranch repoPath ;;
       noticeResult <- addSourceNotice repoPath (RepoConfig.public repo) branch ;;
       if negb (ExecResult.success noticeResult)
       then ret (Some (pushFailure ("Failed to add source notice: "
                                    ++ interpolate (ExecResult.error noticeResult))))
       else ret None
     else ret None) ;;
  match noticeFailed with
  | Some failed => ret failed
  | None =>
      console_log ("  Pushing to " ++ RepoConfig.private repo ++ "...") ;;;
      pushResult <- pushMirror repoPath "private" ;;
      if negb (ExecResult.success pushResult)
      then ret (pushFailure ("Failed to push: "
                             ++ interpolate (ExecResult.error pushResult)))
      else ret {| PushResult.success := true; PushResult.pushed := true;
                  PushResult.error := None |}
  end.

Definition push `{OS} (repo : RepoConfig.t) : M PushResult.t :=
  let repoPath := getRepoTempPath (RepoConfig.name repo) in
  there <- repoExists repoPath ;;
  if negb there then ret (pushFailure notPulledMessage)
  else if negb (isTrue (RepoConfig.markSource repo)) then
    statusResult <- status repo ;;
    if negb (StatusResult.canPush statusResult) then
      ret (pushFailure (Js.join "; " (StatusResult.errors statusResult)))
    else if negb (StatusResult.hasChanges statusResult) then
      ret {| PushResult.success := true; PushResult.pushed := false;
             PushResult.error := None |}
    else push_proceed repo repoPath
  else push_proceed repo repoPath.

(* ===================================================================== *)
(** ** A scripted operating system *)
(* ===================================================================== *)

(** An operating system for examples: child processes answer from a table
    of commands (every other command gets the default answer) and leave the
    world alone; the world is an in-memory store of paths. *)
Module Scripted.

Record Script : Type := {
  answers : list (string * ProcOutcome);
  otherwise : ProcOutcome
}.

Definition Files : Type := list (string * string).

Fixpoint answer (table : list (string * ProcOutcome)) (otherwise : ProcOutcome)
  (command : string) : ProcOutcome :=
  match table with
  | [] => otherwise
  | (c, r) :: rest => if c =? command then r else answer rest otherwise command
  end.

Definition remove (path : string) (w : Files) : Files :=
  filter (fun entry => negb (String.prefix path (fst entry))) w.

Definition os (script : Script) : OS := {|
  World := Files;
  execSync := fun command _ _ w => (answer (answers script) (otherwise script) command, w);
  existsSync := fun path w => JsMap.has path w;
  statSync_mtime := fun path w =>
    if JsMap.has path w then Ok 0%Z else Throw "ENOENT";
  mkdirSync := fun path w => (Ok tt, if JsMap.has path w then w else JsMap.set path "" w);
  writeFileSync := fun path content w => (Ok tt, JsMap.set path content w);
  readFileSync := fun path w =>
    match JsMap.get path w with Some c => Ok c | None => Throw "ENOENT" end;
  rmSync := fun path w => (Ok tt, remove path w);
  Date_now := fun _ => 0%Z;
  tmpdir := "/tmp";
  homedir := "/home/user";
  path_join := fun a b => a ++ "/" ++ b
|}.

Definition yes : ProcOutcome := Exited0 (Some "").
Definition no : ProcOutcome := Failed (Some 1%Z) (Some "") "Command failed".
Definition fatal : ProcOutcome :=
  Failed (Some 128%Z) (Some "fatal: Not a valid commit name") "Command failed".
Definition prints (s : string) : ProcOutcome := Exited0 (Some (s ++ Js.nl)).

End Scripted.

(* ===================================================================== *)
(** ** Vocabulary of the properties *)
(* ===================================================================== *)

(** *** The ancestry oracle, as the classifier sees it *)

Definition succeeded (r : ProcOutcome) : bool :=
  match r with Exited0 _ => true | Failed _ _ _ => false end.

(** The answer [isAncestor] gets in world [w]. *)
Definition reportsAncestor `{OS} (repoPath : string) (w : World)
  (ancestor descendant : string) : bool :=
  succeeded (fst (execSync (is_ancestor_command ancestor descendant)
                    (Some repoPath) true w)).

(** The query [isAncestor] makes fails in world [w] (it answers neither yes,
    exit status 0, nor no, exit status 1). *)
Definition ancestryQueryFails `{OS} (repoPath : string) (w : World)
  (ancestor descendant : string) : Prop :=
  exists st stderr message,
    fst (execSync (is_ancestor_command ancestor descendant) (Some repoPath) true w)
    = Failed st stderr message /\ st <> Some 1%Z.

(** The two oracle queries read the repository and leave the world as it
    was. *)
Definition QueriesPure `{OS} (repoPath : string) : Prop :=
  forall a b w,
    snd (execSync (is_ancestor_command a b) (Some repoPath) true w) = w
    /\ snd (execSync (commit_count_command a b) (Some repoPath) true w) = w.

(** No commit of the inventory is the empty string. *)
Definition CommitsNonEmpty (refs : JsMap.t) : Prop :=
  forall n c, In (n, c) refs -> c <> "".

(** What the inventories of [status] are: distinct names, commits that are
    not empty. *)
Definition Inventory (m : JsMap.t) : Prop := JsMap.Wf m /\ CommitsNonEmpty m.

(** *** What [compareRefs] emits *)

Definition is_tag (refName : string) : bool :=
  fst (type_and_name refName) =? "tags".

(** The two lists that hold a sequence of records pushed under their
    qualified names. *)
Definition route (es : list (string * RefComparison.t)) : Compared.t :=
  {| Compared.branches := map snd (filter (fun e => negb (is_tag (fst e))) es);
     Compared.tags := map snd (filter (fun e => is_tag (fst e)) es) |}.

(** The qualified names in the order the two loops visit them. *)
Definition emitted_names (localRefs privateRefs : JsMap.t) : list string :=
  (JsMap.keys localRefs
   ++ filter (fun k => negb (JsMap.has k localRefs)) (JsMap.keys privateRefs))%list.

(** In world [w], [compareRefs] returns, leaves the world as it was, and
    its result holds the records of [es], pushed in this order under these
    qualified names. *)
Definition Emitted `{OS} (repoPath : string) (localRefs privateRefs : JsMap.t)
  (w : World) (es : list (string * RefComparison.t)) : Prop :=
  map fst es = emitted_names localRefs privateRefs
  /\ exists tr,
       compareRefs repoPath localRefs privateRefs w = (Ok (route es), w, tr).

(** *** The commit graph the oracle is meant to answer about *)

Module Graph.

(** Each commit with its parents. *)
Definition t : Type := list (string * list string).

Definition commits (g : t) : list string := map fst g.

Definition parents (g : t) (c : string) : list string :=
  match find (fun e => fst e =? c) g with
  | Some e => snd e
  | None => []
  end.

(** [a] is [d] or an ancestor of [d]. *)
Inductive Reach (g : t) (a : string) : string -> Prop :=
| Reach_here : Reach g a a
| Reach_parent d p : In p (parents g d) -> Reach g a p -> Reach g a d.

(** [l] leads from [d] to [a], each commit a parent of the one before. *)
Fixpoint path (g : t) (d : string) (l : list string) (a : string) : Prop :=
  match l with
  | [] => d = a
  | x :: l' => In x (parents g d) /\ path g x l' a
  end.

(** The commits of a path that have a parent on it. *)
Fixpoint sources (d : string) (l : list string) : list string :=
  match l with
  | [] => []
  | x :: l' => d :: sources x l'
  end.

(** [a] is [d] or is reached from [d] by at most [fuel] parent links. *)
Fixpoint reaches (fuel : nat) (g : t) (a d : string) : bool :=
  (a =? d)
  || match fuel with
     | O => false
     | S fuel' => existsb (reaches fuel' g a) (parents g d)
     end.

(** [git merge-base --is-ancestor a d] exits with status 0. *)
Definition is_ancestor (g : t) (a d : string) : bool := reaches (length g) g a d.

(** The commits reachable from [to] and not from [from_], each once. *)
Definition exclusive (g : t) (from_ to : string) : list string :=
  filter (fun c => is_ancestor g c to && negb (is_ancestor g c from_))
    (nodup string_dec (commits g)).

(** What [git rev-list --count from..to] prints. *)
Definition count_exclusive (g : t) (from_ to : string) : Z :=
  Z.of_nat (length (exclusive g from_ to)).

End Graph.

(** On the commits of [g], the two queries answer as git does. *)
Definition AnswersCorrectly `{OS} (repoPath : string) (g : Graph.t) : Prop :=
  forall a b w,
    In a (Graph.commits g) -> In b (Graph.commits g) ->
    reportsAncestor repoPath w a b = Graph.is_ancestor g a b
    /\ fst (execSync (commit_count_command a b) (Some repoPath) true w)
       = Exited0 (Some (Js.of_Z (Graph.count_exclusive g a b) ++ Js.nl)).

(** Every commit of the inventory is a commit of [g]. *)
Definition CommitsIn (g : Graph.t) (refs : JsMap.t) : Prop :=
  forall n c, In (n, c) refs -> In c (Graph.commits g).

(** *** Traces *)

Definition is_push (e : Event) : bool :=
  match e with
  | EvExec command _ _ => String.prefix "git push" command
  | _ => false
  end.

(** The commands only [status] runs: the fetch from private, the two
    inventories and the two oracle queries. *)
Definition is_status_command (command : string) : bool :=
  (command =? "git fetch private")
  || String.prefix "git for-each-ref" command
  || String.prefix "git ls-remote" command
  || String.prefix "git merge-base" command
  || String.prefix "git rev-list" command.

Definition consults_status (e : Event) : bool :=
  match e with
  | EvExec command _ _ => is_status_command command
  | _ => false
  end.

(** An event that is no push. *)
Definition quiet (e : Event) : Prop := is_push e = false.

(** An event that is none of the commands of [status]. *)
Definition aside (e : Event) : Prop := consults_status e = false.

(** The mirror push of [push]. *)
Definition mirrorPush `{OS} (repo : RepoConfig.t) : Event :=
  EvExec (pushMirror_command "private")
    (Some (getRepoTempPath (RepoConfig.name repo))) false.

Definition is_mirror_push (e : Event) : bool :=
  match e with
  | EvExec command _ _ => command =? pushMirror_command "private"
  | _ => false
  end.

(** An event that is not the mirror push. *)
Definition held (e : Event) : Prop := is_mirror_push e = false.

(** The directory [addSourceNotice] works in when it starts in world [w]. *)
Definition noticeDir `{OS} (w : World) : string :=
  path_join tmpdir ("repo-sync-" ++ Js.of_Z (Date_now w)).

(** Every event of every run of [m] satisfies [P]. *)
Definition Traces `{OS} {A} (P : Event -> Prop) (m : M A) : Prop :=
  forall w r w' tr, m w = (r, w', tr) -> Forall P tr.

(** [m] returns in every world. *)
Definition Returns `{OS} {A} (m : M A) : Prop :=
  forall w, exists a w' tr, m w = (Ok a, w', tr).

(** What [status] returns when the mirror is not in the cache. *)
Definition notPulled (repo : RepoConfig.t) : StatusResult.t :=
  {| StatusResult.status :=
       {| RepoStatus.name := RepoConfig.name repo;
          RepoStatus.publicUrl := RepoConfig.public repo;
          RepoStatus.privateUrl := RepoConfig.private repo;
          RepoStatus.pulled := false;
          RepoStatus.pulledAt := None;
          RepoStatus.branches := [];
          RepoStatus.tags := [];
          RepoStatus.error := Some notPulledMessage |};
     StatusResult.canPush := false;
     StatusResult.hasChanges := false;
     StatusResult.errors := ["Not pulled yet"] |}.

Definition records (s : StatusResult.t) : list RefComparison.t :=
  (RepoStatus.branches (StatusResult.status s)
   ++ RepoStatus.tags (StatusResult.status s))%list.

(** *** The classifier as a function of the oracle's answers *)

(** The number [getCommitCount] gets in world [w]. *)
Definition reportedCount `{OS} (repoPath : string) (w : World) (from_ to : string) : Z :=
  match fst (execSync (commit_count_command from_ to) (Some repoPath) true w) with
  | Exited0 out =>
      Js.or_zero (Js.parseInt10 (match out with Some o => Js.trim o | None => "" end))
  | Failed _ _ _ => 0%Z
  end.

Definition verdict `{OS} (repoPath : string) (w : World) (refName l p : string)
  : RefComparison.t :=
  if reportsAncestor repoPath w p l then
    mkRef refName (Some l) (Some p) ahead (Some (reportedCount repoPath w p l)) None
  else if reportsAncestor repoPath w l p then
    mkRef refName (Some l) (Some p) behind None (Some (reportedCount repoPath w l p))
  else mkRef refName (Some l) (Some p) diverged None None.

Definition recordOf `{OS} (repoPath : string) (w : World) (privateRefs : JsMap.t)
  (refName l : string) : RefComparison.t :=
  match Js.or_null (JsMap.get refName privateRefs) with
  | None => mkRef refName (Some l) None new None None
  | Some p =>
      if l =? p then mkRef refName (Some l) (Some p) same None None
      else verdict repoPath w refName l p
  end.

Definition missingOf (entry : string * string) : string * RefComparison.t :=
  (fst entry, mkRef (fst entry) None (Some (snd entry)) missing None None).

Definition emissions `{OS} (repoPath : string) (w : World)
  (localRefs privateRefs : JsMap.t) : list (string * RefComparison.t) :=
  (map (fun e => (fst e, recordOf repoPath w privateRefs (fst e) (snd e))) localRefs
   ++ map missingOf (filter (fun e => negb (JsMap.has (fst e) localRefs)) privateRefs))%list.

Definition append (acc extra : Compared.t) : Compared.t :=
  {| Compared.branches := (Compared.branches acc ++ Compared.branches extra)%list;
     Compared.tags := (Compared.tags acc ++ Compared.tags extra)%list |}.

(* ===================================================================== *)
(** ** Example repositories *)
(* ===================================================================== *)

Module Demo.

(** Three commits in a line and one on the side. *)
Definition graph : Graph.t :=
  [("c1", []); ("c2", ["c1"]); ("c3", ["c2"]); ("d1", ["c1"])].

(** The answers git gives about the pairs of commits of [g]. *)
Definition oracle (g : Graph.t) : list (string * ProcOutcome) :=
  flat_map
    (fun a =>
       flat_map
         (fun b =>
            [(is_ancestor_command a b,
              if Graph.is_ancestor g a b then Scripted.yes else Scripted.no);
             (commit_count_command a b,
              Scripted.prints (Js.of_Z (Graph.count_exclusive g a b)))])
         (Graph.commits g))
    (Graph.commits g).

(** What the inventory commands print in a mirror with these local heads
    and tags and these heads and tags on private; the checks [status] makes
    before it reads them pass, and so does the mirror push. *)
Definition inventory (heads tags remoteHeads remoteTags : list string)
  : list (string * ProcOutcome) :=
  [("git rev-parse --git-dir", Scripted.prints ".");
   ("git fetch private", Scripted.yes);
   (for_each_ref_short "refs/heads/", Scripted.prints (Js.join Js.nl heads));
   (for_each_ref_short "refs/tags/", Scripted.prints (Js.join Js.nl tags));
   ("git for-each-ref --format='%(refname) %(objectname)' refs/remotes/private/",
    Scripted.prints (Js.join Js.nl remoteHeads));
   ("git ls-remote --tags private", Scripted.prints (Js.join Js.nl remoteTags));
   (pushMirror_command "private", Scripted.yes)].

(** A mirror holding [graph]: queries about other objects are fatal. *)
Definition mirror (heads tags remoteHeads remoteTags : list string) : OS :=
  Scripted.os
    {| Scripted.answers :=
         (inventory heads tags remoteHeads remoteTags ++ oracle graph)%list;
       Scripted.otherwise := Scripted.fatal |}.

(** One ref of each status. *)
Definition git : OS :=
  mirror ["main c3"; "old c1"; "side d1"; "topic c2"] ["v1 c2"]
    ["refs/remotes/private/main c1"; "refs/remotes/private/old c2";
     "refs/remotes/private/side c2"]
    ["c2" ++ Js.char 9 ++ "refs/tags/v1"; "c1" ++ Js.char 9 ++ "refs/tags/v0"].

(** One ref diverged, the others the same. *)
Definition forked : OS :=
  mirror ["main c3"; "side d1"] ["v1 c2"]
    ["refs/remotes/private/main c3"; "refs/remotes/private/side c2"]
    ["c2" ++ Js.char 9 ++ "refs/tags/v1"].

(** Private is two commits behind on [main]; nothing else differs. *)
Definition fastForward : OS :=
  mirror ["main c3"] ["v1 c2"] ["refs/remotes/private/main c1"]
    ["c2" ++ Js.char 9 ++ "refs/tags/v1"].

(** Private is up to date. *)
Definition upToDate : OS :=
  mirror ["main c3"] ["v1 c2"] ["refs/remotes/private/main c3"]
    ["c2" ++ Js.char 9 ++ "refs/tags/v1"].

(** A repository where no object can be read. *)
Definition broken : OS :=
  Scripted.os {| Scripted.answers := []; Scripted.otherwise := Scripted.fatal |}.

(** A repository where every command succeeds and prints 0: two tag
    objects on one commit are ancestors of each other, no commit apart. *)
Definition agreeable : OS :=
  Scripted.os {| Scripted.answers := []; Scripted.otherwise := Scripted.prints "0" |}.

(** As [agreeable], but there is nothing to commit. *)
Definition nothingToCommit : OS :=
  Scripted.os {| Scripted.answers := [(commit_notice_command, Scripted.no)];
                 Scripted.otherwise := Scripted.prints "0" |}.

Definition localRefs : JsMap.t :=
  [("heads/main", "c3"); ("heads/old", "c1"); ("heads/side", "d1");
   ("tags/v1", "c2"); ("heads/topic", "c2")].

Definition privateRefs : JsMap.t :=
  [("heads/main", "c1"); ("heads/old", "c2"); ("heads/side", "c2");
   ("tags/v1", "c2"); ("tags/v0", "c1")].

Definition repo (mark : option bool) : RepoConfig.t :=
  {| RepoConfig.name := "demo";
     RepoConfig.public := "https://example.org/demo.git";
     RepoConfig.private := "git@private.example.org:vendor/demo.git";
     RepoConfig.markSource := mark |}.

(** The cache holds the mirror of [repo]. *)
Definition pulled : Scripted.Files := [("/home/user/.repo-sync/repos/demo.git", "")].

(** The cache is empty. *)
Definition fresh : Scripted.Files := [].

End Demo.

(* ===================================================================== *)
(** ** sync.ts, continued *)
(* ===================================================================== *)

Definition clean `{OS} (repo : RepoConfig.t) : M unit :=
  let repoPath := getRepoTempPath (RepoConfig.name repo) in
  there <- repoExists repoPath ;;
  if there : bool then fs_rm repoPath else ret tt.

(* ===================================================================== *)
(** ** Further vocabulary *)
(* ===================================================================== *)

(** Every event of every run of [m] satisfies [P], and what [m] returns
    satisfies [Q]. *)
Definition Runs `{OS} {A} (P : Event -> Prop) (Q : A -> Prop) (m : M A) : Prop :=
  forall w r w' tr, m w = (r, w', tr) -> Forall P tr /\ forall a, r = Ok a -> Q a.

(** The record of a ref that is only local, and of a ref that is the same
    on both sides. *)
Definition newOf (entry : string * string) : string * RefComparison.t :=
  (fst entry, mkRef (fst entry) (Some (snd entry)) None new None None).

Definition sameOf (entry : string * string) : string * RefComparison.t :=
  (fst entry,
   mkRef (fst entry) (Some (snd entry)) (Some (snd entry)) same None None).

(** No slash in the string. *)
Definition slashless (s : string) : bool :=
  all_chars (fun c => negb (Ascii.eqb c "/")) s.

(** The qualified name of a branch or of a tag, with the short name. *)
Definition QualifiedAs (short n : string) : Prop :=
  n = "heads/" ++ short \/ n = "tags/" ++ short.

(** Every entry of the map satisfies [Q]. *)
Definition Entries (Q : string -> string -> Prop) (m : JsMap.t) : Prop :=
  forall n c, In (n, c) m -> Q n c.

(** What [getLocalRefs] keeps of a line: a short name and a commit, neither
    empty, under [heads/] or [tags/]. *)
Definition LocalEntry (n c : string) : Prop :=
  c <> "" /\ exists short, short <> "" /\ QualifiedAs short n.

(** What [getRemoteRefs] keeps of a line: a commit in lower-case
    hexadecimal, under [heads/] a name that is not empty, under [tags/] a
    name that is not empty and is not a peeled tag. *)
Definition RemoteEntry (n c : string) : Prop :=
  hex_plus c = true
  /\ exists short,
       dot_plus short = true
       /\ (n = "heads/" ++ short
           \/ (n = "tags/" ++ short /\ Js.endsWith "^{}" short = false)).

(** No [<] in the string. *)
Definition angleless (s : string) : bool :=
  all_chars (fun c => negb (Ascii.eqb c "<")) s.

(** An event that stays in the directory [dir]: a command run there or
    without a directory of its own, [dir] made or removed, a README written
    in [dir]. *)
Definition within `{OS} (dir : string) (e : Event) : Prop :=
  match e with
  | EvExec _ cwd _ => cwd = None \/ cwd = Some dir
  | EvLog _ => True
  | EvMkdir path => path = dir
  | EvWrite path _ => exists name, In name readmeNames /\ path = path_join dir name
  | EvRm path => path = dir
  end.

(** The last event of a trace is [e]. *)
Definition endsWith {A} (e : A) (tr : list A) : Prop := exists tr0, tr = (tr0 ++ [e])%list.

(** A push result that is a failure with its message, or a success. *)
Definition Sound (r : PushResult.t) : Prop :=
  (PushResult.success r = true -> PushResult.error r = None)
  /\ (PushResult.success r = false ->
      PushResult.pushed r = false /\ PushResult.error r <> None).

(** A [git remote] command run in [repoPath]. *)
Definition remoteCommand (repoPath : string) (e : Event) : Prop :=
  match e with
  | EvExec command cwd _ => String.prefix "git remote " command = true /\ cwd = Some repoPath
  | _ => False
  end.

(** What [pull] does first on a mirror that is there, or is not there. *)
Definition pullStart `{OS} (repo : RepoConfig.t) (there : bool) : list Event :=
  if there then
    [EvLog ("  Fetching updates from " ++ RepoConfig.public repo ++ "...");
     EvExec "git fetch --prune origin"
       (Some (getRepoTempPath (RepoConfig.name repo))) true]
  else
    [EvLog ("  Cloning from " ++ RepoConfig.public repo ++ "...");
     EvExec ("git clone --mirror " ++ Js.dquote ++ RepoConfig.public repo ++ Js.dquote
             ++ " " ++ Js.dquote ++ getRepoTempPath (RepoConfig.name repo) ++ Js.dquote)
       None true].

(** In every world [m] returns, and what it returns and what it did
    satisfy [Q]. *)
Definition Does `{OS} {A} (m : M A) (Q : A -> list Event -> Prop) : Prop :=
  forall w, exists a w' tr, m w = (Ok a, w', tr) /\ Q a tr.

(* ===================================================================== *)
(** ** cli.ts: the command line *)
(* ===================================================================== *)

Module ParsedArgs.
Record t : Type := {
  command : string;
  repoName : option string;
  configPath : option string;
  yes : bool;
  help : bool
}.
End ParsedArgs.

(** The loop of [parseArgs] from argument [i] on, with the five variables
    in [acc]; [args[++i]] takes the next argument, or [undefined] past the
    end. *)
Fixpoint parseArgs_from (args : list string) (acc : ParsedArgs.t) : ParsedArgs.t :=
  match args with
  | [] => acc
  | arg :: rest =>
      if (arg =? "-h") || (arg =? "--help") then
        parseArgs_from rest
          {| ParsedArgs.command := ParsedArgs.command acc;
             ParsedArgs.repoName := ParsedArgs.repoName acc;
             ParsedArgs.configPath := ParsedArgs.configPath acc;
             ParsedArgs.yes := ParsedArgs.yes acc;
             ParsedArgs.help := true |}
      else if (arg =? "-y") || (arg =? "--yes") then
        parseArgs_from rest
          {| ParsedArgs.command := ParsedArgs.command acc;
             ParsedArgs.repoName := ParsedArgs.repoName acc;
             ParsedArgs.configPath := ParsedArgs.configPath acc;
             ParsedArgs.yes := true;
             ParsedArgs.help := ParsedArgs.help acc |}
      else if (arg =? "-c") || (arg =? "--config") then
        match rest with
        | value :: rest' =>
            parseArgs_from rest'
              {| ParsedArgs.command := ParsedArgs.command acc;
                 ParsedArgs.repoName := ParsedArgs.repoName acc;
                 ParsedArgs.configPath := Some value;
                 ParsedArgs.yes := ParsedArgs.yes acc;
                 ParsedArgs.help := ParsedArgs.help acc |}
        | [] =>
            {| ParsedArgs.command := ParsedArgs.command acc;
               ParsedArgs.repoName := ParsedArgs.repoName acc;
               ParsedArgs.configPath := None;
               ParsedArgs.yes := ParsedArgs.yes acc;
               ParsedArgs.help := ParsedArgs.help acc |}
        end
      else if negb (nonempty (ParsedArgs.command acc)) then
        parseArgs_from rest
          {| ParsedArgs.command := arg;
             ParsedArgs.repoName := ParsedArgs.repoName acc;
             ParsedArgs.configPath := ParsedArgs.configPath acc;
             ParsedArgs.yes := ParsedArgs.yes acc;
             ParsedArgs.help := ParsedArgs.help acc |}
      else if negb (Js.truthy (ParsedArgs.repoName acc)) then
        parseArgs_from rest
          {| ParsedArgs.command := ParsedArgs.command acc;
             ParsedArgs.repoName := Some arg;
             ParsedArgs.configPath := ParsedArgs.configPath acc;
             ParsedArgs.yes := ParsedArgs.yes acc;
             ParsedArgs.help := ParsedArgs.help acc |}
      else parseArgs_from rest acc
  end.

Definition parseArgs (args : list string) : ParsedArgs.t :=
  parseArgs_from args
    {| ParsedArgs.command := ""; ParsedArgs.repoName := None;
       ParsedArgs.configPath := None; ParsedArgs.yes := false;
       ParsedArgs.help := false |}.

(** *** What a command line holds *)

(** An argument as [parseArgs] reads it: an option, the value of a config
    option ([None] when the option is the last argument), or an operand. *)
Inductive Arg : Type :=
| HelpOption
| YesOption
| ConfigOption (value : option string)
| Operand (arg : string).

Fixpoint read_args (args : list string) : list Arg :=
  match args with
  | [] => []
  | arg :: rest =>
      if (arg =? "-h") || (arg =? "--help") then HelpOption :: read_args rest
      else if (arg =? "-y") || (arg =? "--yes") then YesOption :: read_args rest
      else if (arg =? "-c") || (arg =? "--config") then
        match rest with
        | value :: rest' => ConfigOption (Some value) :: read_args rest'
        | [] => [ConfigOption None]
        end
      else Operand arg :: read_args rest
  end.

Definition is_help (a : Arg) : bool :=
  match a with HelpOption => true | _ => false end.

Definition is_yes (a : Arg) : bool :=
  match a with YesOption => true | _ => false end.

(** The operands that are not the empty string, in order. *)
Fixpoint words (line : list Arg) : list string :=
  match line with
  | [] => []
  | Operand arg :: rest => if nonempty arg then arg :: words rest else words rest
  | _ :: rest => words rest
  end.

(** The value of the last config option, when there is one. *)
Fixpoint last_config (line : list Arg) (before : option string) : option string :=
  match line with
  | [] => before
  | ConfigOption value :: rest => last_config rest value
  | _ :: rest => last_config rest before
  end.

(* ===================================================================== *)
(** ** scripts/bump-version.mjs *)
(* ===================================================================== *)

(** A JavaScript number that holds an integer, or NaN ([None]); exact for
    integers up to [Number.MAX_SAFE_INTEGER]. *)
Definition number : Type := option Z.

Definition MAX_SAFE_INTEGER : Z := (2 ^ 53 - 1)%Z.

(** [String(n)]. *)
Definition string_of_number (n : number) : string :=
  match n with Some z => Js.of_Z z | None => "NaN" end.

(** [n + 1]. *)
Definition increment (n : number) : number := option_map (fun z => (z + 1)%Z) n.

Module Version.
Record t : Type := {
  major : number;
  minor : number;
  patch : number;
  suffix : string
}.
End Version.

(** The line terminators, which [.] of a regular expression does not
    take: LF, CR, U+2028 and U+2029 (in UTF-8). *)
Definition has_line_terminator (s : string) : bool :=
  Js.includes (Js.char 10) s || Js.includes (Js.char 13) s
  || Js.includes (Js.char 226 ++ Js.char 128 ++ Js.char 168) s
  || Js.includes (Js.char 226 ++ Js.char 128 ++ Js.char 169) s.

(** [version.match] with the pattern of three groups of [\d+] between
    dots and a last group of any characters that [.] takes, from start to
    end.  Each run of digits is the longest one: what follows the first two
    is a dot, and what follows the third is taken whole by the last
    group. *)
Definition parseVersion (version : string) : option Version.t :=
  let '(major, rest1) := span Js.is_digit version in
  match rest1 with
  | String "." rest1' =>
      let '(minor, rest2) := span Js.is_digit rest1' in
      match rest2 with
      | String "." rest2' =>
          let '(patch, suffix) := span Js.is_digit rest2' in
          if nonempty major && nonempty minor && nonempty patch
             && negb (has_line_terminator suffix)
          then Some {| Version.major := Js.parseInt10 major;
                       Version.minor := Js.parseInt10 minor;
                       Version.patch := Js.parseInt10 patch;
                       Version.suffix := suffix |}
          else None
      | _ => None
      end
  | _ => None
  end.

Definition formatVersion (parts : Version.t) : string :=
  string_of_number (Version.major parts) ++ "."
  ++ string_of_number (Version.minor parts) ++ "."
  ++ string_of_number (Version.patch parts) ++ Version.suffix parts.

(** [\w]. *)
Definition is_word (c : ascii) : bool :=
  let n := nat_of_ascii c in
  Js.is_digit c || ((65 <=? n) && (n <=? 90))%nat || ((97 <=? n) && (n <=? 122))%nat
  || (n =? 95)%nat.

(** [/^\d+\.\d+\.\d+(-[\w.]+)?$/.test(arg)]. *)
Definition is_explicit_version (arg : string) : bool :=
  let '(major, rest1) := span Js.is_digit arg in
  match rest1 with
  | String "." rest1' =>
      let '(minor, rest2) := span Js.is_digit rest1' in
      match rest2 with
      | String "." rest2' =>
          let '(patch, rest3) := span Js.is_digit rest2' in
          nonempty major && nonempty minor && nonempty patch
          && match rest3 with
             | EmptyString => true
             | String "-" tag =>
                 nonempty tag
                 && all_chars (fun c => is_word c || Ascii.eqb c ".") tag
             | _ => false
             end
      | _ => false
      end
  | _ => false
  end.

(** [s.toLowerCase()] on the ASCII letters.  The script compares the
    result with [patch], [minor] and [major] only, and a string that holds
    a character outside ASCII does not lower to one of these. *)
Definition lower (c : ascii) : ascii :=
  let n := nat_of_ascii c in
  if ((65 <=? n) && (n <=? 90))%nat then ascii_of_nat (n + 32) else c.

Fixpoint toLowerCase (s : string) : string :=
  match s with
  | EmptyString => EmptyString
  | String c rest => String (lower c) (toLowerCase rest)
  end.

(** How the script ends, up to the version it goes on to write. *)
Inductive Bump : Type :=
| ShowsCurrent
| CurrentNotSemver
| InvalidVersion
| Writes (newVersion : string).

(** The script from the current version and [process.argv[2]] to
    [newVersion]. *)
Definition newVersion (currentVersion : string) (arg : option string) : Bump :=
  match arg with
  | None | Some EmptyString => ShowsCurrent
  | Some arg =>
      match parseVersion currentVersion with
      | None => CurrentNotSemver
      | Some parts =>
          let word := toLowerCase arg in
          if word =? "patch" then
            Writes (formatVersion
                      {| Version.major := Version.major parts;
                         Version.minor := Version.minor parts;
                         Version.patch := increment (Version.patch parts);
                         Version.suffix := "" |})
          else if word =? "minor" then
            Writes (formatVersion
                      {| Version.major := Version.major parts;
                         Version.minor := increment (Version.minor parts);
                         Version.patch := Some 0%Z;
                         Version.suffix := "" |})
          else if word =? "major" then
            Writes (formatVersion
                      {| Version.major := increment (Version.major parts);
                         Version.minor := Some 0%Z;
                         Version.patch := Some 0%Z;
                         Version.suffix := "" |})
          else if negb (is_explicit_version arg) then InvalidVersion
          else Writes arg
      end
  end.

(** A version whose three numbers are integers from 0 up to [bound]. *)
Definition Numbered (bound : Z) (parts : Version.t) : Prop :=
  exists major minor patch,
    Version.major parts = Some major /\ Version.minor parts = Some minor
    /\ Version.patch parts = Some patch
    /\ (0 <= major <= bound)%Z /\ (0 <= minor <= bound)%Z /\ (0 <= patch <= bound)%Z.

(** A suffix that [parseVersion] gives back: it takes none of the digits
    before it and no line terminator. *)
Definition is_suffix (s : string) : bool :=
  match s with
  | String c _ => negb (Js.is_digit c)
  | EmptyString => true
  end
  && negb (has_line_terminator s).



(** An event of looking at the mirror in [repoPath]: a message, or one of
    the commands of [status] or the check of [repoExists], run there with
    its output captured. *)
Definition inspects (repoPath : string) (e : Event) : Prop :=
  match e with
  | EvExec command cwd silent =>
      cwd = Some repoPath /\ silent = true
      /\ (command = "git rev-parse --git-dir" \/ is_status_command command = true)
  | EvLog _ => True
  | _ => False
  end.

(** [statSync] gives the times of every path that [existsSync] finds. *)
Definition StatsWhatExists `{OS} : Prop :=
  forall path w, existsSync path w = true -> exists t, statSync_mtime path w = Ok t.

(* ===================================================================== *)
(** ** config.ts, continued: the configuration file *)
(* ===================================================================== *)

(** A value that [parseYaml] gives.  Of a number the program reads only
    whether it is truthy. *)
#[warnings="-register-all"] Inductive Value : Type :=
| VNull
| VBool (b : bool)
| VNumber (nonzero : bool)
| VString (s : string)
| VArray (items : list Value)
| VObject (fields : list (string * Value)).

(** The [yaml] package. *)
Class Yaml : Type := {
  parseYaml : string -> Outcome Value
}.

Fixpoint field (key : string) (fields : list (string * Value)) : option Value :=
  match fields with
  | [] => None
  | (k, v) :: rest => if k =? key then Some v else field key rest
  end.

(** [value.key] for a key that no prototype defines: [None] is
    [undefined], and reading a property of [null] is a TypeError. *)
Definition property (key : string) (value : Value) : Outcome (option Value) :=
  match value with
  | VNull => Throw ("Cannot read properties of null (reading '" ++ key ++ "')")
  | VObject fields => Ok (field key fields)
  | _ => Ok None
  end.

(** Truthiness of a value that may be undefined. *)
Definition truthy_value (value : option Value) : bool :=
  match value with
  | None | Some VNull => false
  | Some (VBool b) => b
  | Some (VNumber nonzero) => nonzero
  | Some (VString s) => nonempty s
  | Some (VArray _) | Some (VObject _) => true
  end.

Module Config.
Record t : Type := {
  repos : list RepoConfig.t
}.
End Config.

Definition DEFAULT_CONFIG_PATH : string := "repo-sync.yaml".

Definition getConfigPath (customPath : option string) : string :=
  match Js.or_null customPath with
  | Some path => path
  | None => DEFAULT_CONFIG_PATH
  end.

Definition configNotFound (path : string) : string :=
  "Config file not found: " ++ path ++ Js.nl ++ "Create it with:" ++ Js.nl ++ Js.nl
  ++ "  cat > " ++ path ++ " << 'EOF'" ++ Js.nl ++ "repos:" ++ Js.nl
  ++ "  - name: example-repo" ++ Js.nl
  ++ "    public: https://github.com/org/example-repo.git" ++ Js.nl
  ++ "    private: git@private.company.com:vendor/example-repo.git" ++ Js.nl ++ "EOF".

Definition outcome `{OS} {A} (r : Outcome A) : M A := fun w => (r, w, []).

(** [!repo.key || typeof repo.key !== "string"] is false: the property is
    a string that is not empty. *)
Definition string_property (key : string) (repo : Value) : Outcome (option string) :=
  match property key repo with
  | Ok (Some (VString (String c s))) => Ok (Some (String c s))
  | Ok _ => Ok None
  | Throw e => Throw e
  end.

Definition validateRepoConfig `{OS} (repo : Value) : M unit :=
  name <- outcome (string_property "name" repo) ;;
  match name with
  | None => throw "Each repo must have a 'name' string"
  | Some name =>
      public <- outcome (string_property "public" repo) ;;
      match public with
      | None => throw ("Repo '" ++ name ++ "' must have a 'public' URL")
      | Some _ =>
          private <- outcome (string_property "private" repo) ;;
          match private with
          | None => throw ("Repo '" ++ name ++ "' must have a 'private' URL")
          | Some _ => ret tt
          end
      end
  end.

(** A repository of the parsed document, read as a [RepoConfig]. *)
Definition as_RepoConfig (repo : Value) : RepoConfig.t :=
  let text key :=
    match property key repo with
    | Ok (Some (VString s)) => s
    | _ => ""
    end in
  {| RepoConfig.name := text "name";
     RepoConfig.public := text "public";
     RepoConfig.private := text "private";
     RepoConfig.markSource :=
       match property "markSource" repo with
       | Ok (Some flag) => Some (truthy_value (Some flag))
       | _ => None
       end |}.

Definition loadConfig `{OS} `{Yaml} (configPath : option string) : M Config.t :=
  let path := getConfigPath configPath in
  there <- fs_exists path ;;
  if negb there then throw (configNotFound path)
  else
    content <- fs_read path ;;
    config <- outcome (parseYaml content) ;;
    repos <- outcome (property "repos" config) ;;
    match repos with
    | Some (VArray repos) =>
        forM repos (fun _ repo => validateRepoConfig repo) tt ;;;
        ret {| Config.repos := map as_RepoConfig repos |}
    | _ => throw "Config must have a 'repos' array"
    end.

Definition findRepo (config : Config.t) (name : string) : option RepoConfig.t :=
  find (fun r => RepoConfig.name r =? name) (Config.repos config).

(** *** What a configuration holds *)

(** A repository of a document with the three strings, none empty. *)
Definition ValidRepo (repo : Value) : Prop :=
  exists name public private,
    string_property "name" repo = Ok (Some name)
    /\ string_property "public" repo = Ok (Some public)
    /\ string_property "private" repo = Ok (Some private).

(** A repository with a name and two addresses. *)
Definition Complete (repo : RepoConfig.t) : Prop :=
  RepoConfig.name repo <> "" /\ RepoConfig.public repo <> ""
  /\ RepoConfig.private repo <> "".

(** *** An example configuration *)

Module DemoConfig.

Definition document : Value :=
  VObject
    [("repos",
      VArray
        [VObject [("name", VString "demo");
                  ("public", VString "https://example.org/demo.git");
                  ("private", VString "git@private.example.org:vendor/demo.git")];
         VObject [("name", VString "tools");
                  ("public", VString "https://example.org/tools.git");
                  ("private", VString "git@private.example.org:vendor/tools.git");
                  ("markSource", VBool true)]])].

(** A parser that knows one file. *)
Definition yaml : Yaml :=
  {| parseYaml := fun content =>
       if content =? "demo and tools" then Ok document
       else Throw "YAMLParseError" |}.

(** The configuration file is in the working directory, and the cache holds
    the mirror of [demo]. *)
Definition files : Scripted.Files :=
  [("repo-sync.yaml", "demo and tools");
   ("/home/user/.repo-sync/repos/demo.git", "")].

End DemoConfig.

(* ===================================================================== *)
(** ** sync.ts, continued: formatting *)
(* ===================================================================== *)

(** [Date.prototype.toLocaleString], on the time in milliseconds. *)
Class Locale : Type := {
  toLocaleString : Z -> string
}.

(** A number that may be undefined, in a template string. *)
Definition interpolate_number (x : option Z) : string :=
  match x with Some n => Js.of_Z n | None => "undefined" end.

(** [ref?.substring(0, 7) || "-------"]. *)
Definition short (ref : option string) : string :=
  match ref with
  | Some sha =>
      let cut := String.substring 0 7 sha in
      if nonempty cut then cut else "-------"
  | None => "-------"
  end.

Definition formatRefComparison (ref : RefComparison.t) : string :=
  let shortLocal := short (RefComparison.localRef ref) in
  let shortPrivate := short (RefComparison.privateRef ref) in
  let name := interpolate (RefComparison.name ref) in
  match RefComparison.status ref with
  | same => "  " ++ name ++ ": " ++ shortLocal ++ " (up to date)"
  | ahead =>
      "  " ++ name ++ ": " ++ shortPrivate ++ " → " ++ shortLocal ++ " (+"
      ++ interpolate_number (RefComparison.aheadCount ref) ++ " commits)"
  | behind =>
      "  " ++ name ++ ": " ++ shortLocal ++ " ← " ++ shortPrivate ++ " (private is "
      ++ interpolate_number (RefComparison.behindCount ref) ++ " ahead!) ⚠️"
  | new => "  " ++ name ++ ": " ++ shortLocal ++ " (new)"
  | missing => "  " ++ name ++ ": deleted from public (was " ++ shortPrivate ++ ")"
  | diverged =>
      "  " ++ name ++ ": " ++ shortLocal ++ " ≠ " ++ shortPrivate ++ " (diverged!) ⚠️"
  end.

Definition changed (ref : RefComparison.t) : bool :=
  negb (Status_eqb (RefComparison.status ref) same).

Definition upToDateLine : string := "  Status:  Up to date ✓".

(** The array [lines] of [formatStatus] when it returns. *)
Definition formatStatus_lines `{Locale} (result : StatusResult.t) : list string :=
  let s := StatusResult.status result in
  let head :=
    [Js.nl ++ RepoStatus.name s;
     "  Public:  " ++ RepoStatus.publicUrl s;
     "  Private: " ++ RepoStatus.privateUrl s] in
  if negb (RepoStatus.pulled s) then (head ++ ["  Status:  Not pulled yet"])%list
  else
    let pulledAt :=
      match RepoStatus.pulledAt s with
      | Some time => ["  Pulled:  " ++ toLocaleString time]
      | None => []
      end in
    let changedBranches := filter changed (RepoStatus.branches s) in
    let changedTags := filter changed (RepoStatus.tags s) in
    let refs :=
      if ((length changedBranches =? 0) && (length changedTags =? 0))%nat
      then [upToDateLine]
      else
        ((if (0 <? length changedBranches)%nat
          then "  Branches:" :: map formatRefComparison changedBranches else [])
         ++ (if (0 <? length changedTags)%nat
             then "  Tags:" :: map formatRefComparison changedTags else []))%list in
    let errors :=
      if (0 <? length (StatusResult.errors result))%nat
      then "  Errors:" :: map (fun e => "    ⚠️  " ++ e) (StatusResult.errors result)
      else [] in
    (head ++ pulledAt ++ refs ++ errors)%list.

Definition formatStatus `{Locale} (result : StatusResult.t) : string :=
  Js.join Js.nl (formatStatus_lines result).

(* ===================================================================== *)
(** ** cli.ts, continued: the commands *)
(* ===================================================================== *)

(** What a command does: what the library does, and the lines it prints
    on the error stream. *)
Inductive CliEvent : Type :=
| Lib (e : Event)
| EvError (message : string).

(** How a command ends: it returns, it throws, or it leaves the process
    with [process.exit]. *)
Inductive Ending (A : Type) : Type :=
| Returned (a : A)
| Thrown (e : string)
| Exited (code : Z).
Arguments Returned {A} a.
Arguments Thrown {A} e.
Arguments Exited {A} code.

Definition Cli `{OS} (A : Type) : Type := World -> Ending A * World * list CliEvent.

Definition returned `{OS} {A} (a : A) : Cli A := fun w => (Returned a, w, []).

Definition andThen `{OS} {A B} (m : Cli A) (f : A -> Cli B) : Cli B :=
  fun w =>
    match m w with
    | (Returned a, w1, t1) => let '(r, w2, t2) := f a w1 in (r, w2, (t1 ++ t2)%list)
    | (Thrown e, w1, t1) => (Thrown e, w1, t1)
    | (Exited code, w1, t1) => (Exited code, w1, t1)
    end.

(** A call into the library. *)
Definition lib `{OS} {A} (m : M A) : Cli A :=
  fun w =>
    match m w with
    | (Ok a, w1, t1) => (Returned a, w1, map Lib t1)
    | (Throw e, w1, t1) => (Thrown e, w1, map Lib t1)
    end.

Definition console_error `{OS} (message : string) : Cli unit :=
  fun w => (Returned tt, w, [EvError message]).

Definition process_exit `{OS} {A} (code : Z) : Cli A := fun w => (Exited code, w, []).

(** [try { body } catch (err) { handler(err.message) }]: leaving the
    process is no exception. *)
Definition try_catch `{OS} {A} (body : Cli A) (handler : string -> Cli A) : Cli A :=
  fun w =>
    match body w with
    | (Thrown e, w1, t1) => let '(r, w2, t2) := handler e w1 in (r, w2, (t1 ++ t2)%list)
    | ending => ending
    end.

Declare Scope cli_scope.
Delimit Scope cli_scope with cli.
Notation "x <- m ;; k" := (andThen m (fun x => k))
  (at level 61, m at next level, right associativity) : cli_scope.
Notation "m ;;; k" := (andThen m (fun _ => k))
  (at level 61, right associativity) : cli_scope.

Fixpoint forEach `{OS} {A S} (xs : list A) (body : S -> A -> Cli S) (acc : S) : Cli S :=
  match xs with
  | [] => returned acc
  | x :: rest => andThen (body acc x) (forEach rest body)
  end.

Definition usage : string :=
  Js.join Js.nl
    ["";
     "repo-sync - Sync public repositories to private mirrors";
     "";
     "Usage:";
     "  repo-sync pull [repo-name]     Clone/fetch from public repos";
     "  repo-sync status [repo-name]   Show sync status";
     "  repo-sync push [repo-name]     Push to private repos";
     "  repo-sync clean [repo-name]    Remove local temp clones";
     "";
     "Options:";
     "  -c, --config <path>   Path to config file (default: ~/.repo-sync/config.yaml)";
     "  -h, --help            Show this help message";
     "";
     "Examples:";
     "  repo-sync pull                 Pull all configured repos";
     "  repo-sync pull my-lib          Pull a specific repo";
     "  repo-sync status               Show status of all repos";
     "  repo-sync push                 Push all repos to private";
     "  repo-sync push -y              Push without status check";
     ""].

Definition printUsage `{OS} : Cli unit := lib (console_log usage).

(** [`${n}`] for a length or a counter. *)
Definition count (n : nat) : string := Js.of_Z (Z.of_nat n).

Definition getRepos `{OS} `{Yaml} (configPath repoName : option string)
  : Cli (list RepoConfig.t) :=
  (config <- lib (loadConfig configPath) ;;
   match Js.or_null repoName with
   | Some repoName =>
       match findRepo config repoName with
       | None =>
           console_error ("Error: Repository '" ++ repoName ++ "' not found in config") ;;;
           console_error ("Available repos: "
                          ++ Js.join ", " (map RepoConfig.name (Config.repos config))) ;;;
           process_exit 1
       | Some repo => returned [repo]
       end
   | None => returned (Config.repos config)
   end)%cli.

Definition commandPull `{OS} (repos : list RepoConfig.t) : Cli unit :=
  (lib (console_log ("Pulling " ++ count (length repos) ++ " repo(s)..." ++ Js.nl)) ;;;
   counts <-
     forEach repos
       (fun '(success, failed) repo =>
          lib (console_log (RepoConfig.name repo ++ ":")) ;;;
          result <- lib (pull repo) ;;
          if PullResult.success result then
            lib (console_log ("  ✓ " ++ (if PullResult.isNew result then "Cloned"
                                          else "Updated") ++ Js.nl)) ;;;
            returned (S success, failed)
          else
            console_error ("  ✗ " ++ interpolate (PullResult.error result) ++ Js.nl) ;;;
            returned (success, S failed))
       (0%nat, 0%nat) ;;
   let '(success, failed) := counts in
   lib (console_log (Js.nl ++ "Pull complete: " ++ count success ++ " succeeded, "
                     ++ count failed ++ " failed")) ;;;
   if (0 <? failed)%nat then process_exit 1 else returned tt)%cli.

Definition commandStatus `{OS} `{Locale} (repos : list RepoConfig.t) : Cli unit :=
  forEach repos
    (fun _ repo =>
       (result <- lib (status repo) ;;
        lib (console_log (formatStatus result)))%cli)
    tt.

Definition commandPush `{OS} (repos : list RepoConfig.t) : Cli unit :=
  (lib (console_log ("Pushing " ++ count (length repos) ++ " repo(s)..." ++ Js.nl)) ;;;
   counts <-
     forEach repos
       (fun '(pushed, skipped, failed) repo =>
          lib (console_log (RepoConfig.name repo ++ ":")) ;;;
          result <- lib (push repo) ;;
          if PushResult.success result then
            if PushResult.pushed result then
              lib (console_log ("  ✓ Pushed" ++ Js.nl)) ;;;
              returned (S pushed, skipped, failed)
            else
              lib (console_log ("  - Already up to date" ++ Js.nl)) ;;;
              returned (pushed, S skipped, failed)
          else
            console_error ("  ✗ " ++ interpolate (PushResult.error result) ++ Js.nl) ;;;
            returned (pushed, skipped, S failed))
       (0%nat, 0%nat, 0%nat) ;;
   let '(pushed, skipped, failed) := counts in
   lib (console_log (Js.nl ++ "Push complete: " ++ count pushed ++ " pushed, "
                     ++ count skipped ++ " skipped, " ++ count failed ++ " failed")) ;;;
   if (0 <? failed)%nat then process_exit 1 else returned tt)%cli.

Definition commandClean `{OS} (repos : list RepoConfig.t) : Cli unit :=
  (lib (console_log ("Cleaning " ++ count (length repos) ++ " repo(s)..." ++ Js.nl)) ;;;
   forEach repos
     (fun _ repo =>
        lib (console_log (RepoConfig.name repo ++ ": cleaning...")) ;;;
        lib (clean repo) ;;;
        lib (console_log ("  ✓ Removed" ++ Js.nl)))
     tt ;;;
   lib (console_log "Clean complete"))%cli.

(** [main] on the arguments after the script, [process.argv.slice(2)]. *)
Definition main `{OS} `{Yaml} `{Locale} (args : list string) : Cli unit :=
  let parsed := parseArgs args in
  let command := ParsedArgs.command parsed in
  let help := ParsedArgs.help parsed in
  ((if help || negb (nonempty command)
    then printUsage ;;; process_exit (if help then 0 else 1)
    else returned tt) ;;;
   try_catch
     (repos <- getRepos (ParsedArgs.configPath parsed) (ParsedArgs.repoName parsed) ;;
      if command =? "pull" then commandPull repos
      else if command =? "status" then commandStatus repos
      else if command =? "push" then commandPush repos
      else if command =? "clean" then commandClean repos
      else
        console_error ("Unknown command: " ++ command) ;;;
        printUsage ;;;
        process_exit 1)
     (fun message => console_error ("Error: " ++ message) ;;; process_exit 1))%cli.

(** *** Vocabulary of the command line *)

(** Every ending of [m] satisfies [P]. *)
Definition Ends `{OS} {A} (P : Ending A -> Prop) (m : Cli A) : Prop :=
  forall w ending w' tr, m w = (ending, w', tr) -> P ending.

(** An ending that is an exception or the exit code 1, if it is no
    return. *)
Definition fails1 {A} (ending : Ending A) : Prop :=
  match ending with
  | Returned _ | Thrown _ => True
  | Exited code => code = 1%Z
  end.

(** An ending that is the exit code 1, if it is no return. *)
Definition exits1 {A} (ending : Ending A) : Prop :=
  match ending with
  | Returned _ => True
  | Thrown _ => False
  | Exited code => code = 1%Z
  end.

(** The lines on the error stream. *)
Definition error_lines (tr : list CliEvent) : list string :=
  flat_map (fun e => match e with EvError message => [message] | Lib _ => [] end) tr.

(** The command line ends in a config option that has no value. *)
Fixpoint dangling (args : list string) : bool :=
  match args with
  | [] => false
  | arg :: rest =>
      if (arg =? "-h") || (arg =? "--help") then dangling rest
      else if (arg =? "-y") || (arg =? "--yes") then dangling rest
      else if (arg =? "-c") || (arg =? "--config") then
        match rest with
        | _ :: rest' => dangling rest'
        | [] => true
        end
      else dangling rest
  end.

(** Two results of [parseArgs] that differ in [yes] at most. *)
Definition same_but_yes (a b : ParsedArgs.t) : Prop :=
  ParsedArgs.command a = ParsedArgs.command b
  /\ ParsedArgs.repoName a = ParsedArgs.repoName b
  /\ ParsedArgs.configPath a = ParsedArgs.configPath b
  /\ ParsedArgs.help a = ParsedArgs.help b.

(** An ending that is no return: an exception or the exit code 1. *)
Definition stops1 {A} (ending : Ending A) : Prop :=
  match ending with
  | Returned _ => False
  | Thrown _ => True
  | Exited code => code = 1%Z
  end.

(** The commands that [main] knows. *)
Definition is_command (command : string) : bool :=
  (command =? "pull") || (command =? "status") || (command =? "push")
  || (command =? "clean").

(** Times shown as milliseconds. *)
Definition plain : Locale := {| toLocaleString := Js.of_Z |}.


Definition pullSummary (success failed : nat) : CliEvent :=
  Lib (EvLog (Js.nl ++ "Pull complete: " ++ count success ++ " succeeded, "
              ++ count failed ++ " failed")).

(** The last character of a string. *)
Fixpoint last_char (s : string) : option ascii :=
  match s with
  | EmptyString => None
  | String c EmptyString => Some c
  | String _ rest => last_char rest
  end.

(** *** What git prints and what [getLocalRefs] reads *)








(* ===================================================================== *)
(** ** Programs: running, returning, tracing *)
(* ===================================================================== *)

Section Programs.
Context `{OS}.

Lemma bind_inv {A B} (m : M A) (f : A -> M B) w r w' tr :
  bind m f w = (r, w', tr) ->
  (exists e, m w = (Throw e, w', tr) /\ r = Throw e)
  \/ (exists a w1 t1 t2,
        m w = (Ok a, w1, t1) /\ f a w1 = (r, w', t2) /\ tr = (t1 ++ t2)%list).
Proof.
  unfold bind. destruct (m w) as [[[a | e] w1] t1].
  - destruct (f a w1) as [[r2 w2] t2] eqn:E. intros [= <- <- <-].
    right. exists a, w1, t1, t2. auto.
  - intros [= <- <- <-]. left. exists e. auto.
Qed.

Lemma bind_Ok_inv {A B} (m : M A) (f : A -> M B) w b w' tr :
  bind m f w = (Ok b, w', tr) ->
  exists a w1 t1 t2,
    m w = (Ok a, w1, t1) /\ f a w1 = (Ok b, w', t2) /\ tr = (t1 ++ t2)%list.
Proof.
  intros E. apply bind_inv in E. destruct E as [(e & _ & [=]) | E]. exact E.
Qed.

Lemma bind_run {A B} (m : M A) (f : A -> M B) w a w1 t1 :
  m w = (Ok a, w1, t1) ->
  bind m f w = (let '(r, w2, t2) := f a w1 in (r, w2, (t1 ++ t2)%list)).
Proof. intros E. unfold bind. rewrite E. reflexivity. Qed.

Lemma exec_run command cwd silent w :
  exists r, exec command cwd silent w
            = (Ok r, snd (execSync command cwd silent w), [EvExec command cwd silent])
            /\ ExecResult.success r = succeeded (fst (execSync command cwd silent w)).
Proof.
  unfold exec. destruct (execSync command cwd silent w) as [[out | st e m] w'];
    eexists; split; reflexivity.
Qed.

(** *** Returning *)

Lemma Returns_ret {A} (a : A) : Returns (ret a).
Proof. intros w. exists a, w, []. reflexivity. Qed.

Lemma Returns_bind {A B} (m : M A) (f : A -> M B) :
  Returns m -> (forall a, Returns (f a)) -> Returns (bind m f).
Proof.
  intros Hm Hf w. destruct (Hm w) as (a & w1 & t1 & E).
  destruct (Hf a w1) as (b & w2 & t2 & E2).
  exists b, w2, (t1 ++ t2)%list. rewrite (bind_run _ _ _ _ _ _ E), E2. reflexivity.
Qed.

Lemma Returns_exec command cwd silent : Returns (exec command cwd silent).
Proof.
  intros w. destruct (exec_run command cwd silent w) as (r & E & _). eauto.
Qed.

Lemma Returns_if {A} (b : bool) (m1 m2 : M A) :
  Returns m1 -> Returns m2 -> Returns (if b then m1 else m2).
Proof. destruct b; auto. Qed.

Lemma Returns_forM {A S} (xs : list A) (body : S -> A -> M S) :
  (forall acc x, Returns (body acc x)) -> forall acc, Returns (forM xs body acc).
Proof.
  intros Hb. induction xs as [| x rest IH]; intros acc; simpl.
  - apply Returns_ret.
  - apply Returns_bind; auto.
Qed.

(** *** Tracing *)

Lemma Traces_ret {A} P (a : A) : Traces P (ret a).
Proof. intros w r w' tr [= <- <- <-]. constructor. Qed.

Lemma Traces_bind {A B} P (m : M A) (f : A -> M B) :
  Traces P m -> (forall a, Traces P (f a)) -> Traces P (bind m f).
Proof.
  intros Hm Hf w r w' tr E. apply bind_inv in E.
  destruct E as [(e & E & _) | (a & w1 & t1 & t2 & E1 & E2 & ->)].
  - exact (Hm _ _ _ _ E).
  - apply Forall_app. split; [exact (Hm _ _ _ _ E1) | exact (Hf _ _ _ _ _ E2)].
Qed.

Lemma Traces_emit (P : Event -> Prop) e : P e -> Traces P (emit e).
Proof. intros Pe w r w' tr [= <- <- <-]. constructor; auto. Qed.

Lemma Traces_exec (P : Event -> Prop) command cwd silent :
  P (EvExec command cwd silent) -> Traces P (exec command cwd silent).
Proof.
  intros Pe w r w' tr E. destruct (exec_run command cwd silent w) as (x & E' & _).
  rewrite E' in E. injection E as <- <- <-. constructor; auto.
Qed.

Lemma Traces_if {A} P (b : bool) (m1 m2 : M A) :
  Traces P m1 -> Traces P m2 -> Traces P (if b then m1 else m2).
Proof. destruct b; auto. Qed.

Lemma Traces_forM {A S} P (xs : list A) (body : S -> A -> M S) :
  (forall acc x, Traces P (body acc x)) -> forall acc, Traces P (forM xs body acc).
Proof.
  intros Hb. induction xs as [| x rest IH]; intros acc; simpl.
  - apply Traces_ret.
  - apply Traces_bind; auto.
Qed.

Lemma Traces_fs_exists P path : Traces P (fs_exists path).
Proof. intros w r w' tr [= <- <- <-]. constructor. Qed.

Lemma Traces_fs_mtime P path : Traces P (fs_mtime path).
Proof. intros w r w' tr [= <- <- <-]. constructor. Qed.

Lemma Traces_fs_read P path : Traces P (fs_read path).
Proof. intros w r w' tr [= <- <- <-]. constructor. Qed.

Lemma Traces_now P : Traces P now.
Proof. intros w r w' tr [= <- <- <-]. constructor. Qed.

Lemma Traces_fs_mkdir (P : Event -> Prop) path : P (EvMkdir path) -> Traces P (fs_mkdir path).
Proof.
  intros Pe w r w' tr. unfold fs_mkdir. destruct (mkdirSync path w).
  intros [= <- <- <-]. constructor; auto.
Qed.

Lemma Traces_fs_write (P : Event -> Prop) path content :
  P (EvWrite path content) -> Traces P (fs_write path content).
Proof.
  intros Pe w r w' tr. unfold fs_write. destruct (writeFileSync path content w).
  intros [= <- <- <-]. constructor; auto.
Qed.

Lemma Traces_fs_rm (P : Event -> Prop) path : P (EvRm path) -> Traces P (fs_rm path).
Proof.
  intros Pe w r w' tr. unfold fs_rm. destruct (rmSync path w).
  intros [= <- <- <-]. constructor; auto.
Qed.

Lemma Traces_try_finally {A} P (body : M A) (fin : M unit) :
  Traces P body -> Traces P fin -> Traces P (try_finally body fin).
Proof.
  intros Hb Hf w r w' tr. unfold try_finally.
  destruct (body w) as [[r1 w1] t1] eqn:E1.
  destruct (fin w1) as [[[u | e] w2] t2] eqn:E2; intros [= <- <- <-];
    apply Forall_app; split; eauto.
Qed.

End Programs.

(* ===================================================================== *)
(** ** Maps *)
(* ===================================================================== *)

Module JsMapFacts.

Lemma get_In k v (m : JsMap.t) : JsMap.get k m = Some v -> In (k, v) m.
Proof.
  induction m as [| [k' v'] rest IH]; simpl; [discriminate |].
  destruct (String.eqb_spec k' k) as [-> | _].
  - intros [= ->]. now left.
  - intros E. right. auto.
Qed.

Lemma In_get k v (m : JsMap.t) : JsMap.Wf m -> In (k, v) m -> JsMap.get k m = Some v.
Proof.
  unfold JsMap.Wf, JsMap.keys.
  induction m as [| [k' v'] rest IH]; simpl; [tauto |].
  intros ND [[= -> ->] | I].
  - now rewrite String.eqb_refl.
  - inversion ND as [| ? ? NI ND']; subst.
    destruct (String.eqb_spec k' k) as [-> | _]; [| auto].
    exfalso. apply NI. apply in_map_iff. now exists (k, v).
Qed.

Lemma has_keys k (m : JsMap.t) : JsMap.has k m = true <-> In k (JsMap.keys m).
Proof.
  unfold JsMap.has, JsMap.keys. split.
  - destruct (JsMap.get k m) as [v |] eqn:E; [| discriminate].
    intros _. apply in_map_iff. exists (k, v). split; [reflexivity | now apply get_In].
  - induction m as [| [k' v'] rest IH]; simpl; [tauto |].
    destruct (String.eqb_spec k' k) as [-> | N]; [reflexivity |].
    intros [E | I]; [contradiction | auto].
Qed.

Lemma has_false k (m : JsMap.t) : JsMap.has k m = false <-> JsMap.get k m = None.
Proof. unfold JsMap.has. destruct (JsMap.get k m); split; congruence. Qed.

Lemma keys_filter (p : string -> bool) (m : JsMap.t) :
  map fst (filter (fun e => p (fst e)) m) = filter p (JsMap.keys m).
Proof.
  unfold JsMap.keys. induction m as [| [k v] rest IH]; simpl; [reflexivity |].
  destruct (p k); simpl; congruence.
Qed.

End JsMapFacts.

(* ===================================================================== *)
(** ** The inventories [status] reads *)
(* ===================================================================== *)

Section Inventories.
Context `{OS}.

Lemma set_In k v (m : JsMap.t) n c :
  In (n, c) (JsMap.set k v m) -> (n = k /\ c = v) \/ In (n, c) m.
Proof.
  induction m as [| [k' v'] rest IH]; simpl.
  - intros [[= <- <-] | []]. auto.
  - destruct (String.eqb_spec k' k) as [-> | N]; simpl.
    + intros [[= <- <-] | I]; auto.
    + intros [E | I]; [auto |]. destruct (IH I); auto.
Qed.

Lemma set_keys k v (m : JsMap.t) x :
  In x (JsMap.keys (JsMap.set k v m)) -> x = k \/ In x (JsMap.keys m).
Proof.
  unfold JsMap.keys. rewrite !in_map_iff.
  intros ([n c] & <- & I). destruct (set_In k v m n c I) as [[-> _] | J]; [auto |].
  right. now exists (n, c).
Qed.

Lemma set_Inventory k v (m : JsMap.t) :
  v <> "" -> Inventory m -> Inventory (JsMap.set k v m).
Proof.
  intros NV [W NE]. split.
  - clear NE. unfold JsMap.Wf in *. induction m as [| [k' v'] rest IH]; simpl.
    + repeat constructor. simpl. tauto.
    + simpl in W. inversion W as [| ? ? NI ND]; subst.
      destruct (String.eqb_spec k' k) as [-> | N]; simpl.
      * now constructor.
      * constructor; [| auto]. intros I.
        destruct (set_keys k v rest k' I); [congruence | contradiction].
  - intros n c I. destruct (set_In k v m n c I) as [[_ ->] | J]; [exact NV |].
    exact (NE n c J).
Qed.

Lemma empty_Inventory : Inventory JsMap.empty.
Proof. split; [constructor | intros n c []]. Qed.

Lemma fold_Inventory (step : JsMap.t -> string -> JsMap.t) lines m :
  (forall m line, Inventory m -> Inventory (step m line)) ->
  Inventory m -> Inventory (fold_left step lines m).
Proof.
  intros St. revert m. induction lines as [| line rest IH]; simpl; auto.
Qed.

Lemma nonempty_neq s : nonempty s = true -> s <> "".
Proof. destruct s; [discriminate | discriminate]. Qed.

Lemma add_ref_line_Inventory kind m line :
  Inventory m -> Inventory (add_ref_line kind m line).
Proof.
  intros I. unfold add_ref_line.
  destruct (Js.split " " line) as [| name [| sha rest]]; auto.
  destruct (nonempty name && nonempty sha) eqn:E; auto.
  apply andb_true_iff in E as [_ E]. apply set_Inventory; auto using nonempty_neq.
Qed.

Lemma add_remote_head_Inventory m line :
  Inventory m -> Inventory (add_remote_head m line).
Proof.
  intros I. unfold add_remote_head.
  destruct (match_remote_head line) as [[name sha] |] eqn:E; auto.
  apply set_Inventory; auto.
  unfold match_remote_head in E.
  destruct (String.prefix _ line); [| discriminate].
  destruct (Js.split "/" _) as [| remote [| piece pieces]]; try discriminate.
  destruct (rev _) as [| sha' [| before befores]]; try discriminate.
  destruct (nonempty remote && dot_plus _ && hex_plus sha') eqn:C; [| discriminate].
  injection E as _ <-. apply andb_true_iff in C as [_ C].
  unfold hex_plus in C. apply andb_true_iff in C as [C _]. now apply nonempty_neq.
Qed.

Lemma add_remote_tag_Inventory m line :
  Inventory m -> Inventory (add_remote_tag m line).
Proof.
  intros I. unfold add_remote_tag.
  destruct (match_remote_tag line) as [[sha name] |] eqn:E; auto.
  destruct (negb (Js.endsWith "^{}" name)); auto.
  apply set_Inventory; auto.
  unfold match_remote_tag in E.
  destruct (span is_hex line) as [sha' rest].
  destruct (span Js.is_space rest) as [spaces rest'].
  destruct (nonempty sha') eqn:C; simpl in E; [| discriminate].
  destruct (nonempty spaces && String.prefix "refs/tags/" rest'
            && dot_plus (drop 10 rest')); [| discriminate].
  injection E as <- _. now apply nonempty_neq.
Qed.

(** The local inventory has distinct names and no empty commit. *)
Lemma getLocalRefs_Inventory repoPath w r w' tr :
  getLocalRefs repoPath w = (r, w', tr) -> exists m, r = Ok m /\ Inventory m.
Proof.
  unfold getLocalRefs, bind, ret.
  destruct (exec_run (for_each_ref_short "refs/heads/") (Some repoPath) true w)
    as (b & -> & _).
  destruct (exec_run (for_each_ref_short "refs/tags/") (Some repoPath) true
              (snd (execSync (for_each_ref_short "refs/heads/") (Some repoPath) true w)))
    as (t & -> & _).
  intros [= <- _ _]. eexists. split; [reflexivity |].
  apply fold_Inventory; [apply add_ref_line_Inventory |].
  apply fold_Inventory; [apply add_ref_line_Inventory | apply empty_Inventory].
Qed.

(** So has the inventory of the remote. *)
Lemma getRemoteRefs_Inventory repoPath remoteName w r w' tr :
  getRemoteRefs repoPath remoteName w = (r, w', tr) ->
  exists m, r = Ok m /\ Inventory m.
Proof.
  unfold getRemoteRefs, bind, ret.
  match goal with |- context [exec ?c ?d ?s w] =>
    destruct (exec_run c d s w) as (b & -> & _);
    match goal with |- context [exec ?c' ?d' ?s' ?w1] =>
      destruct (exec_run c' d' s' w1) as (t & -> & _)
    end
  end.
  intros [= <- _ _]. eexists. split; [reflexivity |].
  apply fold_Inventory; [apply add_remote_tag_Inventory |].
  apply fold_Inventory; [apply add_remote_head_Inventory | apply empty_Inventory].
Qed.

End Inventories.

(* ===================================================================== *)
(** ** The classifier *)
(* ===================================================================== *)

Section Classifier.
Context `{OS}.
Variable repoPath : string.

Lemma isAncestor_run a d w :
  isAncestor repoPath a d w
  = (Ok (reportsAncestor repoPath w a d),
     snd (execSync (is_ancestor_command a d) (Some repoPath) true w),
     [EvExec (is_ancestor_command a d) (Some repoPath) true]).
Proof.
  unfold isAncestor, reportsAncestor, bind, exec, ret.
  destruct (execSync _ _ _ w) as [[out | st e m] w']; reflexivity.
Qed.

Lemma getCommitCount_run from_ to w :
  getCommitCount repoPath from_ to w
  = (Ok (reportedCount repoPath w from_ to),
     snd (execSync (commit_count_command from_ to) (Some repoPath) true w),
     [EvExec (commit_count_command from_ to) (Some repoPath) true]).
Proof.
  unfold getCommitCount, reportedCount, bind, exec, ret.
  destruct (execSync _ _ _ w) as [[out | st e m] w']; reflexivity.
Qed.

Lemma Returns_compareLocal privateRefs refName localSha :
  Returns (compareLocal repoPath privateRefs refName localSha).
Proof.
  unfold compareLocal, isAncestor, getCommitCount.
  repeat first
    [ apply Returns_ret | apply Returns_exec | apply Returns_bind; [| intros ? ]
    | apply Returns_if
    | match goal with |- Returns (match ?x with _ => _ end) => destruct x end ].
Qed.

(** [compareRefs] never throws. *)
Lemma Returns_compareRefs localRefs privateRefs :
  Returns (compareRefs repoPath localRefs privateRefs).
Proof.
  unfold compareRefs. apply Returns_bind; [| intros; apply Returns_ret].
  apply Returns_forM. intros acc x.
  apply Returns_bind; [apply Returns_compareLocal | intros; apply Returns_ret].
Qed.

Lemma Traces_compareRefs (P : Event -> Prop) localRefs privateRefs :
  (forall a d, P (EvExec (is_ancestor_command a d) (Some repoPath) true)) ->
  (forall a d, P (EvExec (commit_count_command a d) (Some repoPath) true)) ->
  Traces P (compareRefs repoPath localRefs privateRefs).
Proof.
  intros Pa Pc. unfold compareRefs.
  apply Traces_bind; [| intros; apply Traces_ret].
  apply Traces_forM. intros acc x.
  apply Traces_bind; [| intros; apply Traces_ret].
  unfold compareLocal, isAncestor, getCommitCount.
  repeat first
    [ apply Traces_ret | apply Traces_exec; auto | apply Traces_bind; [| intros ? ]
    | apply Traces_if
    | match goal with |- Traces _ (match ?x with _ => _ end) => destruct x end ].
Qed.

Section Pure.
Hypothesis pure : QueriesPure repoPath.

Lemma compareLocal_pure privateRefs refName localSha w :
  exists tr,
    compareLocal repoPath privateRefs refName localSha w
    = (Ok (recordOf repoPath w privateRefs refName localSha), w, tr).
Proof.
  unfold compareLocal, recordOf, verdict.
  destruct (Js.or_null (JsMap.get refName privateRefs)) as [p |]; [| eexists; reflexivity].
  destruct (localSha =? p); [eexists; reflexivity |].
  unfold bind.
  rewrite isAncestor_run, (proj1 (pure localSha p w)).
  rewrite isAncestor_run, (proj1 (pure p localSha w)).
  destruct (reportsAncestor repoPath w p localSha).
  - rewrite getCommitCount_run, (proj2 (pure p localSha w)). eexists; reflexivity.
  - destruct (reportsAncestor repoPath w localSha p).
    + rewrite getCommitCount_run, (proj2 (pure localSha p w)). eexists; reflexivity.
    + eexists; reflexivity.
Qed.

Lemma first_loop_pure privateRefs localRefs acc w :
  exists tr,
    forM localRefs
      (fun acc entry =>
         r <- compareLocal repoPath privateRefs (fst entry) (snd entry) ;;
         ret (push_to (fst entry) r acc)) acc w
    = (Ok (fold_left (fun acc e => push_to (fst e) (snd e) acc)
             (map (fun e => (fst e, recordOf repoPath w privateRefs (fst e) (snd e)))
                localRefs) acc), w, tr).
Proof.
  revert acc. induction localRefs as [| [n l] rest IH]; intros acc; simpl.
  - eexists; reflexivity.
  - destruct (compareLocal_pure privateRefs n l w) as (t1 & E1).
    destruct (IH (push_to n (recordOf repoPath w privateRefs n l) acc)) as (t2 & E2).
    unfold bind at 1. unfold bind at 1. rewrite E1. simpl. rewrite E2.
    eexists; reflexivity.
Qed.

End Pure.

End Classifier.

Section Emissions.
Context `{OS}.
Variable repoPath : string.

Lemma route_app es1 es2 : route (es1 ++ es2) = append (route es1) (route es2).
Proof.
  unfold route, append. simpl. now rewrite !filter_app, !map_app.
Qed.

Lemma append_assoc a b c : append (append a b) c = append a (append b c).
Proof. unfold append. simpl. now rewrite <- !app_assoc. Qed.

Lemma append_empty_l a : append Compared.empty a = a.
Proof. now destruct a. Qed.

Lemma push_to_route n r acc : push_to n r acc = append acc (route [(n, r)]).
Proof.
  unfold push_to, route, append, is_tag. simpl.
  destruct (fst (type_and_name n) =? "tags"); simpl; now rewrite ?app_nil_r.
Qed.

Lemma fold_push_route es acc :
  fold_left (fun acc e => push_to (fst e) (snd e) acc) es acc = append acc (route es).
Proof.
  revert acc. induction es as [| [n r] rest IH]; intros acc; simpl.
  - destruct acc. unfold append, route. simpl. now rewrite !app_nil_r.
  - rewrite IH, push_to_route, append_assoc, <- route_app. reflexivity.
Qed.

Lemma second_loop_route localRefs privateRefs acc :
  fold_left (addMissing localRefs) privateRefs acc
  = append acc
      (route (map missingOf
                (filter (fun e => negb (JsMap.has (fst e) localRefs)) privateRefs))).
Proof.
  revert acc. induction privateRefs as [| [n p] rest IH]; intros acc; simpl.
  - destruct acc. unfold append, route. simpl. now rewrite !app_nil_r.
  - rewrite IH. destruct (JsMap.has n localRefs); simpl; [reflexivity |].
    rewrite push_to_route, append_assoc, <- route_app. reflexivity.
Qed.

Lemma route_length es :
  (length (Compared.branches (route es)) + length (Compared.tags (route es)))%nat
  = length es.
Proof.
  unfold route. simpl. rewrite !length_map.
  induction es as [| [n r] rest IH]; simpl; [reflexivity |].
  destruct (is_tag n); simpl; lia.
Qed.

Lemma emissions_names w localRefs privateRefs :
  map fst (emissions repoPath w localRefs privateRefs)
  = emitted_names localRefs privateRefs.
Proof.
  unfold emissions, emitted_names. rewrite map_app, !map_map. f_equal.
  rewrite <- (JsMapFacts.keys_filter (fun k => negb (JsMap.has k localRefs))).
  reflexivity.
Qed.

(** With pure queries, [compareRefs] emits [emissions]. *)
Lemma compareRefs_emitted localRefs privateRefs w :
  QueriesPure repoPath ->
  Emitted repoPath localRefs privateRefs w
    (emissions repoPath w localRefs privateRefs).
Proof.
  intros pure. split; [apply emissions_names |].
  unfold compareRefs.
  destruct (first_loop_pure repoPath pure privateRefs localRefs Compared.empty w)
    as (tr & E).
  exists tr. rewrite (bind_run _ _ _ _ _ _ E). unfold ret.
  rewrite second_loop_route, fold_push_route, append_empty_l, <- route_app.
  unfold emissions. now rewrite app_nil_r.
Qed.

Lemma emitted_names_NoDup localRefs privateRefs :
  JsMap.Wf localRefs -> JsMap.Wf privateRefs ->
  NoDup (emitted_names localRefs privateRefs).
Proof.
  unfold JsMap.Wf, emitted_names. intros NL NP.
  apply NoDup_app; [exact NL | now apply NoDup_filter |].
  intros k Ik Ik'. apply filter_In in Ik' as [_ Hk].
  apply JsMapFacts.has_keys in Ik. rewrite Ik in Hk. discriminate.
Qed.

Lemma emitted_names_spec localRefs privateRefs n :
  In n (emitted_names localRefs privateRefs)
  <-> In n (JsMap.keys localRefs) \/ In n (JsMap.keys privateRefs).
Proof.
  unfold emitted_names. rewrite in_app_iff, filter_In. split.
  - tauto.
  - intros [I | I]; [tauto |].
    destruct (JsMap.has n localRefs) eqn:E.
    + left. now apply JsMapFacts.has_keys.
    + right. split; [exact I | reflexivity].
Qed.

(** Where a pair of [emissions] comes from. *)
Lemma emissions_In w localRefs privateRefs n r :
  JsMap.Wf localRefs -> JsMap.Wf privateRefs ->
  In (n, r) (emissions repoPath w localRefs privateRefs) ->
  (exists l, JsMap.get n localRefs = Some l
             /\ r = recordOf repoPath w privateRefs n l)
  \/ (exists p, JsMap.get n localRefs = None /\ JsMap.get n privateRefs = Some p
                /\ r = mkRef n None (Some p) missing None None).
Proof.
  intros WL WP. unfold emissions. rewrite in_app_iff, !in_map_iff.
  intros [([n' l] & [= -> <-] & I) | ([n' p] & [= -> <-] & I)].
  - left. exists l. split; [now apply JsMapFacts.In_get | reflexivity].
  - right. apply filter_In in I as [I Hn]. simpl in Hn.
    exists p. repeat split.
    + apply JsMapFacts.has_false. now destruct (JsMap.has n localRefs).
    + now apply JsMapFacts.In_get.
Qed.

End Emissions.

(* ===================================================================== *)
(** ** Printing and reading back a count *)
(* ===================================================================== *)

Module JsFacts.

Lemma digits_prefix_uint d :
  Js.digits_prefix (NilEmpty.string_of_uint d) = NilEmpty.string_of_uint d.
Proof. induction d; simpl; congruence. Qed.

Lemma trimEnd_line s :
  Js.trimStart s = s -> Js.digits_prefix s = s -> Js.trimEnd (s ++ Js.nl) = s.
Proof.
  intros _. induction s as [| c rest IH]; simpl; [reflexivity |].
  destruct (Js.is_digit c) eqn:D; [| discriminate]. intros [= E].
  rewrite (IH E). destruct rest; [| reflexivity].
  assert (Js.is_space c = false) as ->; [| reflexivity].
  unfold Js.is_digit in D. unfold Js.is_space.
  apply andb_true_iff in D as [D1 D2].
  apply Nat.leb_le in D1. apply Nat.leb_le in D2.
  apply orb_false_iff. split.
  - apply andb_false_iff. right. apply Nat.leb_gt. lia.
  - apply Nat.eqb_neq. lia.
Qed.

Lemma to_uint_nonnil n : N.to_uint n <> Decimal.Nil.
Proof.
  destruct n as [| p]; [discriminate |]. apply DecimalPos.Unsigned.to_uint_nonnil.
Qed.

Lemma trimStart_uint d : Js.trimStart (NilEmpty.string_of_uint d) = NilEmpty.string_of_uint d.
Proof. destruct d; reflexivity. Qed.

Lemma digits_value_of_N n : Js.digits_value (Js.of_N n) = Some (Z.of_N n).
Proof.
  unfold Js.digits_value, Js.of_N. rewrite digits_prefix_uint.
  destruct (NilEmpty.string_of_uint (N.to_uint n)) eqn:E.
  - exfalso. apply (to_uint_nonnil n). now destruct (N.to_uint n).
  - rewrite <- E, NilEmpty.usu. simpl. now rewrite DecimalN.Unsigned.of_to.
Qed.

Lemma parseInt10_of_N n : Js.parseInt10 (Js.of_N n) = Some (Z.of_N n).
Proof.
  unfold Js.parseInt10. rewrite <- digits_value_of_N. unfold Js.of_N.
  rewrite trimStart_uint. destruct (N.to_uint n); reflexivity.
Qed.

(** A count printed on a line reads back as itself. *)
Lemma count_roundtrip (n : nat) :
  Js.or_zero (Js.parseInt10 (Js.trim (Js.of_Z (Z.of_nat n) ++ Js.nl))) = Z.of_nat n.
Proof.
  assert (Js.of_Z (Z.of_nat n) = Js.of_N (N.of_nat n)) as ->.
  { destruct n; [reflexivity |]. simpl. now rewrite <- positive_nat_N, SuccNat2Pos.id_succ. }
  unfold Js.trim.
  assert (Js.trimStart (Js.of_N (N.of_nat n) ++ Js.nl) = Js.of_N (N.of_nat n) ++ Js.nl) as ->.
  { unfold Js.of_N. pose proof (to_uint_nonnil (N.of_nat n)) as NN.
    destruct (N.to_uint (N.of_nat n)); try reflexivity. contradiction. }
  rewrite trimEnd_line.
  - rewrite parseInt10_of_N. simpl. now rewrite nat_N_Z.
  - apply trimStart_uint.
  - apply digits_prefix_uint.
Qed.

End JsFacts.

(* ===================================================================== *)
(** ** Properties of the classifier *)
(* ===================================================================== *)

Lemma or_null_Some c : c <> "" -> Js.or_null (Some c) = Some c.
Proof. destruct c; [contradiction | reflexivity]. Qed.

Lemma or_null_inv x p : Js.or_null x = Some p -> x = Some p /\ p <> "".
Proof.
  destruct x as [[| c s] |]; simpl; try discriminate.
  intros [= <-]. split; [reflexivity | discriminate].
Qed.

Lemma fails_reports_false `{OS} repoPath w a d :
  ancestryQueryFails repoPath w a d -> reportsAncestor repoPath w a d = false.
Proof.
  intros (st & e & m & E & _). unfold reportsAncestor. now rewrite E.
Qed.

Lemma Scripted_pure script repoPath : QueriesPure (H := Scripted.os script) repoPath.
Proof. intros a b w. split; reflexivity. Qed.

Lemma Demo_Wf_local : JsMap.Wf Demo.localRefs.
Proof.
  unfold JsMap.Wf. simpl.
  repeat (constructor; [simpl; intuition discriminate |]). constructor.
Defined.

Lemma Demo_Wf_private : JsMap.Wf Demo.privateRefs.
Proof.
  unfold JsMap.Wf. simpl.
  repeat (constructor; [simpl; intuition discriminate |]). constructor.
Defined.

(** C1 (amended).  With distinct keys in each inventory and pure oracle
    queries, [compareRefs] returns one record per qualified name of either
    inventory, each name once.  The status of the record of a name is [new]
    when it is local and the private inventory lacks it or maps it to the
    empty string; [same] when both inventories map it to the same non-empty
    commit; for different commits, the private one not empty, [ahead] when
    the private commit is reported an ancestor of the local one, [behind]
    when it is not and the local commit is reported an ancestor of the
    private one, [diverged] when neither is reported; and [missing] when
    only the private inventory has the name. *)
Theorem compareRefs_one_record_per_name `{OS} (repoPath : string)
  (localRefs privateRefs : JsMap.t) (w : World) :
  JsMap.Wf localRefs -> JsMap.Wf privateRefs -> QueriesPure repoPath ->
  exists es,
    Emitted repoPath localRefs privateRefs w es
    /\ NoDup (map fst es)
    /\ (forall n, In n (map fst es)
                  <-> In n (JsMap.keys localRefs) \/ In n (JsMap.keys privateRefs))
    /\ (length (Compared.branches (route es)) + length (Compared.tags (route es))
        = length es)%nat
    /\ forall n r, In (n, r) es ->
         let l := JsMap.get n localRefs in
         let p := JsMap.get n privateRefs in
         let st := RefComparison.status r in
         (l <> None -> p = None \/ p = Some "" -> st = new)
         /\ (forall c, l = Some c -> p = Some c -> c <> "" -> st = same)
         /\ (forall lc pc, l = Some lc -> p = Some pc -> pc <> "" -> lc <> pc ->
               reportsAncestor repoPath w pc lc = true -> st = ahead)
         /\ (forall lc pc, l = Some lc -> p = Some pc -> pc <> "" -> lc <> pc ->
               reportsAncestor repoPath w pc lc = false ->
               reportsAncestor repoPath w lc pc = true -> st = behind)
         /\ (forall lc pc, l = Some lc -> p = Some pc -> pc <> "" -> lc <> pc ->
               reportsAncestor repoPath w pc lc = false ->
               reportsAncestor repoPath w lc pc = false -> st = diverged)
         /\ (l = None -> p <> None -> st = missing).
Proof.
  intros WL WP pure. exists (emissions repoPath w localRefs privateRefs).
  split; [now apply compareRefs_emitted |].
  rewrite emissions_names.
  split; [now apply emitted_names_NoDup |].
  split; [apply emitted_names_spec |].
  split; [apply route_length |].
  intros n r I.
  destruct (emissions_In repoPath w localRefs privateRefs n r WL WP I)
    as [(l & EL & ->) | (p & EL & EP & ->)]; cbv zeta; rewrite EL.
  - unfold recordOf, verdict. repeat split.
    + intros _ [-> | ->]; reflexivity.
    + intros c [= ->] -> N. rewrite (or_null_Some c N), String.eqb_refl. reflexivity.
    + intros lc pc [= ->] -> N D A. rewrite (or_null_Some pc N).
      apply String.eqb_neq in D. rewrite D, A. reflexivity.
    + intros lc pc [= ->] -> N D A B. rewrite (or_null_Some pc N).
      apply String.eqb_neq in D. rewrite D, A, B. reflexivity.
    + intros lc pc [= ->] -> N D A B. rewrite (or_null_Some pc N).
      apply String.eqb_neq in D. rewrite D, A, B. reflexivity.
    + discriminate.
  - repeat split; try discriminate; try reflexivity.
    intros N. contradiction.
Qed.

Lemma compareRefs_one_record_per_name_witness :
  exists es,
    Emitted (H := Demo.git) "/cache/demo.git" Demo.localRefs Demo.privateRefs Demo.pulled es
    /\ NoDup (map fst es).
Proof.
  destruct (compareRefs_one_record_per_name (H := Demo.git) "/cache/demo.git"
              Demo.localRefs Demo.privateRefs Demo.pulled
              Demo_Wf_local Demo_Wf_private (Scripted_pure _ _))
    as (es & E & ND & _).
  exists es. split; assumption.
Defined.

(** C1, as stated, fails.  Both inventories map [heads/main] to the same
    commit, the empty string, and the record is [new], not [same].  And
    where the commits differ and the local one is reported an ancestor of
    the private one, the record is [ahead], not [behind], when the private
    one is reported an ancestor too. *)
Lemma compareRefs_empty_commit_is_new :
  (JsMap.get "heads/main" [("heads/main", "")] = Some ""
   /\ compareRefs (H := Demo.git) "/cache/demo.git"
        [("heads/main", "")] [("heads/main", "")] Demo.pulled
      = (Ok {| Compared.branches :=
                 [{| RefComparison.name := Some "main";
                     RefComparison.localRef := Some "";
                     RefComparison.privateRef := None;
                     RefComparison.status := new;
                     RefComparison.aheadCount := None;
                     RefComparison.behindCount := None |}];
               Compared.tags := [] |},
         Demo.pulled, []))
  /\ (reportsAncestor (H := Demo.agreeable) "/cache/demo.git" Demo.pulled "aaa" "bbb"
      = true
      /\ fst (fst (compareRefs (H := Demo.agreeable) "/cache/demo.git"
                     [("tags/v1", "aaa")] [("tags/v1", "bbb")] Demo.pulled))
         = Ok {| Compared.branches := [];
                 Compared.tags :=
                   [{| RefComparison.name := Some "v1";
                       RefComparison.localRef := Some "aaa";
                       RefComparison.privateRef := Some "bbb";
                       RefComparison.status := ahead;
                       RefComparison.aheadCount := Some 0%Z;
                       RefComparison.behindCount := None |}] |}).
Proof. repeat split. Qed.

(** C3 (amended).  [compareRefs] has no failure of its own: it returns
    normally in every world, and an ancestry query that fails outright
    counts as the answer no.  For different commits, the private one not
    empty, the record is [diverged] when one query fails outright and the
    other fails or answers no. *)
Theorem failed_ancestry_query_is_diverged `{OS} (repoPath : string)
  (localRefs privateRefs : JsMap.t) (w : World) :
  JsMap.Wf localRefs -> JsMap.Wf privateRefs -> QueriesPure repoPath ->
  Returns (compareRefs repoPath localRefs privateRefs)
  /\ exists es,
    Emitted repoPath localRefs privateRefs w es
    /\ forall n r l p,
         In (n, r) es ->
         JsMap.get n localRefs = Some l -> JsMap.get n privateRefs = Some p ->
         p <> "" -> l <> p ->
         (ancestryQueryFails repoPath w p l
          /\ (ancestryQueryFails repoPath w l p
              \/ reportsAncestor repoPath w l p = false))
         \/ (ancestryQueryFails repoPath w l p
             /\ reportsAncestor repoPath w p l = false) ->
         RefComparison.status r = diverged
         /\ RefComparison.localRef r = Some l
         /\ RefComparison.privateRef r = Some p.
Proof.
  intros WL WP pure. split; [apply Returns_compareRefs |].
  exists (emissions repoPath w localRefs privateRefs).
  split; [now apply compareRefs_emitted |].
  intros n r l p I EL EP N D F.
  assert (reportsAncestor repoPath w p l = false
          /\ reportsAncestor repoPath w l p = false) as [A B].
  { destruct F as [[F1 [F2 | F2]] | [F1 F2]];
      auto using fails_reports_false. }
  destruct (emissions_In repoPath w localRefs privateRefs n r WL WP I)
    as [(l' & EL' & ->) | (p' & EL' & _)]; [| congruence].
  assert (l' = l) as -> by congruence.
  unfold recordOf, verdict. rewrite EP, (or_null_Some p N).
  apply String.eqb_neq in D. rewrite D, A, B. auto.
Qed.

Lemma failed_ancestry_query_is_diverged_witness :
  exists es,
    Emitted (H := Demo.broken) "/cache/demo.git"
      [("heads/main", "c3")] [("heads/main", "c1")] Demo.pulled es
    /\ forall r, In ("heads/main", r) es -> RefComparison.status r = diverged.
Proof.
  assert (JsMap.Wf [("heads/main", "c3")]) as W3
    by (repeat constructor; simpl; tauto).
  assert (JsMap.Wf [("heads/main", "c1")]) as W1
    by (repeat constructor; simpl; tauto).
  destruct (failed_ancestry_query_is_diverged (H := Demo.broken) "/cache/demo.git"
              [("heads/main", "c3")] [("heads/main", "c1")] Demo.pulled
              W3 W1 (Scripted_pure _ _))
    as (_ & es & E & S).
  exists es. split; [exact E |]. intros r I.
  apply (S "heads/main" r "c3" "c1" I eq_refl eq_refl); try discriminate.
  left. split.
  - exists (Some 128%Z), (Some "fatal: Not a valid commit name"), "Command failed".
    split; [reflexivity | discriminate].
  - right. reflexivity.
Defined.

(** C3, as stated, fails: both ancestry queries fail outright (exit status
    128) and [compareRefs] returns normally with the pair [diverged]. *)
Lemma compareRefs_fatal_query_diverged :
  ancestryQueryFails (H := Demo.broken) "/cache/demo.git" Demo.pulled "c1" "c3"
  /\ ancestryQueryFails (H := Demo.broken) "/cache/demo.git" Demo.pulled "c3" "c1"
  /\ compareRefs (H := Demo.broken) "/cache/demo.git"
       [("heads/main", "c3")] [("heads/main", "c1")] Demo.pulled
     = (Ok {| Compared.branches :=
                [{| RefComparison.name := Some "main";
                    RefComparison.localRef := Some "c3";
                    RefComparison.privateRef := Some "c1";
                    RefComparison.status := diverged;
                    RefComparison.aheadCount := None;
                    RefComparison.behindCount := None |}];
              Compared.tags := [] |},
        Demo.pulled,
        [EvExec (is_ancestor_command "c3" "c1") (Some "/cache/demo.git") true;
         EvExec (is_ancestor_command "c1" "c3") (Some "/cache/demo.git") true]).
Proof.
  repeat split;
    exists (Some 128%Z), (Some "fatal: Not a valid commit name"), "Command failed";
    split; [reflexivity | discriminate | reflexivity | discriminate].
Qed.

(** C9 (amended).  Take a record [ahead] with count [N] for a local commit
    that is not empty and is not itself reported an ancestor of the private
    commit.  With the two inventories swapped, the record of the same name
    is [behind] with [behindCount] the same [N]. *)
Theorem swapped_ahead_is_behind `{OS} (repoPath : string)
  (localRefs privateRefs : JsMap.t) (w : World) :
  JsMap.Wf localRefs -> JsMap.Wf privateRefs -> QueriesPure repoPath ->
  exists es es',
    Emitted repoPath localRefs privateRefs w es
    /\ Emitted repoPath privateRefs localRefs w es'
    /\ forall n r l p N,
         In (n, r) es ->
         RefComparison.status r = ahead ->
         RefComparison.localRef r = Some l ->
         RefComparison.privateRef r = Some p ->
         RefComparison.aheadCount r = Some N ->
         l <> "" ->
         reportsAncestor repoPath w l p = false ->
         exists r',
           In (n, r') es'
           /\ RefComparison.status r' = behind
           /\ RefComparison.behindCount r' = Some N
           /\ RefComparison.localRef r' = Some p
           /\ RefComparison.privateRef r' = Some l.
Proof.
  intros WL WP pure.
  exists (emissions repoPath w localRefs privateRefs),
         (emissions repoPath w privateRefs localRefs).
  split; [now apply compareRefs_emitted |].
  split; [now apply compareRefs_emitted |].
  intros n r l p N I S RL RP RN NE B.
  destruct (emissions_In repoPath w localRefs privateRefs n r WL WP I)
    as [(l' & EL & ->) | (p' & _ & _ & ->)]; [| discriminate].
  unfold recordOf in S, RL, RP, RN.
  destruct (Js.or_null (JsMap.get n privateRefs)) as [p' |] eqn:EP; [| discriminate].
  apply or_null_inv in EP as [EP NP].
  destruct (l' =? p') eqn:D; [discriminate |].
  unfold verdict in S, RL, RP, RN.
  destruct (reportsAncestor repoPath w p' l') eqn:A.
  2: { destruct (reportsAncestor repoPath w l' p'); discriminate. }
  simpl in RL, RP, RN. injection RL as ->. injection RP as ->. injection RN as <-.
  exists (recordOf repoPath w localRefs n p). split.
  - unfold emissions. apply in_or_app. left. apply in_map_iff.
    exists (n, p). split; [reflexivity | now apply JsMapFacts.get_In].
  - unfold recordOf, verdict. rewrite EL, (or_null_Some l NE).
    rewrite String.eqb_sym, D, B, A. auto.
Qed.

Lemma swapped_ahead_is_behind_witness :
  exists es es',
    Emitted (H := Demo.git) "/cache/demo.git" Demo.localRefs Demo.privateRefs Demo.pulled es
    /\ Emitted (H := Demo.git) "/cache/demo.git" Demo.privateRefs Demo.localRefs
         Demo.pulled es'
    /\ forall r,
         In ("heads/main", r) es ->
         RefComparison.status r = ahead ->
         RefComparison.localRef r = Some "c3" ->
         RefComparison.privateRef r = Some "c1" ->
         RefComparison.aheadCount r = Some 2%Z ->
         exists r',
           In ("heads/main", r') es'
           /\ RefComparison.status r' = behind
           /\ RefComparison.behindCount r' = Some 2%Z.
Proof.
  destruct (swapped_ahead_is_behind (H := Demo.git) "/cache/demo.git"
              Demo.localRefs Demo.privateRefs Demo.pulled
              Demo_Wf_local Demo_Wf_private (Scripted_pure _ _))
    as (es & es' & E & E' & S).
  exists es, es'. split; [exact E |]. split; [exact E' |].
  intros r I St L P N.
  destruct (S "heads/main" r "c3" "c1" 2%Z I St L P N) as (r' & I' & S' & N' & _).
  - discriminate.
  - reflexivity.
  - exists r'. auto.
Defined.

(** C9, as stated, fails: each of two different objects is reported an
    ancestor of the other; the pair is [ahead] with count 0, and with the
    commits swapped it is [ahead] again, not [behind]. *)
Lemma swapped_ahead_stays_ahead :
  compareRefs (H := Demo.agreeable) "/cache/demo.git"
    [("tags/v1", "aaa")] [("tags/v1", "bbb")] Demo.pulled
  = (Ok {| Compared.branches := [];
           Compared.tags :=
             [mkRef "tags/v1" (Some "aaa") (Some "bbb") ahead (Some 0%Z) None] |},
     Demo.pulled,
     [EvExec (is_ancestor_command "aaa" "bbb") (Some "/cache/demo.git") true;
      EvExec (is_ancestor_command "bbb" "aaa") (Some "/cache/demo.git") true;
      EvExec (commit_count_command "bbb" "aaa") (Some "/cache/demo.git") true])
  /\ compareRefs (H := Demo.agreeable) "/cache/demo.git"
       [("tags/v1", "bbb")] [("tags/v1", "aaa")] Demo.pulled
     = (Ok {| Compared.branches := [];
              Compared.tags :=
                [mkRef "tags/v1" (Some "bbb") (Some "aaa") ahead (Some 0%Z) None] |},
        Demo.pulled,
        [EvExec (is_ancestor_command "bbb" "aaa") (Some "/cache/demo.git") true;
         EvExec (is_ancestor_command "aaa" "bbb") (Some "/cache/demo.git") true;
         EvExec (commit_count_command "aaa" "bbb") (Some "/cache/demo.git") true]).
Proof. split; reflexivity. Qed.

(* ===================================================================== *)
(** ** Counts *)
(* ===================================================================== *)

Module GraphFacts.

Lemma reaches_refl fuel g c : Graph.reaches fuel g c c = true.
Proof. destruct fuel; simpl; now rewrite String.eqb_refl. Qed.

Lemma is_ancestor_refl g c : Graph.is_ancestor g c c = true.
Proof. apply reaches_refl. Qed.

Lemma reaches_sound fuel g a d : Graph.reaches fuel g a d = true -> Graph.Reach g a d.
Proof.
  revert d. induction fuel as [| fuel IH]; intros d; simpl;
    rewrite orb_true_iff; intros [E | E];
    try (apply String.eqb_eq in E as ->; constructor); try discriminate.
  apply existsb_exists in E as (p & I & R).
  eapply Graph.Reach_parent; eauto.
Qed.

Lemma reaches_more fuel fuel' g a d :
  (fuel <= fuel')%nat -> Graph.reaches fuel g a d = true ->
  Graph.reaches fuel' g a d = true.
Proof.
  revert fuel' d. induction fuel as [| fuel IH]; intros fuel' d L; simpl;
    rewrite orb_true_iff; intros [E | E]; try discriminate;
    try (apply String.eqb_eq in E as ->; apply reaches_refl).
  destruct fuel' as [| fuel']; [lia |]. simpl. apply orb_true_iff. right.
  apply existsb_exists in E as (p & I & R). apply existsb_exists.
  exists p. split; [exact I |]. apply IH; [lia | exact R].
Qed.

Lemma path_reaches g d l a :
  Graph.path g d l a -> Graph.reaches (length l) g a d = true.
Proof.
  revert d. induction l as [| x l IH]; intros d; simpl.
  - intros ->. now rewrite String.eqb_refl.
  - intros [I P]. apply orb_true_iff. right. apply existsb_exists.
    exists x. auto.
Qed.

Lemma path_suffix g x l1 d l2 a :
  Graph.path g x (l1 ++ d :: l2) a -> Graph.path g d l2 a.
Proof.
  revert x. induction l1 as [| y l1 IH]; intros x; simpl; intros [_ P]; eauto.
Qed.

(** An ancestor is reached along a path that visits no commit twice. *)
Lemma Reach_simple_path g a d :
  Graph.Reach g a d -> exists l, Graph.path g d l a /\ NoDup (d :: l).
Proof.
  induction 1 as [| d p I R (l & P & ND)].
  - exists []. split; [reflexivity | repeat constructor; simpl; tauto].
  - destruct (in_dec string_dec d (p :: l)) as [J | J].
    + destruct J as [<- | J]; [exists l; auto |].
      apply in_split in J as (l1 & l2 & ->).
      exists l2. split; [exact (path_suffix _ _ _ _ _ _ P) |].
      apply NoDup_cons_iff in ND as [_ ND]. exact (NoDup_app_remove_l _ _ ND).
    + exists (p :: l). split; [split; assumption | now constructor].
Qed.

Lemma parent_of_commit g d x : In x (Graph.parents g d) -> In d (Graph.commits g).
Proof.
  unfold Graph.parents, Graph.commits.
  destruct (find (fun e => fst e =? d) g) as [e |] eqn:F; [| intros []].
  intros _. apply find_some in F as [I E]. apply String.eqb_eq in E as <-.
  now apply in_map.
Qed.

Lemma sources_commits g d l a :
  Graph.path g d l a -> incl (Graph.sources d l) (Graph.commits g).
Proof.
  revert d. induction l as [| x l IH]; intros d; simpl; [intros _ y [] |].
  intros [I P] y [<- | J]; [exact (parent_of_commit _ _ _ I) | exact (IH _ P _ J)].
Qed.

Lemma sources_In d l y : In y (Graph.sources d l) -> In y (d :: l).
Proof.
  revert d. induction l as [| x l IH]; intros d; simpl; [tauto |].
  intros [E | J]; [auto | right; exact (IH _ J)].
Qed.

Lemma sources_NoDup d l : NoDup (d :: l) -> NoDup (Graph.sources d l).
Proof.
  revert d. induction l as [| x l IH]; intros d ND; simpl; [constructor |].
  apply NoDup_cons_iff in ND as [NI ND]. constructor; [| auto].
  intros J. apply NI. exact (sources_In _ _ _ J).
Qed.

Lemma sources_length d l : length (Graph.sources d l) = length l.
Proof. revert d. induction l as [| x l IH]; intros d; simpl; auto. Qed.

(** [is_ancestor] decides ancestry in the graph. *)
Lemma is_ancestor_Reach g a d : Graph.is_ancestor g a d = true <-> Graph.Reach g a d.
Proof.
  split; [apply reaches_sound |].
  intros R. destruct (Reach_simple_path g a d R) as (l & P & ND).
  apply (reaches_more (length l)); [| now apply path_reaches].
  rewrite <- (sources_length d l), <- (length_map fst g).
  apply NoDup_incl_length; [now apply sources_NoDup | exact (sources_commits _ _ _ _ P)].
Qed.

(** [exclusive] lists, each once, the commits of the graph that are [to] or
    its ancestors and neither [from_] nor its ancestors. *)
Lemma exclusive_spec g from_ to c :
  In c (Graph.exclusive g from_ to)
  <-> In c (Graph.commits g) /\ Graph.Reach g c to /\ ~ Graph.Reach g c from_.
Proof.
  unfold Graph.exclusive. rewrite filter_In, nodup_In, andb_true_iff, negb_true_iff.
  rewrite <- !is_ancestor_Reach.
  destruct (Graph.is_ancestor g c from_); intuition congruence.
Qed.

Lemma exclusive_NoDup g from_ to : NoDup (Graph.exclusive g from_ to).
Proof. apply NoDup_filter, NoDup_nodup. Qed.

(** From a commit of the graph, a commit that does not reach it is at least
    one commit behind. *)
Lemma strict_count_positive g lower higher :
  In higher (Graph.commits g) ->
  Graph.is_ancestor g higher lower = false ->
  (1 <= Graph.count_exclusive g lower higher)%Z.
Proof.
  intros I NA. unfold Graph.count_exclusive.
  assert (In higher (Graph.exclusive g lower higher)) as J.
  { apply filter_In. split; [now apply nodup_In |].
    now rewrite is_ancestor_refl, NA. }
  destruct (Graph.exclusive g lower higher); [contradiction | simpl; lia].
Qed.

End GraphFacts.

Lemma reportedCount_correct `{OS} repoPath g w a b :
  AnswersCorrectly repoPath g ->
  In a (Graph.commits g) -> In b (Graph.commits g) ->
  reportedCount repoPath w a b = Graph.count_exclusive g a b.
Proof.
  intros AC Ia Ib. unfold reportedCount.
  rewrite (proj2 (AC a b w Ia Ib)). apply JsFacts.count_roundtrip.
Qed.

(** C5.  Let the two oracle queries be pure and answer correctly about a
    commit graph that holds the commits of both inventories.  Then
    [aheadCount] is set only on [ahead] records and [behindCount] only on
    [behind] records; on an [ahead] record the private commit is an
    ancestor of the local one and [aheadCount] is the number of commits
    reachable from the local commit and not from the private one
    ([GraphFacts.exclusive_spec]); on a [behind] record it is the other way
    round; and for a strict ancestor the count is at least 1. *)
Theorem counts_are_exclusive_counts `{OS} (repoPath : string) (g : Graph.t)
  (localRefs privateRefs : JsMap.t) (w : World) :
  JsMap.Wf localRefs -> JsMap.Wf privateRefs -> QueriesPure repoPath ->
  AnswersCorrectly repoPath g -> CommitsIn g localRefs -> CommitsIn g privateRefs ->
  exists es,
    Emitted repoPath localRefs privateRefs w es
    /\ forall n r, In (n, r) es ->
         (RefComparison.aheadCount r <> None -> RefComparison.status r = ahead)
         /\ (RefComparison.behindCount r <> None -> RefComparison.status r = behind)
         /\ (RefComparison.status r = ahead ->
             exists l p,
               JsMap.get n localRefs = Some l /\ JsMap.get n privateRefs = Some p
               /\ l <> p
               /\ Graph.Reach g p l
               /\ RefComparison.aheadCount r = Some (Graph.count_exclusive g p l)
               /\ (~ Graph.Reach g l p -> (1 <= Graph.count_exclusive g p l)%Z))
         /\ (RefComparison.status r = behind ->
             exists l p,
               JsMap.get n localRefs = Some l /\ JsMap.get n privateRefs = Some p
               /\ l <> p
               /\ Graph.Reach g l p
               /\ ~ Graph.Reach g p l
               /\ RefComparison.behindCount r = Some (Graph.count_exclusive g l p)
               /\ (1 <= Graph.count_exclusive g l p)%Z).
Proof.
  intros WL WP pure AC CL CP. exists (emissions repoPath w localRefs privateRefs).
  split; [now apply compareRefs_emitted |].
  intros n r I.
  destruct (emissions_In repoPath w localRefs privateRefs n r WL WP I)
    as [(l & EL & ->) | (p & _ & _ & ->)].
  2: { simpl. repeat split; try congruence; discriminate. }
  unfold recordOf.
  destruct (Js.or_null (JsMap.get n privateRefs)) as [p |] eqn:EP.
  2: { simpl. repeat split; try congruence; discriminate. }
  apply or_null_inv in EP as [EP NP].
  destruct (String.eqb_spec l p) as [-> | D].
  { simpl. repeat split; try congruence; discriminate. }
  assert (In l (Graph.commits g)) as Il by (eapply CL, JsMapFacts.get_In, EL).
  assert (In p (Graph.commits g)) as Ip by (eapply CP, JsMapFacts.get_In, EP).
  unfold verdict.
  rewrite (proj1 (AC p l w Ip Il)), (proj1 (AC l p w Il Ip)).
  destruct (Graph.is_ancestor g p l) eqn:A; [| destruct (Graph.is_ancestor g l p) eqn:B];
    simpl; repeat split; try congruence; try discriminate; intros _.
  - exists l, p. rewrite (reportedCount_correct repoPath g w p l AC Ip Il).
    repeat split; auto; [now apply GraphFacts.is_ancestor_Reach |].
    intros B. apply GraphFacts.strict_count_positive; [exact Il |].
    destruct (Graph.is_ancestor g l p) eqn:X; [| reflexivity].
    now apply GraphFacts.is_ancestor_Reach in X.
  - exists l, p. rewrite (reportedCount_correct repoPath g w l p AC Il Ip).
    split; [exact EL |]. split; [exact EP |]. split; [exact D |].
    split; [now apply GraphFacts.is_ancestor_Reach |].
    split; [intros X; apply GraphFacts.is_ancestor_Reach in X; congruence |].
    split; [reflexivity |]. now apply GraphFacts.strict_count_positive.
Qed.

Lemma Demo_answers : AnswersCorrectly (H := Demo.git) "/cache/demo.git" Demo.graph.
Proof.
  intros a b w Ia Ib. simpl in Ia, Ib.
  repeat (destruct Ia as [<- | Ia]; [| try contradiction]);
    repeat (destruct Ib as [<- | Ib]; [| try contradiction]);
    split; vm_compute; reflexivity.
Defined.

Lemma Demo_commits_local : CommitsIn Demo.graph Demo.localRefs.
Proof.
  intros n c I. simpl in I.
  repeat (destruct I as [[= <- <-] | I]; [simpl; tauto |]). contradiction.
Defined.

Lemma Demo_commits_private : CommitsIn Demo.graph Demo.privateRefs.
Proof.
  intros n c I. simpl in I.
  repeat (destruct I as [[= <- <-] | I]; [simpl; tauto |]). contradiction.
Defined.

Lemma counts_are_exclusive_counts_witness :
  exists es,
    Emitted (H := Demo.git) "/cache/demo.git" Demo.localRefs Demo.privateRefs Demo.pulled es
    /\ forall n r, In (n, r) es ->
         (RefComparison.aheadCount r <> None -> RefComparison.status r = ahead)
         /\ (RefComparison.behindCount r <> None -> RefComparison.status r = behind).
Proof.
  destruct (counts_are_exclusive_counts (H := Demo.git) "/cache/demo.git" Demo.graph
              Demo.localRefs Demo.privateRefs Demo.pulled
              Demo_Wf_local Demo_Wf_private (Scripted_pure _ _)
              Demo_answers Demo_commits_local Demo_commits_private)
    as (es & E & S).
  exists es. split; [exact E |]. intros n r I.
  destruct (S n r I) as (A & B & _). split; assumption.
Defined.

(* ===================================================================== *)
(** ** Properties of [status] *)
(* ===================================================================== *)

Ltac bind_steps :=
  repeat match goal with
    | E : bind _ _ _ = (Ok _, _, _) |- _ =>
        apply bind_Ok_inv in E;
        let a := fresh "a" in let w := fresh "w" in
        let t := fresh "t" in let t' := fresh "t" in
        let E1 := fresh "E" in let E2 := fresh "E" in
        destruct E as (a & w & t & t' & E1 & E2 & ->)
    end.

Section Status.
Context `{OS}.

(** The two shapes of a status result: the mirror is not there, or the
    verdict is aggregated from the records. *)
Lemma status_inv repo w s w' tr :
  status repo w = (Ok s, w', tr) ->
  (repoExists (getRepoTempPath (RepoConfig.name repo)) w = (Ok false, w', tr)
   /\ s = notPulled repo)
  \/ (RepoStatus.pulled (StatusResult.status s) = true
      /\ StatusResult.canPush s
         = negb (existsb (has_status behind) (records s))
           && negb (existsb (has_status diverged) (records s))
      /\ StatusResult.hasChanges s
         = existsb (fun r => has_status ahead r || has_status new r
                             || has_status missing r) (records s)
      /\ StatusResult.errors s
         = ((if existsb (has_status behind) (records s) then [behindMessage] else [])
            ++ (if existsb (has_status diverged) (records s)
                then [divergedMessage] else []))%list).
Proof.
  unfold status. intros E. bind_steps.
  destruct a; simpl in E1.
  - right. bind_steps.
    match goal with E : ret _ _ = _ |- _ => injection E as <- <- <- end.
    unfold records. simpl. auto.
  - left. injection E1 as <- <- <-. rewrite app_nil_r. auto.
Qed.

(** The records of a pulled mirror are those [compareRefs] returns on two
    inventories with distinct names and no empty commit. *)
Lemma status_compares_inventories repo w s w' tr :
  status repo w = (Ok s, w', tr) ->
  RepoStatus.pulled (StatusResult.status s) = true ->
  exists localRefs privateRefs w0 tr0,
    Inventory localRefs /\ Inventory privateRefs
    /\ compareRefs (getRepoTempPath (RepoConfig.name repo)) localRefs privateRefs w0
       = (Ok {| Compared.branches := RepoStatus.branches (StatusResult.status s);
                Compared.tags := RepoStatus.tags (StatusResult.status s) |},
          w', tr0).
Proof.
  unfold status. intros E. bind_steps.
  destruct a; simpl in E1; [| injection E1 as <- <- <-; discriminate].
  bind_steps.
  match goal with E : ret _ _ = _ |- _ => injection E as <- <- <- end.
  intros _. simpl.
  match goal with
  | L : getLocalRefs _ _ = (Ok ?l, _, _), P : getRemoteRefs _ _ _ = (Ok ?p, _, _),
    C : compareRefs _ ?l ?p ?w0 = (Ok ?c, _, ?t) |- _ =>
      exists l, p, w0, t;
      apply getLocalRefs_Inventory in L as (? & [= <-] & ?);
      apply getRemoteRefs_Inventory in P as (? & [= <-] & ?);
      destruct c; auto
  end.
Qed.

End Status.

Lemma Status_eqb_eq a b : Status_eqb a b = true <-> a = b.
Proof. destruct a, b; simpl; split; congruence. Qed.

Lemma some_has_status s (rs : list RefComparison.t) :
  existsb (has_status s) rs = true
  <-> exists r, In r rs /\ RefComparison.status r = s.
Proof.
  rewrite existsb_exists. unfold has_status.
  split; intros (r & I & E); exists r; split; auto; now apply Status_eqb_eq.
Qed.

Lemma none_has_status s (rs : list RefComparison.t) :
  existsb (has_status s) rs = false
  <-> forall r, In r rs -> RefComparison.status r <> s.
Proof.
  split.
  - intros E r I S. assert (existsb (has_status s) rs = true) as T
      by (apply some_has_status; eauto). congruence.
  - intros N. destruct (existsb (has_status s) rs) eqn:E; [| reflexivity].
    apply some_has_status in E as (r & I & S). now destruct (N r I).
Qed.

(** C2 (amended).  For every status result of a mirror that has been
    pulled, [canPush] is false if and only if some record, branch or tag,
    is [behind] or [diverged]; records that are [same], [ahead], [new] or
    [missing] leave it true.  For a mirror that has not been pulled there
    are no records and [canPush] is false. *)
Theorem canPush_false_iff_behind_or_diverged `{OS} (repo : RepoConfig.t)
  (w w' : World) (s : StatusResult.t) (tr : list Event) :
  status repo w = (Ok s, w', tr) ->
  (RepoStatus.pulled (StatusResult.status s) = true ->
   (StatusResult.canPush s = false
    <-> exists r, In r (records s)
                  /\ (RefComparison.status r = behind
                      \/ RefComparison.status r = diverged))
   /\ ((forall r, In r (records s) ->
          RefComparison.status r = same \/ RefComparison.status r = ahead
          \/ RefComparison.status r = new \/ RefComparison.status r = missing) ->
       StatusResult.canPush s = true))
  /\ (RepoStatus.pulled (StatusResult.status s) = false ->
      StatusResult.canPush s = false /\ records s = []).
Proof.
  intros E. destruct (status_inv repo w s w' tr E) as [[_ ->] | (P & C & _)].
  - split; [discriminate | auto].
  - split; [intros _ | congruence]. rewrite C. split.
    + rewrite andb_false_iff, !negb_false_iff, !some_has_status. split.
      * intros [(r & I & S) | (r & I & S)]; exists r; auto.
      * intros (r & I & [S | S]); [left | right]; exists r; auto.
    + intros A. apply andb_true_iff. rewrite !negb_true_iff, !none_has_status.
      split; intros r I S; destruct (A r I) as [X | [X | [X | X]]]; congruence.
Qed.

Lemma canPush_false_iff_behind_or_diverged_witness :
  exists s w' tr,
    status (H := Demo.git) (Demo.repo None) Demo.pulled = (Ok s, w', tr)
    /\ (RepoStatus.pulled (StatusResult.status s) = true ->
        StatusResult.canPush s = false
        <-> exists r, In r (records s)
                      /\ (RefComparison.status r = behind
                          \/ RefComparison.status r = diverged)).
Proof.
  do 3 eexists. split; [vm_compute; reflexivity |].
  intros P.
  refine (proj1 (proj1 (canPush_false_iff_behind_or_diverged (H := Demo.git)
                          (Demo.repo None) Demo.pulled _ _ _ _) P)).
  vm_compute. reflexivity.
Defined.

(** C2, as stated, fails: the status result of a mirror that has not been
    pulled has [canPush] false and no record at all. *)
Lemma canPush_false_without_records :
  status (H := Demo.git) (Demo.repo None) Demo.fresh
  = (Ok (notPulled (Demo.repo None)), Demo.fresh, [])
  /\ StatusResult.canPush (notPulled (Demo.repo None)) = false
  /\ records (notPulled (Demo.repo None)) = [].
Proof. repeat split. Qed.

(** C4.  For every status result, [hasChanges] is true if and only if some
    record, branch or tag, is [ahead], [new] or [missing]; when every
    record is [same], [hasChanges] is false. *)
Theorem hasChanges_iff_ahead_new_missing `{OS} (repo : RepoConfig.t)
  (w w' : World) (s : StatusResult.t) (tr : list Event) :
  status repo w = (Ok s, w', tr) ->
  (StatusResult.hasChanges s = true
   <-> exists r, In r (records s)
                 /\ (RefComparison.status r = ahead
                     \/ RefComparison.status r = new
                     \/ RefComparison.status r = missing))
  /\ ((forall r, In r (records s) -> RefComparison.status r = same) ->
      StatusResult.hasChanges s = false).
Proof.
  intros E.
  assert (StatusResult.hasChanges s
          = existsb (fun r => has_status ahead r || has_status new r
                              || has_status missing r) (records s)) as ->.
  { destruct (status_inv repo w s w' tr E) as [[_ ->] | (_ & _ & C & _)];
      [reflexivity | exact C]. }
  split.
  - rewrite existsb_exists. unfold has_status.
    split; intros (r & I & S); exists r; split; auto.
    + rewrite !orb_true_iff, !Status_eqb_eq in S. tauto.
    + rewrite !orb_true_iff, !Status_eqb_eq. tauto.
  - intros A. destruct (existsb _ (records s)) eqn:X; [| reflexivity].
    apply existsb_exists in X as (r & I & S). unfold has_status in S.
    rewrite (A r I) in S. discriminate.
Qed.

Lemma hasChanges_iff_ahead_new_missing_witness :
  exists s w' tr,
    status (H := Demo.git) (Demo.repo None) Demo.pulled = (Ok s, w', tr)
    /\ (StatusResult.hasChanges s = true
        <-> exists r, In r (records s)
                      /\ (RefComparison.status r = ahead
                          \/ RefComparison.status r = new
                          \/ RefComparison.status r = missing)).
Proof.
  do 3 eexists. split; [vm_compute; reflexivity |].
  refine (proj1 (hasChanges_iff_ahead_new_missing (H := Demo.git)
                   (Demo.repo None) Demo.pulled _ _ _ _)).
  vm_compute. reflexivity.
Defined.

(** C8.  For every status result, the blocking reasons hold the message
    about private commits once when some record is [behind] and not at all
    otherwise, and the message about divergence once when some record is
    [diverged] and not at all otherwise, whatever the number of such
    records.  In particular, when some record is [diverged] and every other
    record is [same], [canPush] is false and the divergence message is the
    only blocking reason. *)
Theorem one_reason_per_class `{OS} (repo : RepoConfig.t)
  (w w' : World) (s : StatusResult.t) (tr : list Event) :
  status repo w = (Ok s, w', tr) ->
  let reasons := count_occ string_dec (StatusResult.errors s) in
  let some st := exists r, In r (records s) /\ RefComparison.status r = st in
  (some behind -> reasons behindMessage = 1%nat)
  /\ (~ some behind -> reasons behindMessage = 0%nat)
  /\ (some diverged -> reasons divergedMessage = 1%nat)
  /\ (~ some diverged -> reasons divergedMessage = 0%nat)
  /\ (some diverged ->
      (forall r, In r (records s) ->
         RefComparison.status r = diverged \/ RefComparison.status r = same) ->
      StatusResult.canPush s = false
      /\ StatusResult.errors s = [divergedMessage]).
Proof.
  intros E reasons some.
  assert (forall st, some st <-> existsb (has_status st) (records s) = true) as Sm
    by (intros st; symmetry; apply some_has_status).
  subst reasons. rewrite !Sm.
  destruct (status_inv repo w s w' tr E) as [[_ ->] | (_ & C & _ & R)].
  - simpl. repeat split; congruence.
  - rewrite R, C.
    destruct (existsb (has_status behind) (records s)) eqn:B;
      destruct (existsb (has_status diverged) (records s)) eqn:D;
      repeat split; try reflexivity; try congruence.
    exfalso. apply some_has_status in B as (r & I & S).
    match goal with A : forall r, In r _ -> _ |- _ => destruct (A r I) end;
      congruence.
Qed.

Lemma one_reason_per_class_witness :
  exists s w' tr,
    status (H := Demo.forked) (Demo.repo None) Demo.pulled = (Ok s, w', tr)
    /\ StatusResult.canPush s = false
    /\ StatusResult.errors s = [divergedMessage].
Proof.
  do 3 eexists. split; [vm_compute; reflexivity |].
  refine (proj2 (proj2 (proj2 (proj2
            (one_reason_per_class (H := Demo.forked)
               (Demo.repo None) Demo.pulled _ _ _ _)))) _ _).
  - vm_compute. reflexivity.
  - eexists. split; [right; left; reflexivity | reflexivity].
  - intros r [<- | [<- | [<- | []]]]; vm_compute; auto.
Defined.

(* ===================================================================== *)
(** ** What [status] and [push] run *)
(* ===================================================================== *)

Ltac traces :=
  repeat first
    [ apply Traces_ret
    | apply Traces_bind; [| intros ? ]
    | apply Traces_exec; reflexivity
    | apply Traces_emit; reflexivity
    | apply Traces_fs_exists
    | apply Traces_fs_mtime
    | apply Traces_fs_read
    | apply Traces_now
    | apply Traces_fs_mkdir; reflexivity
    | apply Traces_fs_write; reflexivity
    | apply Traces_fs_rm; reflexivity
    | apply Traces_try_finally
    | apply Traces_if
    | match goal with
      | |- Traces _ (match ?x with _ => _ end) => destruct x
      | |- Traces _ (let '(_, _) := ?x in _) => destruct x
      end ].

Section Orchestrator.
Context `{OS}.

Lemma repoExists_quiet repoPath : Traces quiet (repoExists repoPath).
Proof. unfold repoExists, quiet. traces. Qed.

(** [status] runs no push. *)
Lemma status_quiet repo : Traces quiet (status repo).
Proof.
  unfold status. apply Traces_bind; [apply repoExists_quiet | intros there].
  apply Traces_if; [unfold quiet; traces |].
  unfold getRepoCloneTime, console_log, fetchRemote, getLocalRefs, getRemoteRefs.
  apply Traces_bind; [unfold quiet; traces | intros pulledAt].
  apply Traces_bind; [unfold quiet; traces | intros _].
  apply Traces_bind; [unfold quiet; traces | intros fetchResult].
  apply Traces_bind; [unfold quiet; traces | intros _].
  apply Traces_bind; [unfold quiet; traces | intros localRefs].
  apply Traces_bind; [unfold quiet; traces | intros privateRefs].
  apply Traces_bind; [| intros; apply Traces_ret].
  apply Traces_compareRefs; intros; reflexivity.
Qed.

(** C10.  When the mirror of a repository is not in the cache, [status]
    returns a result with [pulled] false, no branch and no tag, [canPush]
    and [hasChanges] false and the single error "Not pulled yet"; [push]
    fails with an error, and neither runs a push. *)
Theorem not_pulled_yet (repo : RepoConfig.t) (w w1 : World) (t1 : list Event) :
  repoExists (getRepoTempPath (RepoConfig.name repo)) w = (Ok false, w1, t1) ->
  (exists s,
     status repo w = (Ok s, w1, t1)
     /\ RepoStatus.pulled (StatusResult.status s) = false
     /\ RepoStatus.branches (StatusResult.status s) = []
     /\ RepoStatus.tags (StatusResult.status s) = []
     /\ StatusResult.canPush s = false
     /\ StatusResult.hasChanges s = false
     /\ StatusResult.errors s = ["Not pulled yet"])
  /\ (exists message,
        push repo w
        = (Ok {| PushResult.success := false; PushResult.pushed := false;
                 PushResult.error := Some message |}, w1, t1))
  /\ Forall quiet t1.
Proof.
  intros E. split; [| split].
  - exists (notPulled repo). unfold status. rewrite (bind_run _ _ _ _ _ _ E).
    simpl. rewrite app_nil_r. repeat split.
  - exists notPulledMessage. unfold push. rewrite (bind_run _ _ _ _ _ _ E).
    simpl. rewrite app_nil_r. reflexivity.
  - exact (repoExists_quiet _ _ _ _ _ E).
Qed.

(** C6.  Take a repository without [markSource] whose mirror is in the
    cache, and the result [s] of the status [push] computes.  When [canPush]
    is false, [push] fails with the blocking reasons of [s] joined and runs
    no push.  When [canPush] is true and [hasChanges] is false, [push]
    succeeds with [pushed] false and runs no push.  When both are true,
    [push] ends with the mirror push.  So a run of [push] holds a push only
    when [canPush] and [hasChanges] are true. *)
Theorem push_gate (repo : RepoConfig.t) (w w1 w2 : World)
  (t1 t2 : list Event) (s : StatusResult.t) :
  isTrue (RepoConfig.markSource repo) = false ->
  repoExists (getRepoTempPath (RepoConfig.name repo)) w = (Ok true, w1, t1) ->
  status repo w1 = (Ok s, w2, t2) ->
  (StatusResult.canPush s = false ->
   push repo w
   = (Ok {| PushResult.success := false; PushResult.pushed := false;
            PushResult.error := Some (Js.join "; " (StatusResult.errors s)) |},
      w2, (t1 ++ t2)%list)
   /\ Forall quiet (t1 ++ t2))
  /\ (StatusResult.canPush s = true -> StatusResult.hasChanges s = false ->
      push repo w
      = (Ok {| PushResult.success := true; PushResult.pushed := false;
               PushResult.error := None |},
         w2, (t1 ++ t2)%list)
      /\ Forall quiet (t1 ++ t2))
  /\ (StatusResult.canPush s = true -> StatusResult.hasChanges s = true ->
      exists r w3,
        push repo w
        = (Ok r, w3,
           (t1 ++ t2
            ++ [EvLog ("  Pushing to " ++ RepoConfig.private repo ++ "...");
                mirrorPush repo])%list)
        /\ PushResult.pushed r = PushResult.success r)
  /\ (forall r w3 tr,
        push repo w = (r, w3, tr) -> Exists (fun e => is_push e = true) tr ->
        StatusResult.canPush s = true /\ StatusResult.hasChanges s = true).
Proof.
  intros NM E1 E2.
  assert (Forall quiet (t1 ++ t2)) as Q.
  { apply Forall_app. split;
      [exact (repoExists_quiet _ _ _ _ _ E1) | exact (status_quiet _ _ _ _ _ E2)]. }
  assert (forall k : StatusResult.t -> M PushResult.t,
            (there <- repoExists (getRepoTempPath (RepoConfig.name repo)) ;;
             if negb there then ret (pushFailure notPulledMessage)
             else if negb (isTrue (RepoConfig.markSource repo)) then
               statusResult <- status repo ;; k statusResult
             else push_proceed repo (getRepoTempPath (RepoConfig.name repo))) w
            = (let '(r, w3, t3) := k s w2 in (r, w3, (t1 ++ t2 ++ t3)%list))) as Run.
  { intros k. rewrite (bind_run _ _ _ _ _ _ E1). simpl. rewrite NM. simpl.
    rewrite (bind_run _ _ _ _ _ _ E2). destruct (k s w2) as [[x y] z].
    now rewrite app_assoc. }
  unfold push. rewrite Run. clear Run.
  assert (forall tr, Exists (fun e => is_push e = true) tr -> tr <> (t1 ++ t2)%list)
    as NQ.
  { intros tr X ->. apply Exists_exists in X as (e & I & P).
    rewrite Forall_forall in Q. specialize (Q e I). unfold quiet in Q. congruence. }
  destruct (StatusResult.canPush s) eqn:C; simpl.
  2: { rewrite app_nil_r.
       split; [auto |]. split; [discriminate |]. split; [discriminate |].
       intros r w3 tr [= <- <- <-] X. now destruct (NQ _ X). }
  destruct (StatusResult.hasChanges s) eqn:C'; simpl.
  2: { rewrite app_nil_r.
       split; [discriminate |]. split; [auto |]. split; [discriminate |].
       intros r w3 tr [= <- <- <-] X. now destruct (NQ _ X). }
  unfold push_proceed. rewrite NM. unfold pushMirror, console_log, emit, bind, ret, exec.
  destruct (execSync (pushMirror_command "private")
              (Some (getRepoTempPath (RepoConfig.name repo))) false w2)
    as [[out | st e m] w3]; simpl;
    (split; [discriminate |]); (split; [discriminate |]);
    (split; [| auto]); intros _ _; do 2 eexists; split; reflexivity.
Qed.

Lemma findReadme_traces P tempDir names : Traces P (findReadme tempDir names).
Proof.
  induction names as [| name rest IH]; simpl; [apply Traces_ret |].
  apply Traces_bind; [apply Traces_fs_exists | intros there].
  apply Traces_if; [apply Traces_ret | exact IH].
Qed.

Lemma addSourceNotice_aside repoPath publicUrl branch :
  Traces (fun e => aside e /\ held e) (addSourceNotice repoPath publicUrl branch).
Proof.
  unfold addSourceNotice, addSourceNotice_body.
  apply Traces_bind; [apply Traces_now | intros t].
  apply Traces_try_finally.
  - apply Traces_bind; [apply Traces_fs_mkdir; split; reflexivity | intros _].
    apply Traces_bind; [apply Traces_exec; split; reflexivity | intros cloneResult].
    apply Traces_if; [apply Traces_ret |].
    apply Traces_bind; [apply findReadme_traces | intros found].
    apply Traces_bind.
    { destruct found as [[path name] |];
        [apply Traces_if; [apply Traces_ret |] |];
        (apply Traces_bind;
         [apply Traces_fs_write; split; reflexivity | intros; apply Traces_ret]). }
    intros readme.
    apply Traces_bind; [apply Traces_fs_read | intros currentContent].
    apply Traces_bind; [apply Traces_fs_write; split; reflexivity | intros _].
    apply Traces_bind; [apply Traces_exec; split; reflexivity | intros _].
    apply Traces_bind; [apply Traces_exec; split; reflexivity | intros _].
    apply Traces_bind; [apply Traces_exec; split; reflexivity | intros _].
    apply Traces_bind; [apply Traces_exec; split; reflexivity | intros commitResult].
    apply Traces_if; [apply Traces_ret |].
    apply Traces_bind; [apply Traces_exec; split; reflexivity | intros pushResult].
    apply Traces_if; apply Traces_ret.
  - apply Traces_bind; [apply Traces_fs_exists | intros there].
    apply Traces_if; [apply Traces_fs_rm; split; reflexivity | apply Traces_ret].
Qed.

Lemma exec_trace command cwd silent w r w' t :
  exec command cwd silent w = (r, w', t) -> t = [EvExec command cwd silent].
Proof.
  destruct (exec_run command cwd silent w) as (x & E & _). rewrite E. congruence.
Qed.

Lemma fs_write_trace path content w r w' t :
  fs_write path content w = (r, w', t) -> t = [EvWrite path content].
Proof. unfold fs_write. destruct (writeFileSync path content w). congruence. Qed.

(** When [addSourceNotice] succeeds it has written a README that starts
    with the notice and has run the commit. *)
Lemma addSourceNotice_commits repoPath publicUrl branch w r w' tr :
  addSourceNotice repoPath publicUrl branch w = (Ok r, w', tr) ->
  ExecResult.success r = true ->
  In (EvExec commit_notice_command (Some (noticeDir w)) true) tr
  /\ exists path content, In (EvWrite path (noticeText publicUrl ++ content)) tr.
Proof.
  unfold addSourceNotice, noticeDir. intros E S.
  apply bind_Ok_inv in E as (t & w0 & t0 & t0' & E0 & E & Etr).
  injection E0 as <- <- <-. simpl in Etr. subst tr.
  unfold try_finally in E.
  destruct (addSourceNotice_body _ repoPath publicUrl branch w) as [[rb wb] tb] eqn:B.
  assert (rb = Ok r /\ exists tf, t0' = (tb ++ tf)%list) as [-> (tf & ->)].
  { destruct (bind _ _ wb) as [[[u | e] w2] t2]; [| discriminate].
    injection E as -> _ <-. eauto. }
  clear E. unfold addSourceNotice_body in B.
  repeat first
    [ progress bind_steps
    | match goal with
      | E : (if negb (ExecResult.success ?a) then _ else _) _ = (Ok _, _, _) |- _ =>
          destruct (ExecResult.success a); cbv beta iota delta [negb] in E;
          [| injection E as <- <- <-; discriminate]
      end ].
  match goal with
  | E : fs_write ?path (noticeText _ ++ ?content) _ = _,
    C : exec commit_notice_command _ _ _ = _ |- _ =>
      apply fs_write_trace in E; apply exec_trace in C; subst;
      split; [| exists path, content]
  end; rewrite !in_app_iff; simpl; tauto.
Qed.

Lemma Traces_impl {A} (P Q : Event -> Prop) (m : M A) :
  (forall e, P e -> Q e) -> Traces P m -> Traces Q m.
Proof.
  intros PQ T w r w' tr E. eapply Forall_impl; [exact PQ | exact (T _ _ _ _ E)].
Qed.

Lemma getDefaultBranch_aside repoPath :
  Traces (fun e => aside e /\ held e) (getDefaultBranch repoPath).
Proof.
  unfold getDefaultBranch.
  apply Traces_bind; [apply Traces_exec; split; reflexivity | intros result].
  apply Traces_if; [apply Traces_ret |].
  apply Traces_bind; [apply Traces_exec; split; reflexivity | intros mainExists].
  apply Traces_if; apply Traces_ret.
Qed.

Lemma push_proceed_aside repo repoPath : Traces aside (push_proceed repo repoPath).
Proof.
  unfold push_proceed. apply Traces_bind.
  - apply Traces_if; [| apply Traces_ret].
    apply Traces_bind; [apply Traces_emit; reflexivity | intros _].
    apply Traces_bind;
      [eapply Traces_impl; [| apply getDefaultBranch_aside]; intros e [X _]; exact X
      | intros branch].
    apply Traces_bind;
      [eapply Traces_impl; [| apply addSourceNotice_aside]; intros e [X _]; exact X
      | intros noticeResult].
    apply Traces_if; apply Traces_ret.
  - intros [failed |]; [apply Traces_ret |].
    apply Traces_bind; [apply Traces_emit; reflexivity | intros _].
    apply Traces_bind; [apply Traces_exec; reflexivity | intros pushResult].
    apply Traces_if; apply Traces_ret.
Qed.

(** C7 (amended).  Take a repository with [markSource] whose mirror is in
    the cache.  No run of [push] runs a command of [status].  [push] reads
    the default branch and adds the source notice.  When that succeeds, a
    README that starts with the notice has been written and committed, and
    [push] ends with the mirror push, whatever the refs are.  When it fails
    or throws, [push] fails or throws in turn and no mirror push is run. *)
Theorem push_with_markSource (repo : RepoConfig.t) (w w1 w2 w3 : World)
  (t1 t2 t3 : list Event) (branch : string) (res : Outcome ExecResult.t) :
  let repoPath := getRepoTempPath (RepoConfig.name repo) in
  isTrue (RepoConfig.markSource repo) = true ->
  repoExists repoPath w = (Ok true, w1, t1) ->
  getDefaultBranch repoPath w1 = (Ok branch, w2, t2) ->
  addSourceNotice repoPath (RepoConfig.public repo) branch w2 = (res, w3, t3) ->
  let pre := (t1 ++ EvLog "  Adding source notice to README..." :: t2 ++ t3)%list in
  (forall r w' tr, push repo w = (r, w', tr) -> Forall aside tr)
  /\ Forall held pre
  /\ match res with
     | Ok notice =>
         if ExecResult.success notice then
           In (EvExec commit_notice_command (Some (noticeDir w2)) true) t3
           /\ (exists path content,
                 In (EvWrite path (noticeText (RepoConfig.public repo) ++ content)) t3)
           /\ exists r w4,
                push repo w
                = (Ok r, w4,
                   (pre ++ [EvLog ("  Pushing to " ++ RepoConfig.private repo ++ "...");
                            mirrorPush repo])%list)
                /\ PushResult.pushed r = PushResult.success r
         else
           push repo w
           = (Ok (pushFailure ("Failed to add source notice: "
                               ++ interpolate (ExecResult.error notice))), w3, pre)
     | Throw e => push repo w = (Throw e, w3, pre)
     end.
Proof.
  intros repoPath MS E1 E2 E3 pre. split; [| split].
  - unfold push. apply Traces_bind; [unfold aside; traces | intros there].
    apply Traces_if; [apply Traces_ret |]. fold repoPath. rewrite MS. simpl.
    apply push_proceed_aside.
  - subst pre. apply Forall_app. split.
    + eapply Traces_impl; [| apply repoExists_quiet | exact E1].
      intros [c d s | | | |]; unfold quiet, held; simpl; try reflexivity.
      intros Q. destruct (String.eqb_spec c (pushMirror_command "private"));
        [subst c; discriminate | reflexivity].
    + constructor; [reflexivity |]. apply Forall_app. split.
      * eapply Traces_impl; [| apply getDefaultBranch_aside | exact E2].
        intros e [_ X]. exact X.
      * eapply Traces_impl; [| apply addSourceNotice_aside | exact E3].
        intros e [_ X]. exact X.
  - assert (forall k : option PushResult.t -> M PushResult.t,
              forall x : ExecResult.t -> M (option PushResult.t),
              (noticeFailed <-
                 (console_log "  Adding source notice to README..." ;;;
                  branch <- getDefaultBranch repoPath ;;
                  noticeResult <- addSourceNotice repoPath (RepoConfig.public repo)
                                    branch ;;
                  x noticeResult) ;;
               k noticeFailed) w1
              = match res with
                | Ok notice =>
                    match x notice w3 with
                    | (Ok o, w4, t4) =>
                        let '(r, w5, t5) := k o w4 in
                        (r, w5, (EvLog "  Adding source notice to README..."
                                 :: t2 ++ t3 ++ t4 ++ t5)%list)
                    | (Throw e, w4, t4) =>
                        (Throw e, w4, (EvLog "  Adding source notice to README..."
                                       :: t2 ++ t3 ++ t4)%list)
                    end
                | Throw e => (Throw e, w3, (EvLog "  Adding source notice to README..."
                                            :: t2 ++ t3)%list)
                end) as Run.
    { intros k x. unfold bind, console_log, emit. rewrite E2, E3.
      destruct res as [notice | e]; [| reflexivity].
      destruct (x notice w3) as [[[o | e] w4] t4]; [| reflexivity].
      destruct (k o w4) as [[r w5] t5]. simpl. now rewrite <- !app_assoc. }
    unfold push. rewrite (bind_run _ _ _ _ _ _ E1). simpl. fold repoPath.
    rewrite MS. simpl. unfold push_proceed. rewrite MS, Run. clear Run.
    destruct res as [notice | e]; [| reflexivity].
    destruct (ExecResult.success notice) eqn:S; simpl.
    + destruct (addSourceNotice_commits _ _ _ _ _ _ _ E3 S) as [C Wr].
      split; [exact C |]. split; [exact Wr |].
      unfold pushMirror, console_log, emit, bind, ret, exec. fold repoPath.
      destruct (execSync (pushMirror_command "private") (Some repoPath) false w3)
        as [[out | st e m] w4]; simpl; do 2 eexists;
        (split;
         [subst pre; unfold mirrorPush; fold repoPath;
          rewrite <- ?app_assoc, <- app_comm_cons, <- ?app_assoc; reflexivity
         | reflexivity]).
    + subst pre. rewrite !app_nil_r. reflexivity.
Qed.

End Orchestrator.

Lemma not_pulled_yet_witness :
  (exists s,
     status (H := Demo.git) (Demo.repo None) Demo.fresh = (Ok s, Demo.fresh, [])
     /\ RepoStatus.pulled (StatusResult.status s) = false
     /\ RepoStatus.branches (StatusResult.status s) = []
     /\ RepoStatus.tags (StatusResult.status s) = []
     /\ StatusResult.canPush s = false
     /\ StatusResult.hasChanges s = false
     /\ StatusResult.errors s = ["Not pulled yet"])
  /\ (exists message,
        push (H := Demo.git) (Demo.repo None) Demo.fresh
        = (Ok {| PushResult.success := false; PushResult.pushed := false;
                 PushResult.error := Some message |}, Demo.fresh, []))
  /\ Forall quiet [].
Proof.
  apply (not_pulled_yet (H := Demo.git) (Demo.repo None) Demo.fresh Demo.fresh []).
  reflexivity.
Defined.

Lemma push_gate_witness :
  exists message w' tr,
    push (H := Demo.git) (Demo.repo None) Demo.pulled
    = (Ok {| PushResult.success := false; PushResult.pushed := false;
             PushResult.error := Some message |}, w', tr)
    /\ Forall quiet tr.
Proof.
  do 3 eexists.
  refine (proj1 (push_gate (H := Demo.git) (Demo.repo None)
                   Demo.pulled _ _ _ _ _ eq_refl _ _) _).
  - vm_compute. reflexivity.
  - vm_compute. reflexivity.
  - vm_compute. reflexivity.
Defined.

Lemma push_with_markSource_witness :
  exists r w' tr,
    push (H := Demo.agreeable) (Demo.repo (Some true)) Demo.pulled = (Ok r, w', tr)
    /\ PushResult.pushed r = PushResult.success r
    /\ In (mirrorPush (H := Demo.agreeable) (Demo.repo (Some true))) tr.
Proof.
  edestruct (fun w1 w2 w3 t1 t2 t3 b res =>
               push_with_markSource (H := Demo.agreeable) (Demo.repo (Some true))
                 Demo.pulled w1 w2 w3 t1 t2 t3 b res eq_refl)
    as (_ & _ & X); [vm_compute; reflexivity .. |].
  cbv beta iota delta [ExecResult.success] in X.
  destruct X as (_ & _ & r & w4 & E & P).
  exists r, w4. eexists. split; [exact E |]. split; [exact P |].
  apply in_or_app. right. right. left. reflexivity.
Defined.

(** C7, as stated, fails: the notice is already in the README, there is
    nothing to commit, and [push] fails without the mirror push. *)
Lemma push_with_markSource_without_push :
  exists w' tr,
    push (H := Demo.nothingToCommit) (Demo.repo (Some true)) Demo.pulled
    = (Ok (pushFailure
             "Failed to add source notice: Failed to commit: Command failed"),
       w', tr)
    /\ existsb is_mirror_push tr = false.
Proof. do 2 eexists. split; vm_compute; reflexivity. Qed.

(* ===================================================================== *)
(** ** The scenarios of the specification *)
(* ===================================================================== *)

(** Private is an ancestor two commits back: the branch is [ahead] by 2,
    and [push] runs the mirror push. *)
Example push_fast_forward :
  exists w' tr,
    push (H := Demo.fastForward) (Demo.repo None) Demo.pulled
    = (Ok {| PushResult.success := true; PushResult.pushed := true;
             PushResult.error := None |}, w', tr)
    /\ existsb is_mirror_push tr = true.
Proof. do 2 eexists. split; vm_compute; reflexivity. Qed.

(** Nothing differs: [push] succeeds and pushes nothing. *)
Example push_up_to_date :
  exists w' tr,
    push (H := Demo.upToDate) (Demo.repo None) Demo.pulled
    = (Ok {| PushResult.success := true; PushResult.pushed := false;
             PushResult.error := None |}, w', tr)
    /\ existsb is_push tr = false.
Proof. do 2 eexists. split; vm_compute; reflexivity. Qed.

(** A tag only on private is [missing]: a change, and no obstacle. *)
Example status_missing_tag :
  exists s w' tr,
    status (H := Demo.mirror ["main c3"] [] ["refs/remotes/private/main c3"]
                   ["c2" ++ Js.char 9 ++ "refs/tags/v1"])
      (Demo.repo None) Demo.pulled = (Ok s, w', tr)
    /\ map RefComparison.status (records s) = [same; missing]
    /\ StatusResult.canPush s = true
    /\ StatusResult.hasChanges s = true.
Proof. do 3 eexists. repeat split; vm_compute; reflexivity. Qed.

(** The six statuses at once. *)
Example status_all_six :
  exists s w' tr,
    status (H := Demo.git) (Demo.repo None) Demo.pulled = (Ok s, w', tr)
    /\ map (fun r => (RefComparison.name r, RefComparison.status r,
                      RefComparison.aheadCount r, RefComparison.behindCount r))
         (records s)
       = [(Some "main", ahead, Some 2%Z, None);
          (Some "old", behind, None, Some 1%Z);
          (Some "side", diverged, None, None);
          (Some "topic", new, None, None);
          (Some "v1", same, None, None);
          (Some "v0", missing, None, None)]
    /\ StatusResult.canPush s = false
    /\ StatusResult.errors s = [behindMessage; divergedMessage].
Proof. do 3 eexists. repeat split; vm_compute; reflexivity. Qed.

(* ===================================================================== *)
(** ** Programs: results *)
(* ===================================================================== *)

Section Results.
Context `{OS}.

Lemma Runs_ret {A} P (Q : A -> Prop) (a : A) : Q a -> Runs P Q (ret a).
Proof.
  intros Qa w r w' tr [= <- <- <-]. split; [constructor | now intros ? [= <-]].
Qed.

Lemma Runs_bind {A B} P (Q1 : A -> Prop) (Q : B -> Prop) (m : M A) (f : A -> M B) :
  Runs P Q1 m -> (forall a, Q1 a -> Runs P Q (f a)) -> Runs P Q (bind m f).
Proof.
  intros Hm Hf w r w' tr E. apply bind_inv in E.
  destruct E as [(e & E & ->) | (a & w1 & t1 & t2 & E1 & E2 & ->)].
  - split; [exact (proj1 (Hm _ _ _ _ E)) | discriminate].
  - destruct (Hm _ _ _ _ E1) as [F1 Q1a].
    destruct (Hf a (Q1a a eq_refl) _ _ _ _ E2) as [F2 Qb].
    split; [now apply Forall_app | exact Qb].
Qed.

Lemma Runs_Traces {A} P (m : M A) : Traces P m -> Runs P (fun _ => True) m.
Proof. intros T w r w' tr E. split; [exact (T _ _ _ _ E) | auto]. Qed.

Lemma Traces_Runs {A} P (Q : A -> Prop) (m : M A) : Runs P Q m -> Traces P m.
Proof. intros R w r w' tr E. exact (proj1 (R _ _ _ _ E)). Qed.

Lemma Runs_weaken {A} (P P' : Event -> Prop) (Q Q' : A -> Prop) (m : M A) :
  (forall e, P e -> P' e) -> (forall a, Q a -> Q' a) -> Runs P Q m -> Runs P' Q' m.
Proof.
  intros PP QQ R w r w' tr E. destruct (R _ _ _ _ E) as [F Qa].
  split; [eapply Forall_impl; eauto | auto].
Qed.

Lemma Runs_if {A} P (Q : A -> Prop) (b : bool) (m1 m2 : M A) :
  Runs P Q m1 -> Runs P Q m2 -> Runs P Q (if b then m1 else m2).
Proof. destruct b; auto. Qed.

Lemma Runs_exec (P : Event -> Prop) command cwd silent :
  P (EvExec command cwd silent) -> Runs P (fun _ => True) (exec command cwd silent).
Proof. intros Pe. now apply Runs_Traces, Traces_exec. Qed.

Lemma Runs_try_finally {A} P (Q : A -> Prop) (body : M A) (fin : M unit) :
  Runs P Q body -> Traces P fin -> Runs P Q (try_finally body fin).
Proof.
  intros Hb Hf w r w' tr. unfold try_finally.
  destruct (body w) as [[r1 w1] t1] eqn:E1.
  destruct (Hb _ _ _ _ E1) as [F1 Q1].
  destruct (fin w1) as [[[u | e] w2] t2] eqn:E2; intros [= <- <- <-];
    (split; [apply Forall_app; split; [exact F1 | exact (Hf _ _ _ _ E2)] |]);
    [exact Q1 | discriminate].
Qed.

End Results.

(* ===================================================================== *)
(** ** The classifier on inventories that need no oracle *)
(* ===================================================================== *)

Section NoOracle.
Context `{OS}.
Variable repoPath : string.

Lemma bind_silent {A B C} (m : M A) (g : A -> B) (k : B -> M C) w a :
  m w = (Ok a, w, []) -> bind (bind m (fun r => ret (g r))) k w = k (g a) w.
Proof.
  intros E. unfold bind. rewrite E. simpl.
  destruct (k (g a) w) as [[r w2] t2]. reflexivity.
Qed.

Lemma first_loop_quiet privateRefs (record : string * string -> RefComparison.t)
  localRefs acc w :
  (forall entry, In entry localRefs ->
     compareLocal repoPath privateRefs (fst entry) (snd entry) w
     = (Ok (record entry), w, [])) ->
  forM localRefs
    (fun acc entry =>
       r <- compareLocal repoPath privateRefs (fst entry) (snd entry) ;;
       ret (push_to (fst entry) r acc)) acc w
  = (Ok (append acc (route (map (fun e => (fst e, record e)) localRefs))), w, []).
Proof.
  revert acc. induction localRefs as [| entry rest IH]; intros acc Hc; simpl.
  - unfold ret. destruct acc. unfold append, route. simpl. now rewrite !app_nil_r.
  - rewrite (bind_silent _ _ _ _ _ (Hc entry (or_introl eq_refl))).
    rewrite IH by (intros e I; apply Hc; now right).
    rewrite push_to_route, append_assoc, <- route_app. reflexivity.
Qed.

(** X1.  When private has no ref, [compareRefs] runs no command and
    returns, in order, one [new] record for each local ref. *)
Theorem compareRefs_private_empty (localRefs : JsMap.t) (w : World) :
  compareRefs repoPath localRefs [] w
  = (Ok (route (map newOf localRefs)), w, []).
Proof.
  unfold compareRefs.
  rewrite (bind_run _ _ _ _ _ _
             (first_loop_quiet [] (fun e => snd (newOf e)) localRefs
                Compared.empty w (fun entry _ => eq_refl))).
  simpl. rewrite append_empty_l. reflexivity.
Qed.

(** X2.  When there is no local ref, [compareRefs] runs no command and
    returns, in order, one [missing] record for each ref of private. *)
Theorem compareRefs_local_empty (privateRefs : JsMap.t) (w : World) :
  compareRefs repoPath [] privateRefs w
  = (Ok (route (map missingOf privateRefs)), w, []).
Proof.
  unfold compareRefs. simpl. unfold bind, ret. simpl.
  rewrite second_loop_route, append_empty_l.
  replace (filter (fun e => negb (JsMap.has (fst e) [])) privateRefs)
    with privateRefs; [reflexivity |].
  induction privateRefs as [| e rest IH]; [reflexivity |].
  cbn in *. congruence.
Qed.

(** X3.  When both inventories are the same map, with distinct names and
    no empty commit, [compareRefs] runs no command and returns, in order,
    one [same] record for each ref. *)
Theorem compareRefs_identical (refs : JsMap.t) (w : World) :
  JsMap.Wf refs -> CommitsNonEmpty refs ->
  compareRefs repoPath refs refs w = (Ok (route (map sameOf refs)), w, []).
Proof.
  intros W NE. unfold compareRefs.
  assert (forall entry, In entry refs ->
            compareLocal repoPath refs (fst entry) (snd entry) w
            = (Ok (snd (sameOf entry)), w, [])) as Hc; [| 
  rewrite (bind_run _ _ _ _ _ _
             (first_loop_quiet refs (fun e => snd (sameOf e)) refs
                Compared.empty w Hc))].
  2: { simpl. rewrite second_loop_route, append_empty_l.
    replace (filter (fun e => negb (JsMap.has (fst e) refs)) refs) with (@nil (string * string)).
    + simpl. unfold append, route. simpl. now rewrite !app_nil_r.
    + symmetry.
      assert (forall l, incl l refs ->
                filter (fun e => negb (JsMap.has (fst e) refs)) l = []) as F.
      { induction l as [| [n c] l IH]; intros I; simpl; [reflexivity |].
        assert (JsMap.has n refs = true) as ->.
        { apply JsMapFacts.has_keys. apply in_map_iff. exists (n, c).
          split; [reflexivity | apply I; now left]. }
        simpl. apply IH. intros x J. apply I. now right. }
      apply F, incl_refl. }
  intros [n c] I. unfold compareLocal. simpl.
  rewrite (JsMapFacts.In_get n c refs W I), (or_null_Some c (NE n c I)).
  now rewrite String.eqb_refl.
Qed.

End NoOracle.

Lemma compareRefs_identical_witness :
  compareRefs (H := Demo.git) "/cache/demo.git" Demo.localRefs Demo.localRefs Demo.pulled
  = (Ok (route (map sameOf Demo.localRefs)), Demo.pulled, []).
Proof.
  apply (compareRefs_identical (H := Demo.git) "/cache/demo.git" Demo.localRefs
           Demo.pulled Demo_Wf_local).
  intros n c I. simpl in I.
  repeat (destruct I as [[= <- <-] | I]; [discriminate |]). contradiction.
Defined.

(* ===================================================================== *)
(** ** Names *)
(* ===================================================================== *)

Lemma split_slashless a : slashless a = true -> Js.split "/" a = [a].
Proof.
  unfold slashless. induction a as [| c a IH]; simpl; [reflexivity |].
  intros E. apply andb_true_iff in E as [N E]. apply negb_true_iff in N.
  rewrite N, (IH E). reflexivity.
Qed.

Lemma split_at_slash a rest :
  slashless a = true -> Js.split "/" (a ++ "/" ++ rest) = a :: Js.split "/" rest.
Proof.
  unfold slashless. induction a as [| c a IH]; simpl in *; [reflexivity |].
  intros E. apply andb_true_iff in E as [N E]. apply negb_true_iff in N.
  rewrite N, (IH E). reflexivity.
Qed.

(** X4.  [compareRefs] names a record by what stands between the first and
    the second slash of the qualified name: the name of [heads/feature/x]
    is [feature], and a qualified name without slash has no name. *)
Theorem type_and_name_cut (kind a : string) :
  slashless kind = true -> slashless a = true ->
  type_and_name kind = (kind, None)
  /\ type_and_name (kind ++ "/" ++ a) = (kind, Some a)
  /\ forall rest, type_and_name (kind ++ "/" ++ a ++ "/" ++ rest) = (kind, Some a).
Proof.
  intros K A. unfold type_and_name, Js.split_limit. split; [| split].
  - now rewrite (split_slashless kind K).
  - now rewrite (split_at_slash kind a K), (split_slashless a A).
  - intros rest. rewrite (split_at_slash kind _ K), (split_at_slash a rest A).
    reflexivity.
Qed.

Lemma type_and_name_cut_witness :
  type_and_name "heads" = ("heads", None)
  /\ type_and_name ("heads" ++ "/" ++ "feature") = ("heads", Some "feature")
  /\ forall rest,
       type_and_name ("heads" ++ "/" ++ "feature" ++ "/" ++ rest)
       = ("heads", Some "feature").
Proof. apply (type_and_name_cut "heads" "feature"); reflexivity. Defined.

(* ===================================================================== *)
(** ** What the inventories hold *)
(* ===================================================================== *)

Section Shapes.
Context `{OS}.

Lemma set_Entries Q k v (m : JsMap.t) :
  Q k v -> Entries Q m -> Entries Q (JsMap.set k v m).
Proof.
  intros Qkv E n c I. destruct (set_In k v m n c I) as [[-> ->] | J]; auto.
Qed.

Lemma set_Wf k v (m : JsMap.t) : JsMap.Wf m -> JsMap.Wf (JsMap.set k v m).
Proof.
  unfold JsMap.Wf. induction m as [| [k' v'] rest IH]; simpl; intros W.
  - repeat constructor. simpl. tauto.
  - inversion W as [| ? ? NI ND]; subst.
    destruct (String.eqb_spec k' k) as [-> | N]; simpl.
    + now constructor.
    + constructor; [| auto]. intros I.
      destruct (set_keys k v rest k' I); [congruence | contradiction].
Qed.

Lemma fold_left_kept {S} (Inv : S -> Prop) (step : S -> string -> S) lines m :
  (forall m line, Inv m -> Inv (step m line)) -> Inv m -> Inv (fold_left step lines m).
Proof. intros St. revert m. induction lines as [| line rest IH]; simpl; auto. Qed.

Lemma add_ref_line_kept kind m line :
  kind = "heads" \/ kind = "tags" ->
  JsMap.Wf m /\ Entries LocalEntry m ->
  JsMap.Wf (add_ref_line kind m line) /\ Entries LocalEntry (add_ref_line kind m line).
Proof.
  intros K [W E]. unfold add_ref_line.
  destruct (Js.split " " line) as [| name [| sha rest]]; auto.
  destruct (nonempty name && nonempty sha) eqn:C; auto.
  apply andb_true_iff in C as [C1 C2].
  split; [now apply set_Wf |]. apply set_Entries; [| exact E].
  split; [now apply nonempty_neq |]. exists name. split; [now apply nonempty_neq |].
  destruct K as [-> | ->]; [left | right]; reflexivity.
Qed.

Lemma span_all p s : all_chars p (fst (span p s)) = true.
Proof.
  induction s as [| c s IH]; simpl; [reflexivity |].
  destruct (p c) eqn:E; [| reflexivity].
  destruct (span p s) as [a b]. simpl in *. now rewrite E.
Qed.

Lemma add_remote_head_kept m line :
  JsMap.Wf m /\ Entries RemoteEntry m ->
  JsMap.Wf (add_remote_head m line) /\ Entries RemoteEntry (add_remote_head m line).
Proof.
  intros [W E]. unfold add_remote_head.
  destruct (match_remote_head line) as [[name sha] |] eqn:M; auto.
  split; [now apply set_Wf |]. apply set_Entries; [| exact E].
  unfold match_remote_head in M.
  destruct (String.prefix _ line); [| discriminate].
  destruct (Js.split "/" _) as [| remote [| piece pieces]]; try discriminate.
  destruct (rev _) as [| sha' [| before befores]]; try discriminate.
  destruct (nonempty remote && dot_plus _ && hex_plus sha') eqn:C; [| discriminate].
  injection M as <- <-. apply andb_true_iff in C as [C C3].
  apply andb_true_iff in C as [_ C2].
  split; [exact C3 |]. eexists. split; [exact C2 | now left].
Qed.

Lemma add_remote_tag_kept m line :
  JsMap.Wf m /\ Entries RemoteEntry m ->
  JsMap.Wf (add_remote_tag m line) /\ Entries RemoteEntry (add_remote_tag m line).
Proof.
  intros [W E]. unfold add_remote_tag.
  destruct (match_remote_tag line) as [[sha name] |] eqn:M; auto.
  destruct (Js.endsWith "^{}" name) eqn:P; simpl; auto.
  split; [now apply set_Wf |]. apply set_Entries; [| exact E].
  unfold match_remote_tag in M.
  pose proof (span_all is_hex line) as HX.
  destruct (span is_hex line) as [sha' rest].
  destruct (span Js.is_space rest) as [spaces rest'].
  destruct (nonempty sha' && nonempty spaces && String.prefix "refs/tags/" rest'
            && dot_plus (drop 10 rest')) eqn:C; [| discriminate].
  injection M as <- <-. simpl in HX.
  apply andb_true_iff in C as [C C4]. apply andb_true_iff in C as [C _].
  apply andb_true_iff in C as [C1 _].
  split; [unfold hex_plus; now rewrite C1, HX |].
  eexists. split; [exact C4 | right; auto].
Qed.

(** X5.  [getLocalRefs] never throws.  Its inventory holds each name once;
    every name is [heads/] or [tags/] followed by a short name that is not
    empty, and no commit is empty. *)
Theorem getLocalRefs_entries (repoPath : string) (w : World) :
  exists m w' tr,
    getLocalRefs repoPath w = (Ok m, w', tr)
    /\ JsMap.Wf m /\ Entries LocalEntry m.
Proof.
  unfold getLocalRefs, bind, ret.
  destruct (exec_run (for_each_ref_short "refs/heads/") (Some repoPath) true w)
    as (b & -> & _).
  destruct (exec_run (for_each_ref_short "refs/tags/") (Some repoPath) true
              (snd (execSync (for_each_ref_short "refs/heads/") (Some repoPath) true w)))
    as (t & -> & _).
  do 3 eexists. split; [reflexivity |].
  apply (fold_left_kept (fun m => JsMap.Wf m /\ Entries LocalEntry m));
    [intros; apply add_ref_line_kept; auto |].
  apply (fold_left_kept (fun m => JsMap.Wf m /\ Entries LocalEntry m));
    [intros; apply add_ref_line_kept; auto |].
  split; [constructor | intros n c []].
Qed.

(** X6.  [getRemoteRefs] never throws.  Its inventory holds each name once;
    every commit is a run of lower-case hexadecimal digits that is not
    empty; every name is [heads/] or [tags/] followed by a short name that
    is not empty, and no tag is a peeled tag (a name that ends with [^{}]). *)
Theorem getRemoteRefs_entries (repoPath remoteName : string) (w : World) :
  exists m w' tr,
    getRemoteRefs repoPath remoteName w = (Ok m, w', tr)
    /\ JsMap.Wf m /\ Entries RemoteEntry m.
Proof.
  unfold getRemoteRefs, bind, ret.
  match goal with |- context [exec ?c ?d ?s w] =>
    destruct (exec_run c d s w) as (b & -> & _);
    match goal with |- context [exec ?c' ?d' ?s' ?w1] =>
      destruct (exec_run c' d' s' w1) as (t & -> & _)
    end
  end.
  do 3 eexists. split; [reflexivity |].
  apply (fold_left_kept (fun m => JsMap.Wf m /\ Entries RemoteEntry m));
    [intros; now apply add_remote_tag_kept |].
  apply (fold_left_kept (fun m => JsMap.Wf m /\ Entries RemoteEntry m));
    [intros; now apply add_remote_head_kept |].
  split; [constructor | intros n c []].
Qed.

End Shapes.

(* ===================================================================== *)
(** ** The source notice *)
(* ===================================================================== *)

Module StringFacts.

Lemma app_string_assoc (a b c : string) : (a ++ b) ++ c = a ++ b ++ c.
Proof. induction a as [| x a IH]; simpl; congruence. Qed.

Lemma length_append (a b : string) :
  String.length (a ++ b) = (String.length a + String.length b)%nat.
Proof. induction a as [| x a IH]; simpl; congruence. Qed.

Lemma prefix_append (s t : string) : String.prefix s (s ++ t) = true.
Proof.
  induction s as [| x s IH]; simpl; [now destruct t |].
  destruct (ascii_dec x x); [exact IH | contradiction].
Qed.

Lemma substring_whole (s : string) : String.substring 0 (String.length s) s = s.
Proof. induction s as [| x s IH]; simpl; congruence. Qed.

Lemma substring_past (a s : string) n m :
  String.substring (String.length a + n) m (a ++ s) = String.substring n m s.
Proof. induction a as [| x a IH]; simpl; auto. Qed.

Lemma drop_past (a s : string) : drop (String.length a) (a ++ s) = s.
Proof.
  unfold drop. rewrite <- (Nat.add_0_r (String.length a)) at 1.
  rewrite substring_past, length_append.
  replace (String.length a + String.length s - String.length a)%nat
    with (String.length s) by lia.
  apply substring_whole.
Qed.

Lemma all_chars_append p (a b : string) :
  all_chars p (a ++ b) = all_chars p a && all_chars p b.
Proof.
  induction a as [| x a IH]; simpl; [reflexivity |]. now rewrite IH, andb_assoc.
Qed.

(** The first place of a pattern whose first character does not occur
    before it. *)
Lemma index_past c (p pre tail : string) :
  all_chars (fun b => negb (Ascii.eqb b c)) pre = true ->
  String.index 0 (String c p) (pre ++ String c p ++ tail) = Some (String.length pre).
Proof.
  induction pre as [| b pre IH]; simpl in *.
  - intros _. destruct (ascii_dec c c); [| contradiction].
    now rewrite prefix_append.
  - intros E. apply andb_true_iff in E as [N E]. apply negb_true_iff in N.
    destruct (ascii_dec c b) as [-> | _]; [now rewrite Ascii.eqb_refl in N |].
    now rewrite (IH E).
Qed.

Lemma index_here (p tail : string) :
  p <> "" -> String.index 0 p (p ++ tail) = Some 0%nat.
Proof.
  destruct p as [| c p]; [contradiction |]. intros _.
  exact (index_past c p "" tail eq_refl).
Qed.

End StringFacts.

(** X7.  After a public URL without [<], [addSourceNotice] finds the notice
    it wrote before and takes it out together with the line feeds that
    follow it: the notice is replaced, not stacked, and what is left of a
    README that was a notice followed by [content] is [content] without its
    leading line feeds. *)
Theorem removeNotice_noticeText (publicUrl content : string) :
  angleless publicUrl = true ->
  Js.includes noticeMarker (noticeText publicUrl ++ content) = true
  /\ removeNotice (noticeText publicUrl ++ content) = drop_newlines content.
Proof.
  intros U.
  set (before :=
         Js.nl ++ "> **📦 Mirrored Repository**" ++ Js.nl ++ ">" ++ Js.nl
         ++ "> This repository is automatically mirrored from [" ++ publicUrl
         ++ "](" ++ publicUrl ++ ")." ++ Js.nl
         ++ "> Do not commit directly to this repository." ++ Js.nl).
  set (rest := noticeEnd ++ Js.nl ++ Js.nl ++ content).
  assert (noticeText publicUrl ++ content = noticeMarker ++ before ++ rest) as ->.
  { unfold noticeText, before, rest.
    repeat rewrite StringFacts.app_string_assoc. reflexivity. }
  assert (String.index 0 noticeMarker (noticeMarker ++ before ++ rest) = Some 0%nat)
    as I0 by (apply StringFacts.index_here; discriminate).
  assert (String.index 0 noticeEnd (before ++ rest) = Some (String.length before))
    as I1.
  { apply StringFacts.index_past. subst before. unfold angleless in U.
    repeat rewrite StringFacts.all_chars_append. rewrite U. reflexivity. }
  split; [unfold Js.includes; now rewrite I0 |].
  unfold removeNotice. rewrite I0.
  change (0 + String.length noticeMarker)%nat with (String.length noticeMarker).
  rewrite StringFacts.drop_past, I1.
  change (String.substring 0 0 (noticeMarker ++ before ++ rest)) with "".
  unfold rest at 1. rewrite <- (StringFacts.app_string_assoc before noticeEnd).
  rewrite <- StringFacts.length_append, StringFacts.drop_past.
  reflexivity.
Qed.

Lemma removeNotice_noticeText_witness :
  Js.includes noticeMarker (noticeText "https://example.org/demo.git" ++ "# Demo") = true
  /\ removeNotice (noticeText "https://example.org/demo.git" ++ "# Demo")
     = drop_newlines "# Demo".
Proof.
  apply (removeNotice_noticeText "https://example.org/demo.git" "# Demo").
  reflexivity.
Defined.

Section NoticeDirectory.
Context `{OS}.

Lemma findReadme_found P dir names :
  Runs P (fun found =>
            match found with
            | Some (path, name) => In name names /\ path = path_join dir name
            | None => True
            end) (findReadme dir names).
Proof.
  induction names as [| name rest IH]; simpl; [now apply Runs_ret |].
  eapply Runs_bind; [apply Runs_Traces, Traces_fs_exists | intros there _].
  destruct there; [apply Runs_ret; auto |].
  eapply Runs_weaken; [| | exact IH]; [auto |].
  intros [[path name'] |]; [intros [I E]; auto | auto].
Qed.

Lemma addSourceNotice_body_within dir repoPath publicUrl branch :
  Traces (within dir) (addSourceNotice_body dir repoPath publicUrl branch).
Proof.
  assert (forall content, within dir (EvWrite (path_join dir "README.md") content))
    as WR by (intros; exists "README.md"; simpl; auto).
  apply (Traces_Runs _ (fun _ => True)).
  unfold addSourceNotice_body.
  eapply Runs_bind; [apply Runs_Traces, Traces_fs_mkdir; reflexivity | intros _ _].
  eapply Runs_bind; [apply Runs_exec; now left | intros cloneResult _].
  apply Runs_if; [now apply Runs_ret |].
  eapply Runs_bind; [apply (findReadme_found _ dir readmeNames) | intros found F].
  eapply (Runs_bind _ (fun readme => exists name,
                         In name readmeNames /\ fst readme = path_join dir name)).
  { destruct found as [[path name] |].
    - destruct F as [I ->]. apply Runs_if; [apply Runs_ret; eauto |].
      eapply Runs_bind; [apply Runs_Traces, Traces_fs_write, WR | intros _ _].
      apply Runs_ret. exists "README.md". simpl. auto.
    - eapply Runs_bind; [apply Runs_Traces, Traces_fs_write, WR | intros _ _].
      apply Runs_ret. exists "README.md". simpl. auto. }
  intros readme (name & I & Ep).
  eapply Runs_bind; [apply Runs_Traces, Traces_fs_read | intros currentContent _].
  eapply Runs_bind;
    [apply Runs_Traces, Traces_fs_write; exists name; auto | intros _ _].
  eapply Runs_bind; [apply Runs_exec; now right | intros _ _].
  eapply Runs_bind; [apply Runs_exec; now right | intros _ _].
  eapply Runs_bind; [apply Runs_exec; now right | intros _ _].
  eapply Runs_bind; [apply Runs_exec; now right | intros commitResult _].
  apply Runs_if; [now apply Runs_ret |].
  eapply Runs_bind; [apply Runs_exec; now right | intros pushResult _].
  apply Runs_if; now apply Runs_ret.
Qed.

(** X8.  [addSourceNotice] keeps to its temporary directory: the commands
    it runs have that directory, or none, as working directory; it makes
    and removes that directory and writes only to a README in it.  When it
    is over, the removal of the directory is the last thing it did, or the
    directory does not exist. *)
Theorem addSourceNotice_keeps_to_its_directory (repoPath publicUrl branch : string)
  (w w' : World) (r : Outcome ExecResult.t) (tr : list Event) :
  addSourceNotice repoPath publicUrl branch w = (r, w', tr) ->
  Forall (within (noticeDir w)) tr
  /\ (endsWith (EvRm (noticeDir w)) tr \/ existsSync (noticeDir w) w' = false).
Proof.
  unfold addSourceNotice. intros E.
  apply bind_inv in E as [(e & [=] & _) | (t & w0 & t0 & t1 & [= <- <- <-] & E & ->)].
  fold (noticeDir w) in E. simpl. unfold try_finally in E.
  destruct (addSourceNotice_body (noticeDir w) repoPath publicUrl branch w)
    as [[rb wb] tb] eqn:B.
  pose proof (addSourceNotice_body_within _ _ _ _ _ _ _ _ B) as FB.
  unfold bind, fs_exists in E.
  destruct (existsSync (noticeDir w) wb) eqn:X.
  - unfold fs_rm in E. destruct (rmSync (noticeDir w) wb) as [[u | e] w2];
      injection E as <- <- <-;
      (split; [apply Forall_app; split; [exact FB | repeat constructor] |]);
      left; exists tb; reflexivity.
  - simpl in E. injection E as <- <- <-. rewrite app_nil_r. auto.
Qed.

End NoticeDirectory.

Lemma addSourceNotice_keeps_to_its_directory_witness :
  exists r w' tr,
    addSourceNotice (H := Demo.agreeable) "/cache/demo.git"
      "https://example.org/demo.git" "main" Demo.pulled = (r, w', tr)
    /\ Forall (within (H := Demo.agreeable) (noticeDir (H := Demo.agreeable) Demo.pulled)) tr
    /\ (endsWith (EvRm (noticeDir (H := Demo.agreeable) Demo.pulled)) tr
        \/ existsSync (OS := Demo.agreeable)
             (noticeDir (H := Demo.agreeable) Demo.pulled) w' = false).
Proof.
  do 3 eexists. split; [vm_compute; reflexivity |].
  eapply (addSourceNotice_keeps_to_its_directory (H := Demo.agreeable)
            "/cache/demo.git" "https://example.org/demo.git" "main" Demo.pulled).
  vm_compute. reflexivity.
Defined.

(* ===================================================================== *)
(** ** What [push] and [pull] report *)
(* ===================================================================== *)

Section Reports.
Context `{OS}.

Lemma endsWith_app {A} (e : A) pre tr : endsWith e tr -> endsWith e (pre ++ tr).
Proof. intros (t0 & ->). exists (pre ++ t0)%list. now rewrite app_assoc. Qed.

Lemma Sound_failure message : Sound (pushFailure message).
Proof. split; simpl; [discriminate | intros _; split; [reflexivity | discriminate]]. Qed.

Lemma push_proceed_report repo repoPath w r w' tr :
  push_proceed repo repoPath w = (Ok r, w', tr) ->
  Sound r
  /\ (PushResult.pushed r = true ->
      PushResult.success r = true
      /\ endsWith (EvExec (pushMirror_command "private") (Some repoPath) false) tr).
Proof.
  unfold push_proceed. intros E.
  apply bind_Ok_inv in E as (o & w1 & t1 & t2 & E1 & E2 & ->).
  assert (match o with
          | Some failed => exists message, failed = pushFailure message
          | None => True
          end) as O.
  { revert E1.
    match goal with |- ?m w = _ -> _ =>
      assert (Runs (fun _ => True)
                (fun o => match o with
                          | Some failed => exists message, failed = pushFailure message
                          | None => True
                          end) m) as R
    end.
    { apply Runs_if; [| now apply Runs_ret].
      eapply Runs_bind; [apply Runs_Traces, Traces_emit; exact I | intros _ _].
      eapply Runs_bind with (Q1 := fun _ => True).
      { intros ? ? ? ? _. split; [apply Forall_forall; auto | auto]. }
      intros branch _.
      eapply Runs_bind with (Q1 := fun _ => True).
      { intros ? ? ? ? _. split; [apply Forall_forall; auto | auto]. }
      intros noticeResult _.
      apply Runs_if; apply Runs_ret; eauto. }
    intros E1. exact (proj2 (R _ _ _ _ E1) o eq_refl). }
  destruct o as [failed |].
  - destruct O as (message & ->). injection E2 as <- <- <-.
    split; [apply Sound_failure | discriminate].
  - clear O. unfold pushMirror, console_log, emit, bind, ret, exec in E2.
    destruct (execSync (pushMirror_command "private") (Some repoPath) false w1)
      as [[out | st e m] w2]; simpl in E2; injection E2 as <- <- <-.
    + split; [split; simpl; [reflexivity | discriminate] |].
      intros _. split; [reflexivity |]. apply endsWith_app.
      exists [EvLog ("  Pushing to " ++ RepoConfig.private repo ++ "...")].
      reflexivity.
    + split; [apply Sound_failure | discriminate].
Qed.

(** X9.  Whatever [push] returns, a success carries no error and a failure
    carries one and has pushed nothing; and [pushed] is true only when the
    result is a success and the mirror push is the last thing [push] did. *)
Theorem push_report (repo : RepoConfig.t) (w w' : World) (r : PushResult.t)
  (tr : list Event) :
  push repo w = (Ok r, w', tr) ->
  (PushResult.success r = true -> PushResult.error r = None)
  /\ (PushResult.success r = false ->
      PushResult.pushed r = false /\ PushResult.error r <> None)
  /\ (PushResult.pushed r = true ->
      PushResult.success r = true /\ endsWith (mirrorPush repo) tr).
Proof.
  unfold push. intros E.
  apply bind_Ok_inv in E as (there & w1 & t1 & t2 & E1 & E2 & ->).
  assert (forall w0 t, push_proceed repo (getRepoTempPath (RepoConfig.name repo)) w0
                       = (Ok r, w', t) ->
            Sound r
            /\ (PushResult.pushed r = true ->
                PushResult.success r = true /\ endsWith (mirrorPush repo) t)) as PP
    by (intros w0 t; apply push_proceed_report).
  assert (forall message, r = pushFailure message ->
            forall t, Sound r
                      /\ (PushResult.pushed r = true ->
                          PushResult.success r = true /\ endsWith (mirrorPush repo) t))
    as PF by (intros message -> t; split; [apply Sound_failure | discriminate]).
  cut (Sound r
       /\ (PushResult.pushed r = true ->
           PushResult.success r = true /\ endsWith (mirrorPush repo) (t1 ++ t2)));
    [intros [[S1 S2] S3]; auto |].
  destruct there; simpl in E2.
  2: { injection E2 as <- <- <-. eapply PF; reflexivity. }
  destruct (isTrue (RepoConfig.markSource repo)); simpl in E2.
  { destruct (PP _ _ E2) as [S P]. split; [exact S |].
    intros X. destruct (P X). split; [assumption | now apply endsWith_app]. }
  apply bind_Ok_inv in E2 as (s & w2 & t3 & t4 & E3 & E4 & ->).
  destruct (StatusResult.canPush s); simpl in E4.
  2: { injection E4 as <- <- <-. eapply PF; reflexivity. }
  destruct (StatusResult.hasChanges s); simpl in E4.
  2: { injection E4 as <- <- <-. split; [split; simpl; [auto | discriminate] |].
       discriminate. }
  destruct (PP _ _ E4) as [S P]. split; [exact S |].
  intros X. destruct (P X). split; [assumption |]. now apply endsWith_app, endsWith_app.
Qed.

End Reports.

Lemma push_report_witness :
  exists r w' tr,
    push (H := Demo.fastForward) (Demo.repo None) Demo.pulled = (Ok r, w', tr)
    /\ PushResult.pushed r = true
    /\ endsWith (mirrorPush (H := Demo.fastForward) (Demo.repo None)) tr.
Proof.
  edestruct (push_report (H := Demo.fastForward) (Demo.repo None) Demo.pulled)
    as (_ & _ & P); [vm_compute; reflexivity |].
  do 3 eexists. split; [vm_compute; reflexivity |].
  split; [reflexivity | apply P; reflexivity].
Defined.

Section Pull.
Context `{OS}.

Lemma Does_ret {A} (Q : A -> list Event -> Prop) (a : A) : Q a [] -> Does (ret a) Q.
Proof. intros Qa w. exists a, w, []. auto. Qed.

Lemma Does_bind {A B} (Q1 : A -> list Event -> Prop) (Q : B -> list Event -> Prop)
  (m : M A) (f : A -> M B) :
  Does m Q1 ->
  (forall a t1, Q1 a t1 -> Does (f a) (fun b t2 => Q b (t1 ++ t2)%list)) ->
  Does (bind m f) Q.
Proof.
  intros Hm Hf w. destruct (Hm w) as (a & w1 & t1 & E1 & Q1a).
  destruct (Hf a t1 Q1a w1) as (b & w2 & t2 & E2 & Qb).
  exists b, w2, (t1 ++ t2)%list. rewrite (bind_run _ _ _ _ _ _ E1), E2. auto.
Qed.

Lemma Does_exec (Q : ExecResult.t -> list Event -> Prop) command cwd silent :
  (forall r, Q r [EvExec command cwd silent]) -> Does (exec command cwd silent) Q.
Proof.
  intros Qr w. destruct (exec_run command cwd silent w) as (r & E & _). eauto.
Qed.

Lemma Does_emit (Q : unit -> list Event -> Prop) e : Q tt [e] -> Does (emit e) Q.
Proof. intros Qe w. exists tt, w, [e]. auto. Qed.

Lemma Does_if {A} (Q : A -> list Event -> Prop) (b : bool) (m1 m2 : M A) :
  Does m1 Q -> Does m2 Q -> Does (if b then m1 else m2) Q.
Proof. destruct b; auto. Qed.

Lemma Does_weaken {A} (Q Q' : A -> list Event -> Prop) (m : M A) :
  (forall a tr, Q a tr -> Q' a tr) -> Does m Q -> Does m Q'.
Proof.
  intros QQ D w. destruct (D w) as (a & w' & tr & E & Qa). eauto 6.
Qed.

Lemma addRemote_does repoPath name url :
  Does (addRemote repoPath name url) (fun _ tr => Forall (remoteCommand repoPath) tr).
Proof.
  assert (forall c, String.prefix "git remote " ("git remote " ++ c) = true) as P
    by (intros; apply StringFacts.prefix_append).
  unfold addRemote.
  eapply Does_bind with (Q1 := fun _ tr => Forall (remoteCommand repoPath) tr).
  { apply Does_exec. intros r. repeat constructor. }
  intros existing t1 F1.
  repeat apply Does_if;
    try (apply Does_exec; intros r; apply Forall_app; split; [exact F1 |];
         repeat constructor).
  apply Does_ret. now rewrite app_nil_r.
Qed.

(** X10.  Once the cache directory is there, [pull] does not throw.  It
    fetches from origin when the mirror is in the cache and clones when it
    is not, never both, and [isNew] says which; whatever it runs after that
    is a [git remote] command in the mirror. *)
Theorem pull_fetches_or_clones (repo : RepoConfig.t) (w w0 w1 : World)
  (t0 t1 : list Event) (there : bool) :
  ensureCacheDir w = (Ok tt, w0, t0) ->
  repoExists (getRepoTempPath (RepoConfig.name repo)) w0 = (Ok there, w1, t1) ->
  exists r w' t2,
    pull repo w = (Ok r, w', (t0 ++ t1 ++ pullStart repo there ++ t2)%list)
    /\ PullResult.isNew r = negb there
    /\ PullResult.repoPath r = getRepoTempPath (RepoConfig.name repo)
    /\ Forall (remoteCommand (getRepoTempPath (RepoConfig.name repo))) t2.
Proof.
  intros E0 E1. unfold pull.
  set (repoPath := getRepoTempPath (RepoConfig.name repo)) in *.
  match goal with
  | |- context [bind (repoExists repoPath) ?f] =>
      assert (Does (f there)
                (fun r tr =>
                   exists t2,
                     tr = (pullStart repo there ++ t2)%list
                     /\ PullResult.isNew r = negb there
                     /\ PullResult.repoPath r = repoPath
                     /\ Forall (remoteCommand repoPath) t2)) as D
  end.
  { cbv beta. eapply Does_bind with
      (Q1 := fun fetched tr =>
               tr = pullStart repo there
               /\ match fetched with
                  | Some failed => PullResult.isNew failed = negb there
                                   /\ PullResult.repoPath failed = repoPath
                  | None => True
                  end).
    - destruct there; unfold pullStart, fetchOrigin, cloneMirror, console_log;
        fold repoPath;
        (eapply Does_bind with (Q1 := fun _ tr => tr = [_]);
         [apply Does_emit; reflexivity | intros _ t ->]);
        (eapply Does_bind with (Q1 := fun _ tr => tr = [_]);
         [apply Does_exec; reflexivity | intros result t ->]);
        apply Does_if; apply Does_ret; simpl; auto.
    - intros [failed |] t [-> F].
      + apply Does_ret. exists []. destruct F. now rewrite !app_nil_r.
      + eapply Does_bind; [apply addRemote_does | intros remoteResult t2 F2].
        apply Does_if; apply Does_ret; exists t2; now rewrite app_nil_r. }
  destruct (D w1) as (r & w' & tr & E & t2 & -> & P).
  exists r, w', t2. split; [| exact P].
  rewrite (bind_run _ _ _ _ _ _ E0), (bind_run _ _ _ _ _ _ E1), E. reflexivity.
Qed.

End Pull.

Lemma pull_fetches_or_clones_witness :
  exists r w' tr,
    pull (H := Demo.git) (Demo.repo None) Demo.pulled = (Ok r, w', tr)
    /\ PullResult.isNew r = false.
Proof.
  edestruct (pull_fetches_or_clones (H := Demo.git) (Demo.repo None) Demo.pulled)
    as (r & w' & t2 & E & N & _); [vm_compute; reflexivity .. |].
  exists r, w'. eexists. split; [exact E | exact N].
Defined.

Section PullReport.
Context `{OS}.

Lemma ensureCacheDir_quiet : Traces quiet ensureCacheDir.
Proof. unfold ensureCacheDir, quiet. traces. Qed.

(** X11.  No run of [pull] runs a push.  What [pull] returns names the
    path of the mirror in the cache, and is a success without error or a
    failure with one. *)
Theorem pull_report (repo : RepoConfig.t) (w w' : World)
  (r : Outcome PullResult.t) (tr : list Event) :
  pull repo w = (r, w', tr) ->
  Forall quiet tr
  /\ forall result, r = Ok result ->
       PullResult.repoPath result = getRepoTempPath (RepoConfig.name repo)
       /\ (PullResult.success result = true -> PullResult.error result = None)
       /\ (PullResult.success result = false -> PullResult.error result <> None).
Proof.
  revert w r w' tr.
  change (Runs quiet
            (fun result =>
               PullResult.repoPath result = getRepoTempPath (RepoConfig.name repo)
               /\ (PullResult.success result = true -> PullResult.error result = None)
               /\ (PullResult.success result = false ->
                   PullResult.error result <> None))
            (pull repo)).
  unfold pull.
  eapply Runs_bind; [apply Runs_Traces, ensureCacheDir_quiet | intros _ _].
  eapply Runs_bind; [apply Runs_Traces, repoExists_quiet | intros there _].
  eapply Runs_bind with
    (Q1 := fun fetched =>
             match fetched with
             | Some failed =>
                 PullResult.repoPath failed = getRepoTempPath (RepoConfig.name repo)
                 /\ PullResult.success failed = false
                 /\ PullResult.error failed <> None
             | None => True
             end).
  - unfold fetchOrigin, cloneMirror, console_log.
    destruct there;
      (eapply Runs_bind; [apply Runs_Traces, Traces_emit; reflexivity | intros _ _]);
      (eapply Runs_bind; [apply Runs_exec; reflexivity | intros result _]);
      apply Runs_if; apply Runs_ret; simpl; auto; repeat split; discriminate.
  - intros [failed |] F.
    + apply Runs_ret. destruct F as (P & S & E). rewrite S. repeat split; auto.
      discriminate.
    + eapply Runs_bind.
      * apply Runs_Traces. unfold addRemote, quiet. traces.
      * intros remoteResult _. apply Runs_if; apply Runs_ret; simpl;
          repeat split; auto; discriminate.
Qed.

End PullReport.

Lemma pull_report_witness :
  exists r w' tr,
    pull (H := Demo.git) (Demo.repo None) Demo.fresh = (Ok r, w', tr)
    /\ Forall quiet tr
    /\ PullResult.success r = false /\ PullResult.error r <> None.
Proof.
  do 3 eexists. split; [vm_compute; reflexivity |].
  edestruct (pull_report (H := Demo.git) (Demo.repo None) Demo.fresh) as (Q & R);
    [vm_compute; reflexivity |].
  split; [exact Q |].
  destruct (R _ eq_refl) as (_ & _ & F). split; [reflexivity | exact (F eq_refl)].
Defined.

Section Clean.
Context `{OS}.

(** X12.  [clean] removes nothing but the mirror of the repository in the
    cache, and removes it exactly when the path exists and git finds a
    repository there: a path that is missing, or that holds something git
    does not recognise, is left as it is, and then [clean] returns
    normally. *)
Theorem clean_removes_only_a_mirror (repo : RepoConfig.t) (w w' : World)
  (r : Outcome unit) (tr : list Event) :
  clean repo w = (r, w', tr) ->
  let repoPath := getRepoTempPath (RepoConfig.name repo) in
  let probe := EvExec "git rev-parse --git-dir" (Some repoPath) true in
  Forall (fun e => e = probe \/ e = EvRm repoPath) tr
  /\ (In (EvRm repoPath) tr <->
      existsSync repoPath w = true
      /\ succeeded (fst (execSync "git rev-parse --git-dir" (Some repoPath) true w))
         = true)
  /\ (~ In (EvRm repoPath) tr -> r = Ok tt).
Proof.
  unfold clean, repoExists, fs_exists, fs_rm, exec, bind, ret. cbv zeta.
  destruct (existsSync _ w); simpl.
  - destruct (execSync _ _ _ w) as [[out | st e m] w1]; simpl.
    + destruct (rmSync _ w1) as [r1 w2]. intros [= <- <- <-].
      split; [repeat (apply Forall_cons; [auto |]); apply Forall_nil |]. split.
      * split; [auto | intros _; simpl; auto].
      * intros N. exfalso. apply N. simpl. auto.
    + intros [= <- <- <-]. split; [repeat (apply Forall_cons; [auto |]); apply Forall_nil |]. split.
      * split; [intros [[=] | []] | intros [_ [=]]].
      * reflexivity.
  - intros [= <- <- <-]. split; [constructor |]. split.
    + split; [intros [] | intros [[=] _]].
    + reflexivity.
Qed.

End Clean.

Lemma clean_removes_only_a_mirror_witness :
  exists w' tr,
    clean (H := Demo.git) (Demo.repo None) Demo.pulled = (Ok tt, w', tr)
    /\ In (EvRm "/home/user/.repo-sync/repos/demo.git") tr
    /\ existsSync (OS := Demo.git) "/home/user/.repo-sync/repos/demo.git" w' = false.
Proof.
  do 2 eexists. split; [vm_compute; reflexivity |].
  edestruct (clean_removes_only_a_mirror (H := Demo.git) (Demo.repo None) Demo.pulled)
    as (_ & R & _); [vm_compute; reflexivity |].
  split; [apply R; split; vm_compute; reflexivity | vm_compute; reflexivity].
Defined.

Section DefaultBranch.
Context `{OS}.



End DefaultBranch.


(* ===================================================================== *)
(** ** The command line *)
(* ===================================================================== *)

Section CommandLine.

(** What the loop of [parseArgs] leaves in its variables, from what they
    held and what is left of the command line. *)
Lemma parseArgs_from_reads (n : nat) (args : list string) (acc : ParsedArgs.t) :
  (length args <= n)%nat ->
  (nonempty (ParsedArgs.command acc) = false -> ParsedArgs.repoName acc = None) ->
  let line := read_args args in
  let parsed := parseArgs_from args acc in
  ParsedArgs.help parsed = ParsedArgs.help acc || existsb is_help line
  /\ ParsedArgs.yes parsed = ParsedArgs.yes acc || existsb is_yes line
  /\ ParsedArgs.configPath parsed = last_config line (ParsedArgs.configPath acc)
  /\ ParsedArgs.command parsed
     = (if nonempty (ParsedArgs.command acc) then ParsedArgs.command acc
        else nth 0 (words line) "")
  /\ Js.or_null (ParsedArgs.repoName parsed)
     = (if nonempty (ParsedArgs.command acc)
        then if Js.truthy (ParsedArgs.repoName acc) then ParsedArgs.repoName acc
             else nth_error (words line) 0
        else nth_error (words line) 1).
Proof.
  revert args acc. induction n as [| n IH]; intros args acc L I.
  { destruct args; [| simpl in L; lia].
    cbn [read_args parseArgs_from existsb words last_config nth nth_error].
    rewrite !orb_false_r. split; [| split; [| split; [| split]]]; try reflexivity.
    - now destruct (ParsedArgs.command acc).
    - destruct (nonempty (ParsedArgs.command acc)) eqn:C.
      + unfold Js.or_null. now destruct (Js.truthy (ParsedArgs.repoName acc)).
      + now rewrite (I eq_refl). }
  destruct args as [| arg rest].
  { apply (IH [] acc); [simpl; lia | exact I]. }
  simpl in L. cbn [read_args parseArgs_from].
  destruct ((arg =? "-h") || (arg =? "--help")).
  { match goal with |- context [parseArgs_from rest ?a] =>
      destruct (IH rest a) as (Hh & Hy & Hc & Hm & Hr); [lia | exact I |] end.
    cbn [ParsedArgs.help ParsedArgs.yes ParsedArgs.configPath ParsedArgs.command
         ParsedArgs.repoName] in *.
    cbn [existsb is_help is_yes last_config words].
    rewrite Hh, Hy, Hc, Hm, Hr, orb_true_r. auto. }
  destruct ((arg =? "-y") || (arg =? "--yes")).
  { match goal with |- context [parseArgs_from rest ?a] =>
      destruct (IH rest a) as (Hh & Hy & Hc & Hm & Hr); [lia | exact I |] end.
    cbn [ParsedArgs.help ParsedArgs.yes ParsedArgs.configPath ParsedArgs.command
         ParsedArgs.repoName] in *.
    cbn [existsb is_help is_yes last_config words].
    rewrite Hh, Hy, Hc, Hm, Hr, orb_true_r. auto. }
  destruct ((arg =? "-c") || (arg =? "--config")).
  { destruct rest as [| value rest'].
    - cbn [existsb words last_config nth nth_error is_help is_yes
           ParsedArgs.help ParsedArgs.yes ParsedArgs.configPath ParsedArgs.command
           ParsedArgs.repoName].
      rewrite !orb_false_r. split; [| split; [| split; [| split]]]; try reflexivity.
      + now destruct (ParsedArgs.command acc).
      + destruct (nonempty (ParsedArgs.command acc)) eqn:C.
        * unfold Js.or_null. now destruct (Js.truthy (ParsedArgs.repoName acc)).
        * now rewrite (I eq_refl).
    - match goal with |- context [parseArgs_from rest' ?a] =>
        destruct (IH rest' a) as (Hh & Hy & Hc & Hm & Hr);
          [simpl in L; lia | exact I |] end.
      cbn [ParsedArgs.help ParsedArgs.yes ParsedArgs.configPath ParsedArgs.command
           ParsedArgs.repoName] in *.
      cbn [existsb is_help is_yes last_config words].
      rewrite Hh, Hy, Hc, Hm, Hr. auto. }
  cbn [existsb is_help is_yes last_config words orb].
  destruct (nonempty (ParsedArgs.command acc)) eqn:C; cbn [negb].
  - destruct (Js.truthy (ParsedArgs.repoName acc)) eqn:R; cbn [negb].
    + destruct (IH rest acc) as (Hh & Hy & Hc & Hm & Hr);
        [lia | intros; congruence |].
      rewrite C, R in *. rewrite Hh, Hy, Hc, Hm, Hr.
      destruct (nonempty arg); auto.
    + match goal with |- context [parseArgs_from rest ?a] =>
        destruct (IH rest a) as (Hh & Hy & Hc & Hm & Hr);
          [lia | cbn; intros; congruence |] end.
      cbn [ParsedArgs.help ParsedArgs.yes ParsedArgs.configPath ParsedArgs.command
           ParsedArgs.repoName] in *.
      rewrite C in *. rewrite Hh, Hy, Hc, Hm, Hr.
      destruct arg; cbn; auto.
  - match goal with |- context [parseArgs_from rest ?a] =>
      destruct (IH rest a) as (Hh & Hy & Hc & Hm & Hr);
        [lia | cbn; intros _; exact (I eq_refl) |] end.
    cbn [ParsedArgs.help ParsedArgs.yes ParsedArgs.configPath ParsedArgs.command
         ParsedArgs.repoName] in *.
    rewrite Hh, Hy, Hc, Hm, Hr, (I eq_refl).
    destruct arg; cbn; auto.
Qed.

(** X14.  [parseArgs] reads options wherever they stand and takes the
    argument after a config option as the path, whatever it looks like; the
    last config option decides, and one without a value clears the path.
    The command is the first operand that is not the empty string and the
    repository the second; further operands are dropped. *)
Theorem parseArgs_reads (args : list string) :
  let line := read_args args in
  let parsed := parseArgs args in
  ParsedArgs.help parsed = existsb is_help line
  /\ ParsedArgs.yes parsed = existsb is_yes line
  /\ ParsedArgs.configPath parsed = last_config line None
  /\ ParsedArgs.command parsed = nth 0 (words line) ""
  /\ Js.or_null (ParsedArgs.repoName parsed) = nth_error (words line) 1.
Proof.
  apply (parseArgs_from_reads (length args)); [apply le_n | reflexivity].
Qed.

End CommandLine.

Example parseArgs_config_takes_anything :
  parseArgs ["-c"; "-h"; "push"; ""; "lib"; "more"; "--yes"; "--config"]
  = {| ParsedArgs.command := "push"; ParsedArgs.repoName := Some "lib";
       ParsedArgs.configPath := None; ParsedArgs.yes := true;
       ParsedArgs.help := false |}.
Proof. reflexivity. Qed.

(* ===================================================================== *)
(** ** Versions *)
(* ===================================================================== *)

Module VersionFacts.

Lemma span_app p (a rest : string) :
  all_chars p a = true ->
  match rest with String c _ => p c = false | EmptyString => True end ->
  span p (a ++ rest) = (a, rest).
Proof.
  intros A R. induction a as [| c a IH]; simpl in *.
  - destruct rest as [| c rest]; [reflexivity |]. simpl. now rewrite R.
  - apply andb_true_iff in A as [C A]. now rewrite C, (IH A).
Qed.

Lemma span_parts p (s : string) :
  s = fst (span p s) ++ snd (span p s)
  /\ match snd (span p s) with String c _ => p c = false | EmptyString => True end.
Proof.
  induction s as [| c s [IH1 IH2]]; simpl; [auto |].
  destruct (p c) eqn:C; simpl.
  - destruct (span p s) as [a b]. simpl in *. split; [congruence | exact IH2].
  - auto.
Qed.


Lemma digits_uint d : all_chars Js.is_digit (NilEmpty.string_of_uint d) = true.
Proof. induction d; simpl; auto. Qed.

Lemma digits_of_N n :
  all_chars Js.is_digit (Js.of_N n) = true /\ nonempty (Js.of_N n) = true.
Proof.
  split; [apply digits_uint |]. unfold Js.of_N.
  pose proof (JsFacts.to_uint_nonnil n). now destruct (N.to_uint n).
Qed.

Lemma of_Z_of_N z : (0 <= z)%Z -> Js.of_Z z = Js.of_N (Z.to_N z).
Proof. destruct z; [reflexivity | reflexivity | lia]. Qed.




Lemma parse_format (a b c : Z) (suffix : string) :
  (0 <= a)%Z -> (0 <= b)%Z -> (0 <= c)%Z -> is_suffix suffix = true ->
  parseVersion
    (formatVersion {| Version.major := Some a; Version.minor := Some b;
                      Version.patch := Some c; Version.suffix := suffix |})
  = Some {| Version.major := Some a; Version.minor := Some b;
            Version.patch := Some c; Version.suffix := suffix |}.
Proof.
  intros A B C S. unfold formatVersion, string_of_number.
  cbn [Version.major Version.minor Version.patch Version.suffix].
  rewrite !of_Z_of_N by assumption.
  destruct (digits_of_N (Z.to_N a)) as [Da Na].
  destruct (digits_of_N (Z.to_N b)) as [Db Nb].
  destruct (digits_of_N (Z.to_N c)) as [Dc Nc].
  apply andb_true_iff in S as [S1 S2]. apply negb_true_iff in S2.
  unfold parseVersion.
  rewrite (span_app Js.is_digit _ _ Da) by reflexivity. cbn [String.append].
  rewrite (span_app Js.is_digit _ _ Db) by reflexivity. cbn [String.append].
  rewrite (span_app Js.is_digit (Js.of_N (Z.to_N c)) suffix Dc).
  - rewrite Na, Nb, Nc, S2, !JsFacts.parseInt10_of_N, !Z2N.id by assumption.
    reflexivity.
  - destruct suffix; [exact I |]. now apply negb_true_iff in S1.
Qed.



End VersionFacts.

Section Bumping.

Ltac numbered N a b c :=
  destruct N as (a & b & c & ?Ea & ?Eb & ?Ec & ?La & ?Lb & ?Lc).

(** X15.  A version reads back as it was written: [parseVersion] undoes
    [formatVersion] when the three numbers are safe integers from 0 and the
    suffix starts with no digit and holds no line terminator. *)
Theorem parseVersion_formatVersion (parts : Version.t) :
  Numbered MAX_SAFE_INTEGER parts ->
  is_suffix (Version.suffix parts) = true ->
  parseVersion (formatVersion parts) = Some parts.
Proof.
  intros N S. numbered N a b c. destruct parts as [major minor patch suffix].
  simpl in *. subst. apply VersionFacts.parse_format; tauto.
Qed.

Lemma parseVersion_formatVersion_witness :
  parseVersion "1.20.3-beta.1"
  = Some {| Version.major := Some 1%Z; Version.minor := Some 20%Z;
            Version.patch := Some 3%Z; Version.suffix := "-beta.1" |}.
Proof.
  apply (parseVersion_formatVersion
           {| Version.major := Some 1%Z; Version.minor := Some 20%Z;
              Version.patch := Some 3%Z; Version.suffix := "-beta.1" |}).
  - exists 1%Z, 20%Z, 3%Z. vm_compute. intuition congruence.
  - reflexivity.
Defined.






End Bumping.

(* ===================================================================== *)
(** ** What [status] does to the mirror *)
(* ===================================================================== *)

Section Inspection.
Context `{OS}.
Variable repo : RepoConfig.t.

Ltac inspections :=
  repeat first
    [ apply Traces_compareRefs; intros ? ?; simpl; auto
    | apply Traces_ret
    | apply Traces_bind; [| intros ? ]
    | apply Traces_exec; simpl; auto
    | apply Traces_emit; exact I
    | apply Traces_fs_exists
    | apply Traces_fs_mtime
    | apply Traces_if ].

(** X18.  [status] only looks: it creates, writes and removes no file, and
    each command it runs is the repository check, the fetch from private, an
    inventory or an ancestry or count query, run in the mirror with its
    output captured. *)
Theorem status_only_inspects (w w' : World) (r : Outcome StatusResult.t)
  (tr : list Event) :
  status repo w = (r, w', tr) ->
  Forall (inspects (getRepoTempPath (RepoConfig.name repo))) tr.
Proof.
  revert w r w' tr.
  change (Traces (inspects (getRepoTempPath (RepoConfig.name repo))) (status repo)).
  unfold status, repoExists, getRepoCloneTime, console_log, fetchRemote,
    getLocalRefs, getRemoteRefs.
  inspections.
Qed.


Lemma Returns_emit e : Returns (emit e).
Proof. intros w. exists tt, w, [e]. reflexivity. Qed.

Lemma Returns_fs_exists path : Returns (fs_exists path).
Proof. intros w. do 3 eexists. reflexivity. Qed.

(** X19.  Where [statSync] gives the times of what exists, [status] does
    not throw: a git command that fails is part of the result it
    returns. *)
Theorem status_returns (w : World) :
  StatsWhatExists ->
  exists s w' tr, status repo w = (Ok s, w', tr).
Proof.
  intros stats. revert w. change (Returns (status repo)).
  unfold status, repoExists, console_log, fetchRemote, getLocalRefs, getRemoteRefs.
  apply Returns_bind.
  { apply Returns_bind; [apply Returns_fs_exists | intros there].
    apply Returns_if; [apply Returns_ret |].
    apply Returns_bind; [apply Returns_exec | intros; apply Returns_ret]. }
  intros there. apply Returns_if; [apply Returns_ret |].
  apply Returns_bind.
  { unfold getRepoCloneTime, fs_exists, fs_mtime, bind, ret. intros w.
    destruct (existsSync _ w) eqn:E; simpl; [| eauto].
    destruct (stats _ _ E) as (t & ->). eauto. }
  intros pulledAt.
  repeat first
    [ apply Returns_ret
    | apply Returns_exec
    | apply Returns_emit
    | apply Returns_compareRefs
    | apply Returns_if
    | apply Returns_bind; [| intros ? ] ].
Qed.

End Inspection.

Lemma status_only_inspects_witness :
  exists s w' tr,
    status (H := Demo.git) (Demo.repo None) Demo.pulled = (Ok s, w', tr)
    /\ Forall (inspects "/home/user/.repo-sync/repos/demo.git") tr
    /\ w' = Demo.pulled.
Proof.
  do 3 eexists. split; [vm_compute; reflexivity |]. split; [| reflexivity].
  eapply (status_only_inspects (H := Demo.git) (Demo.repo None) Demo.pulled).
  vm_compute. reflexivity.
Defined.

Lemma status_returns_witness :
  exists s w' tr, status (H := Demo.broken) (Demo.repo None) Demo.pulled = (Ok s, w', tr).
Proof.
  apply (status_returns (H := Demo.broken)).
  intros path w E. simpl in *. rewrite E. eauto.
Defined.

(* ===================================================================== *)
(** ** The configuration file *)
(* ===================================================================== *)

Section Configuration.
Context `{OS} `{Yaml}.

(** [validateRepoConfig] touches nothing, and returns on the valid
    repositories only. *)
Lemma validateRepoConfig_run (repo : Value) (w : World) :
  (validateRepoConfig repo w = (Ok tt, w, []) /\ ValidRepo repo)
  \/ (exists e, validateRepoConfig repo w = (Throw e, w, []) /\ ~ ValidRepo repo).
Proof.
  unfold validateRepoConfig, ValidRepo, outcome, bind, throw, ret.
  destruct (string_property "name" repo) as [[name |] | e].
  - destruct (string_property "public" repo) as [[public |] | e].
    + destruct (string_property "private" repo) as [[private |] | e].
      * left. eauto 7.
      * right. eexists. split; [reflexivity |]. intros (? & ? & ? & _ & _ & [=]).
      * right. eexists. split; [reflexivity |]. intros (? & ? & ? & _ & _ & [=]).
    + right. eexists. split; [reflexivity |]. intros (? & ? & ? & _ & [=] & _).
    + right. eexists. split; [reflexivity |]. intros (? & ? & ? & _ & [=] & _).
  - right. eexists. split; [reflexivity |]. intros (? & ? & ? & [=] & _).
  - right. eexists. split; [reflexivity |]. intros (? & ? & ? & [=] & _).
Qed.

Lemma validate_all (repos : list Value) (w : World) :
  (forM repos (fun _ repo => validateRepoConfig repo) tt w = (Ok tt, w, [])
   /\ Forall ValidRepo repos)
  \/ (exists e, forM repos (fun _ repo => validateRepoConfig repo) tt w = (Throw e, w, [])
                /\ ~ Forall ValidRepo repos).
Proof.
  induction repos as [| repo repos IH]; simpl.
  - left. split; [reflexivity | constructor].
  - unfold bind.
    destruct (validateRepoConfig_run repo w) as [[-> V] | (e & -> & N)].
    + destruct IH as [[-> Vs] | (e & -> & N)].
      * left. split; [reflexivity | now constructor].
      * right. exists e. split; [reflexivity |]. intros F. inversion F. contradiction.
    + right. exists e. split; [reflexivity |]. intros F. inversion F. contradiction.
Qed.

Lemma valid_is_complete (repo : Value) : ValidRepo repo -> Complete (as_RepoConfig repo).
Proof.
  intros (name & public & private & N & P & Q).
  unfold Complete, as_RepoConfig, string_property in *. simpl.
  destruct (property "name" repo) as [[[| | | [| c s] | |] |] |]; try discriminate N.
  destruct (property "public" repo) as [[[| | | [| c' s'] | |] |] |]; try discriminate P.
  destruct (property "private" repo) as [[[| | | [| c'' s''] | |] |] |];
    try discriminate Q.
  repeat split; discriminate.
Qed.

(** What [loadConfig] does once the document is parsed. *)
Lemma loadConfig_run (configPath : option string) (w : World) (content : string)
  (document : Value) :
  existsSync (getConfigPath configPath) w = true ->
  readFileSync (getConfigPath configPath) w = Ok content ->
  parseYaml content = Ok document ->
  (exists repos,
     property "repos" document = Ok (Some (VArray repos)) /\ Forall ValidRepo repos
     /\ loadConfig configPath w
        = (Ok {| Config.repos := map as_RepoConfig repos |}, w, []))
  \/ (exists e,
        loadConfig configPath w = (Throw e, w, [])
        /\ ~ exists repos,
               property "repos" document = Ok (Some (VArray repos))
               /\ Forall ValidRepo repos).
Proof.
  intros E R P. unfold loadConfig, fs_exists, fs_read, outcome, bind, throw, ret.
  rewrite E. cbv beta iota zeta delta [negb].
  rewrite R. cbv beta iota zeta. rewrite P. cbv beta iota zeta.
  destruct (property "repos" document) as [[[| b | n | s | repos | fields] |] | e];
    try (right; eexists; split; [reflexivity |]; intros (? & [=] & _)).
  destruct (validate_all repos w) as [[-> V] | (e & -> & N)].
  - left. exists repos. auto.
  - right. exists e. split; [reflexivity |]. intros (? & [= <-] & V). contradiction.
Qed.

Ltac stuck L :=
  unfold loadConfig, fs_exists, fs_read, outcome, bind, throw in L;
  cbv beta zeta in L;
  repeat match goal with
         | E : existsSync _ _ = _ |- _ =>
             rewrite E in L; cbv beta iota zeta delta [negb] in L
         | E : readFileSync _ _ = _ |- _ => rewrite E in L; cbv beta iota zeta in L
         | E : parseYaml _ = _ |- _ => rewrite E in L; cbv beta iota zeta in L
         end;
  discriminate L.

(** X20.  [loadConfig] changes nothing and runs nothing, and each
    repository of a configuration it returns has a name, a public and a
    private address, none of them empty. *)
Theorem loadConfig_returns_complete (configPath : option string) (w w' : World)
  (config : Config.t) (tr : list Event) :
  loadConfig configPath w = (Ok config, w', tr) ->
  w' = w /\ tr = [] /\ Forall Complete (Config.repos config).
Proof.
  intros L.
  destruct (existsSync (getConfigPath configPath) w) eqn:E; [| stuck L].
  destruct (readFileSync (getConfigPath configPath) w) as [content |] eqn:R;
    [| stuck L].
  destruct (parseYaml content) as [document |] eqn:P; [| stuck L].
  destruct (loadConfig_run configPath w content document E R P)
    as [(repos & _ & V & L') | (e & L' & _)]; rewrite L' in L; [| discriminate L].
  injection L as <- <- <-. split; [reflexivity |]. split; [reflexivity |].
  simpl. apply Forall_map. eapply Forall_impl; [| exact V].
  exact valid_is_complete.
Qed.


End Configuration.

Lemma loadConfig_returns_complete_witness :
  exists config,
    loadConfig (H := Demo.git) (H0 := DemoConfig.yaml) None DemoConfig.files
    = (Ok config, DemoConfig.files, [])
    /\ map RepoConfig.name (Config.repos config) = ["demo"; "tools"]
    /\ Forall Complete (Config.repos config).
Proof.
  eexists. split; [vm_compute; reflexivity |]. split; [reflexivity |].
  eapply (loadConfig_returns_complete (H := Demo.git) (H0 := DemoConfig.yaml)
            None DemoConfig.files).
  vm_compute. reflexivity.
Defined.


(* ===================================================================== *)
(** ** The commands *)
(* ===================================================================== *)

Section Options.

Lemma parseArgs_from_yes (n : nat) (args : list string) (a b : ParsedArgs.t) :
  (length args <= n)%nat ->
  same_but_yes a b -> same_but_yes (parseArgs_from args a) (parseArgs_from args b).
Proof.
  revert args a b. induction n as [| n IH]; intros args a b L S.
  { destruct args; [exact S | simpl in L; lia]. }
  destruct args as [| arg rest]; [exact S |].
  simpl in L. destruct S as (Sc & Sr & Sp & Sh). cbn [parseArgs_from].
  destruct ((arg =? "-h") || (arg =? "--help")).
  { apply IH; [lia |]. repeat split; assumption. }
  destruct ((arg =? "-y") || (arg =? "--yes")).
  { apply IH; [lia |]. repeat split; assumption. }
  destruct ((arg =? "-c") || (arg =? "--config")).
  { destruct rest as [| value rest']; [repeat split; assumption |].
    apply IH; [simpl in L; lia |]. repeat split; assumption. }
  rewrite Sc, Sr.
  destruct (nonempty (ParsedArgs.command b)); cbn [negb].
  - destruct (Js.truthy (ParsedArgs.repoName b)); cbn [negb].
    + apply IH; [lia |]. repeat split; assumption.
    + apply IH; [lia |]. repeat split; assumption.
  - apply IH; [lia |]. repeat split; assumption.
Qed.

Lemma parseArgs_from_app (pre rest : list string) (acc : ParsedArgs.t) :
  dangling pre = false ->
  parseArgs_from (pre ++ rest) acc = parseArgs_from rest (parseArgs_from pre acc).
Proof.
  remember (length pre) as n eqn:L. assert (length pre <= n)%nat as B by lia.
  clear L. revert pre acc B. induction n as [| n IH]; intros pre acc B D.
  { destruct pre; [reflexivity | simpl in B; lia]. }
  destruct pre as [| arg pre]; [reflexivity |].
  simpl in B. cbn [app parseArgs_from dangling] in *.
  destruct ((arg =? "-h") || (arg =? "--help")); [apply IH; [lia | exact D] |].
  destruct ((arg =? "-y") || (arg =? "--yes")); [apply IH; [lia | exact D] |].
  destruct ((arg =? "-c") || (arg =? "--config")).
  { destruct pre as [| value pre']; [discriminate D |].
    cbn [app]. apply IH; [simpl in B; lia | exact D]. }
  destruct (negb (nonempty (ParsedArgs.command acc))); [apply IH; [lia | exact D] |].
  destruct (negb (Js.truthy (ParsedArgs.repoName acc))); apply IH; (lia || exact D).
Qed.

End Options.

Section Endings.
Context `{OS}.

Lemma Ends_andThen {A B} (P1 : Ending A -> Prop) (P : Ending B -> Prop)
  (m : Cli A) (f : A -> Cli B) :
  Ends P1 m ->
  (forall a, P1 (Returned a) -> Ends P (f a)) ->
  (forall e, P1 (Thrown e) -> P (Thrown e)) ->
  (forall code, P1 (Exited code) -> P (Exited code)) ->
  Ends P (andThen m f).
Proof.
  intros Em Ef Pt Pe w ending w' tr. unfold andThen.
  destruct (m w) as [[[a | e | code] w1] t1] eqn:E; pose proof (Em _ _ _ _ E) as P1m.
  - destruct (f a w1) as [[r w2] t2] eqn:F. intros [= <- <- <-].
    exact (Ef a P1m _ _ _ _ F).
  - intros [= <- <- <-]. auto.
  - intros [= <- <- <-]. auto.
Qed.

Lemma Ends_lib {A} (P : Ending A -> Prop) (m : M A) :
  (forall a, P (Returned a)) -> (forall e, P (Thrown e)) -> Ends P (lib m).
Proof.
  intros Pr Pt w ending w' tr. unfold lib.
  destruct (m w) as [[[a | e] w1] t1]; intros [= <- <- <-]; auto.
Qed.

Lemma Ends_returned {A} (P : Ending A -> Prop) (a : A) :
  P (Returned a) -> Ends P (returned a).
Proof. intros Pa w ending w' tr [= <- <- <-]. exact Pa. Qed.

Lemma Ends_console_error (P : Ending unit -> Prop) message :
  P (Returned tt) -> Ends P (console_error message).
Proof. intros Pa w ending w' tr [= <- <- <-]. exact Pa. Qed.

Lemma Ends_process_exit {A} (P : Ending A -> Prop) code :
  P (Exited code) -> Ends P (process_exit code).
Proof. intros Pa w ending w' tr [= <- <- <-]. exact Pa. Qed.

Lemma Ends_if {A} (P : Ending A -> Prop) (b : bool) (m1 m2 : Cli A) :
  Ends P m1 -> Ends P m2 -> Ends P (if b then m1 else m2).
Proof. destruct b; auto. Qed.

Lemma fails1_andThen {A B} (m : Cli A) (f : A -> Cli B) :
  Ends fails1 m -> (forall a, Ends fails1 (f a)) -> Ends fails1 (andThen m f).
Proof.
  intros Em Ef. apply (Ends_andThen fails1 fails1); auto.
Qed.

Lemma Ends_forEach {A S} (xs : list A) (body : S -> A -> Cli S) :
  (forall acc x, Ends fails1 (body acc x)) ->
  forall acc, Ends fails1 (forEach xs body acc).
Proof.
  intros Eb. induction xs as [| x xs IH]; intros acc; simpl.
  - now apply Ends_returned.
  - apply fails1_andThen; [apply Eb | intros; apply IH].
Qed.

Lemma Ends_try_catch {A} (P Q : Ending A -> Prop) (body : Cli A)
  (handler : string -> Cli A) :
  Ends P body ->
  (forall e, P (Thrown e) -> Ends Q (handler e)) ->
  (forall a, P (Returned a) -> Q (Returned a)) ->
  (forall code, P (Exited code) -> Q (Exited code)) ->
  Ends Q (try_catch body handler).
Proof.
  intros Eb Eh Qr Qe w ending w' tr. unfold try_catch.
  destruct (body w) as [[[a | e | code] w1] t1] eqn:E; pose proof (Eb _ _ _ _ E) as Pb.
  - intros [= <- <- <-]. auto.
  - destruct (handler e w1) as [[r w2] t2] eqn:F. intros [= <- <- <-].
    exact (Eh e Pb _ _ _ _ F).
  - intros [= <- <- <-]. auto.
Qed.

Ltac ends :=
  repeat first
    [ apply Ends_returned; exact I
    | apply Ends_console_error; exact I
    | apply Ends_process_exit; reflexivity
    | apply Ends_lib; intros; exact I
    | apply Ends_if
    | apply Ends_forEach; intros ? ?
    | apply fails1_andThen; [| intros ? ]
    | match goal with
      | |- Ends _ (match ?x with _ => _ end) => destruct x
      | |- Ends _ (let '(_, _) := ?x in _) => destruct x
      | |- Ends _ ((match ?x with _ => _ end) _) => destruct x; cbv beta iota
      | |- Ends _ ((let '(_, _) := ?x in _) _) => destruct x; cbv beta iota
      end ].

Lemma commandPull_fails1 repos : Ends fails1 (commandPull repos).
Proof. unfold commandPull, printUsage. ends. Qed.

Lemma commandPush_fails1 repos : Ends fails1 (commandPush repos).
Proof. unfold commandPush. ends. Qed.

Lemma commandClean_fails1 repos : Ends fails1 (commandClean repos).
Proof. unfold commandClean. ends. Qed.

Lemma commandStatus_fails1 `{Locale} repos : Ends fails1 (commandStatus repos).
Proof. unfold commandStatus. ends. Qed.

Lemma getRepos_fails1 `{Yaml} configPath repoName :
  Ends fails1 (getRepos configPath repoName).
Proof. unfold getRepos. ends. Qed.

End Endings.

Section Main.
Context `{OS} `{Yaml} `{Locale}.

Lemma Ends_weaken {A} (P Q : Ending A -> Prop) (m : Cli A) :
  Ends P m -> (forall e, P e -> Q e) -> Ends Q m.
Proof. intros E PQ w ending w' tr R. exact (PQ _ (E _ _ _ _ R)). Qed.

(** What [main] does with the repositories, by the command. *)
Lemma dispatch_ends (command : string) (repos : list RepoConfig.t) :
  Ends (fun e => fails1 e /\ (e = Returned tt -> is_command command = true))
    (if command =? "pull" then commandPull repos
     else if command =? "status" then commandStatus repos
     else if command =? "push" then commandPush repos
     else if command =? "clean" then commandClean repos
     else
       (console_error ("Unknown command: " ++ command) ;;;
        printUsage ;;;
        process_exit 1)%cli).
Proof.
  unfold is_command.
  destruct (command =? "pull");
    [eapply Ends_weaken; [apply commandPull_fails1 | now split] |].
  destruct (command =? "status");
    [eapply Ends_weaken; [apply commandStatus_fails1 | now split] |].
  destruct (command =? "push");
    [eapply Ends_weaken; [apply commandPush_fails1 | now split] |].
  destruct (command =? "clean");
    [eapply Ends_weaken; [apply commandClean_fails1 | now split] |].
  intros w ending w' tr.
  unfold andThen, console_error, printUsage, lib, console_log, emit, process_exit.
  intros [= <- <- <-]. split; [reflexivity | discriminate].
Qed.

(** X22.  [main] lets no exception out.  It ends with the exit code 0
    exactly when help is asked for, with the exit code 1, or by returning,
    which it does only for one of the four commands. *)
Theorem main_ends (args : list string) (w w' : World) (ending : Ending unit)
  (tr : list CliEvent) :
  main args w = (ending, w', tr) ->
  (ending = Returned tt \/ ending = Exited 0%Z \/ ending = Exited 1%Z)
  /\ (ending = Exited 0%Z <-> ParsedArgs.help (parseArgs args) = true)
  /\ (ending = Returned tt ->
      is_command (ParsedArgs.command (parseArgs args)) = true).
Proof.
  unfold main. cbv zeta.
  set (command := ParsedArgs.command (parseArgs args)).
  destruct (ParsedArgs.help (parseArgs args)) eqn:Help.
  { cbn [orb]. unfold andThen, printUsage, lib, console_log, emit, process_exit.
    intros [= <- <- <-]. repeat split; auto; discriminate. }
  cbn [orb]. destruct (nonempty command) eqn:Named; cbn [negb].
  2: { unfold andThen, printUsage, lib, console_log, emit, process_exit.
       intros [= <- <- <-]. repeat split; auto; discriminate. }
  unfold andThen at 1, returned at 1.
  match goal with |- context [try_catch ?body ?handler w] =>
    assert (Ends (fun e => (e = Returned tt \/ e = Exited 1%Z)
                           /\ (e = Returned tt -> is_command command = true))
              (try_catch body handler)) as E;
    [| destruct (try_catch body handler w) as [[e w1] t1] eqn:R;
       apply E in R ]
  end.
  { eapply Ends_try_catch with
      (P := fun e => fails1 e /\ (e = Returned tt -> is_command command = true)).
    - eapply Ends_andThen with (P1 := fails1).
      + apply getRepos_fails1.
      + intros repos _. apply dispatch_ends.
      + intros e _. split; [exact I | discriminate].
      + intros code C. split; [exact C | discriminate].
    - intros e _ w0 ending0 w0' tr0.
      unfold andThen, console_error, process_exit. intros [= <- <- <-].
      split; [auto | discriminate].
    - intros [] [_ K]. auto.
    - intros code [C _]. simpl in C. subst code. split; [auto | discriminate]. }
  intros [= <- <- <-]. destruct R as [[-> | ->] K].
  - split; [auto |]. split; [split; discriminate | exact K].
  - split; [auto |]. split; [split; discriminate | discriminate].
Qed.

(** X23.  The option [-y] or [--yes] changes nothing of what [main] does:
    the command line without it does the same. *)
Theorem main_ignores_yes (pre post : list string) (flag : string) :
  dangling pre = false ->
  flag = "-y" \/ flag = "--yes" ->
  main (pre ++ flag :: post) = main (pre ++ post).
Proof.
  intros D F.
  assert (same_but_yes (parseArgs (pre ++ flag :: post)) (parseArgs (pre ++ post)))
    as (Sc & Sr & Sp & Sh).
  { unfold parseArgs. rewrite !parseArgs_from_app by exact D.
    assert (forall acc,
              parseArgs_from (flag :: post) acc
              = parseArgs_from post
                  {| ParsedArgs.command := ParsedArgs.command acc;
                     ParsedArgs.repoName := ParsedArgs.repoName acc;
                     ParsedArgs.configPath := ParsedArgs.configPath acc;
                     ParsedArgs.yes := true;
                     ParsedArgs.help := ParsedArgs.help acc |}) as ->
      by (intros acc; destruct F as [-> | ->]; reflexivity).
    apply (parseArgs_from_yes (length post)); [apply le_n |].
    repeat split. }
  unfold main. cbv zeta. rewrite Sc, Sr, Sp, Sh. reflexivity.
Qed.

End Main.

Lemma main_ends_witness :
  exists ending w' tr,
    main (H := Demo.git) (H0 := DemoConfig.yaml) (H1 := plain)
      ["status"; "demo"] DemoConfig.files = (ending, w', tr)
    /\ ending = Returned tt.
Proof.
  do 3 eexists. split; [vm_compute; reflexivity |].
  edestruct (main_ends (H := Demo.git) (H0 := DemoConfig.yaml) (H1 := plain)
               ["status"; "demo"] DemoConfig.files) as ([E | [E | E]] & _ & _);
    [vm_compute; reflexivity | exact E | discriminate E | discriminate E].
Defined.

Lemma main_ignores_yes_witness :
  main (H := Demo.git) (H0 := DemoConfig.yaml) (H1 := plain) ["push"; "-y"; "demo"]
  = main (H := Demo.git) (H0 := DemoConfig.yaml) (H1 := plain) ["push"; "demo"].
Proof.
  apply (main_ignores_yes (H := Demo.git) (H0 := DemoConfig.yaml) (H1 := plain)
           ["push"] ["demo"] "-y"); [reflexivity | now left].
Defined.

Section Accounting.
Context `{OS}.

Lemma error_lines_app (t1 t2 : list CliEvent) :
  error_lines (t1 ++ t2) = (error_lines t1 ++ error_lines t2)%list.
Proof. apply flat_map_app. Qed.

Lemma error_lines_lib (t : list Event) : error_lines (map Lib t) = [].
Proof. induction t as [| e t IH]; simpl; auto. Qed.

Ltac lines :=
  repeat (rewrite ?error_lines_app, ?error_lines_lib, ?length_app; cbn [error_lines flat_map app length]).



(** The loop of [commandPull], likewise. *)
Lemma pull_loop_counts (repos : list RepoConfig.t) (success failed : nat)
  (w w' : World) (ending : Ending (nat * nat)) (tr : list CliEvent) :
  forEach repos
    (fun '(success, failed) repo =>
       (lib (console_log (RepoConfig.name repo ++ ":")) ;;;
        result <- lib (pull repo) ;;
        if PullResult.success result then
          lib (console_log ("  ✓ " ++ (if PullResult.isNew result then "Cloned"
                                        else "Updated") ++ Js.nl)) ;;;
          returned (S success, failed)
        else
          console_error ("  ✗ " ++ interpolate (PullResult.error result) ++ Js.nl) ;;;
          returned (success, S failed))%cli)
    (success, failed) w = (ending, w', tr) ->
  match ending with
  | Returned (success', failed') =>
      (success' + failed' = success + failed + length repos)%nat
      /\ (failed' = failed + length (error_lines tr))%nat
  | Thrown _ => True
  | Exited _ => False
  end.
Proof.
  revert success failed w tr.
  induction repos as [| repo repos IH]; intros success failed w tr; simpl.
  - intros [= <- <- <-]. simpl. lia.
  - unfold andThen at 1.
    match goal with |- context [andThen ?m ?f w] =>
      destruct (andThen m f w) as [[[[s f'] | e | code] w1] t1] eqn:B
    end.
    + destruct (forEach repos _ (s, f') w1) as [[r w2] t2] eqn:R.
      intros [= <- <- <-]. apply IH in R.
      assert ((s + f' = S (success + failed))%nat
              /\ (f' = failed + length (error_lines t1))%nat) as [B1 B2].
      { revert B. unfold andThen, lib, console_log, emit, console_error, returned.
        destruct (pull repo w) as [[[r0 | e0] w0] t0]; [| discriminate].
        destruct (PullResult.success r0); intros [= <- <- <- <-]; lines; lia. }
      destruct r as [[s' f''] | |]; [| exact I | exact R].
      lines. lia.
    + intros [= <- <- <-]. exact I.
    + exfalso. revert B. unfold andThen, lib, console_log, emit, console_error, returned.
      destruct (pull repo w) as [[[r0 | e0] w0] t0]; [| discriminate].
      destruct (PullResult.success r0); discriminate.
Qed.

(** X25.  Unless a pull throws, [commandPull] goes through all the
    repositories: its last line counts each of them as succeeded or failed,
    the failed ones are as many as the lines on the error stream, and it
    leaves with the exit code 1 exactly when there is one. *)
Theorem commandPull_accounts (repos : list RepoConfig.t) (w w' : World)
  (ending : Ending unit) (tr : list CliEvent) :
  commandPull repos w = (ending, w', tr) ->
  (forall e, ending <> Thrown e) ->
  exists success failed,
    (success + failed = length repos)%nat
    /\ failed = length (error_lines tr)
    /\ endsWith (pullSummary success failed) tr
    /\ ending = if (0 <? failed)%nat then Exited 1%Z else Returned tt.
Proof.
  unfold commandPull. unfold andThen at 1. unfold lib at 1, console_log at 1, emit at 1.
  unfold andThen at 1.
  match goal with |- context [forEach repos ?body ?acc w] =>
    destruct (forEach repos body acc w) as [[counts w1] t1] eqn:L
  end.
  apply pull_loop_counts in L.
  destruct counts as [[success failed] | e | code].
  - destruct L as [L1 L2]. simpl in L1, L2.
    unfold andThen, lib, console_log, emit, process_exit, returned.
    destruct (0 <? failed)%nat eqn:F; intros [= <- <- <-] _;
      exists success, failed;
      (split; [exact L1 |]); (split; [cbn [map]; lines; lia |]);
      (split; [| rewrite F; reflexivity]);
      eexists; cbn [map app]; rewrite ?app_nil_r;
      rewrite app_comm_cons; reflexivity.
  - intros [= <- <- <-] N. now destruct (N e).
  - contradiction.
Qed.

End Accounting.


Lemma commandPull_accounts_witness :
  exists w' tr success,
    commandPull (H := Demo.git) [Demo.repo None] Demo.fresh = (Exited 1%Z, w', tr)
    /\ length (error_lines tr) = 1%nat
    /\ (success + 1 = 1)%nat
    /\ endsWith (pullSummary success 1) tr.
Proof.
  edestruct (commandPull_accounts (H := Demo.git) [Demo.repo None] Demo.fresh)
    as (success & failed & L & F & S & _);
    [vm_compute; reflexivity | discriminate |].
  vm_compute in F. subst failed.
  do 2 eexists. exists success.
  split; [vm_compute; reflexivity |]. split; [reflexivity |].
  split; [exact L | exact S].
Defined.

(* ===================================================================== *)
(** ** What [formatStatus] shows *)
(* ===================================================================== *)

Section Display.
Context `{OS} `{Locale}.

Lemma last_char_app (a b : string) (c : ascii) :
  last_char b = Some c -> last_char (a ++ b) = Some c.
Proof.
  intros B. induction a as [| x a IH]; [exact B |].
  cbn [String.append last_char].
  destruct (a ++ b); [discriminate IH | exact IH].
Qed.

(** The line of a ref that is not the same on both sides ends in a bracket
    or a warning sign. *)
Lemma changed_line (r : RefComparison.t) :
  changed r = true -> formatRefComparison r <> upToDateLine.
Proof.
  unfold changed, formatRefComparison. intros C E.
  apply (f_equal last_char) in E.
  destruct (RefComparison.status r); try discriminate C;
    match type of E with
    | last_char ?l = _ =>
        eassert (last_char l = Some _) as X
          by (repeat apply last_char_app; reflexivity);
        rewrite X in E; vm_compute in E; discriminate E
    end.
Qed.

(** Where [formatStatus] says that a mirror is up to date. *)
Lemma up_to_date_shown (result : StatusResult.t) :
  In upToDateLine (formatStatus_lines result)
  <-> RepoStatus.pulled (StatusResult.status result) = true
      /\ filter changed (records result) = [].
Proof.
  unfold formatStatus_lines, records. cbv zeta.
  set (s := StatusResult.status result).
  rewrite filter_app.
  destruct (RepoStatus.pulled s); cbn [negb].
  2: { split; [| intros [[=] _]].
       cbn. intros [E | [E | [E | [E | []]]]]; discriminate E. }
  assert (forall rs, ~ In upToDateLine (map formatRefComparison (filter changed rs)))
    as Refs.
  { intros rs I. apply in_map_iff in I as (r & E & I).
    apply filter_In in I as [_ C]. exact (changed_line r C E). }
  assert (~ In upToDateLine
              (if (0 <? length (StatusResult.errors result))%nat
               then "  Errors:" :: map (fun e => "    ⚠️  " ++ e)
                                     (StatusResult.errors result)
               else [])) as Errors.
  { destruct (0 <? _)%nat; [| intros []].
    intros [E | I]; [discriminate E |].
    apply in_map_iff in I as (e & E & _). discriminate E. }
  assert (~ In upToDateLine
              (match RepoStatus.pulledAt s with
               | Some time => ["  Pulled:  " ++ toLocaleString time]
               | None => []
               end)) as Pulled.
  { destruct (RepoStatus.pulledAt s); [intros [E | []]; discriminate E | intros []]. }
  assert (forall title rs,
            title <> upToDateLine ->
            ~ In upToDateLine
                (if (0 <? length (filter changed rs))%nat
                 then title :: map formatRefComparison (filter changed rs) else []))
    as Listed.
  { intros title rs N.
    destruct (0 <? length (filter changed rs))%nat; [| intros I; exact I].
    intros [E | I]; [contradiction | exact (Refs rs I)]. }
  pose proof (Listed "  Branches:" (RepoStatus.branches s)) as Branches.
  pose proof (Listed "  Tags:" (RepoStatus.tags s)) as Tags.
  rewrite in_app_iff, in_app_iff, in_app_iff.
  split.
  - intros [Head | [I | [I | I]]]; try contradiction.
    + cbn in Head. destruct Head as [E | [E | [E | []]]]; discriminate E.
    + split; [reflexivity |].
      destruct (filter changed (RepoStatus.branches s)) as [| b bs];
        destruct (filter changed (RepoStatus.tags s)) as [| t ts];
        [reflexivity | exfalso .. ];
        cbn [length Nat.eqb andb] in I; apply in_app_iff in I as [I | I];
        (apply Branches in I || apply Tags in I); (exact I || discriminate).
  - intros [_ E]. apply app_eq_nil in E as [-> ->]. right. right. left.
    left. reflexivity.
Qed.

Lemma nothing_changed (rs : list RefComparison.t) :
  filter changed rs = []
  <-> existsb (fun r => has_status ahead r || has_status new r || has_status missing r)
        rs = false
      /\ negb (existsb (has_status behind) rs) && negb (existsb (has_status diverged) rs)
         = true.
Proof.
  induction rs as [| r rs IH]; [simpl; tauto |].
  unfold changed, has_status in *. cbn [filter existsb].
  destruct (RefComparison.status r); cbn [Status_eqb negb orb andb];
    rewrite ?andb_false_r;
    try (split; [discriminate | intros [A B]; discriminate A || discriminate B]).
  exact IH.
Qed.

(** X26.  For a result of [status], [formatStatus] shows the line that the
    mirror is up to date exactly when the result has nothing to push and
    nothing that holds a push back. *)
Theorem formatStatus_up_to_date (repo : RepoConfig.t) (w w' : World)
  (result : StatusResult.t) (tr : list Event) :
  status repo w = (Ok result, w', tr) ->
  In upToDateLine (formatStatus_lines result)
  <-> StatusResult.hasChanges result = false /\ StatusResult.canPush result = true.
Proof.
  intros S. rewrite up_to_date_shown.
  destruct (status_inv _ _ _ _ _ S) as [[_ ->] | (P & C & G & _)].
  - simpl. split; [intros [[=] _] | intros [_ [=]]].
  - rewrite C, G, nothing_changed. tauto.
Qed.

End Display.

Lemma formatStatus_up_to_date_witness :
  exists result w' tr,
    status (H := Demo.upToDate) (Demo.repo None) Demo.pulled = (Ok result, w', tr)
    /\ In upToDateLine (formatStatus_lines (H := plain) result).
Proof.
  do 3 eexists. split; [vm_compute; reflexivity |].
  eapply (formatStatus_up_to_date (H := Demo.upToDate) (H0 := plain)
            (Demo.repo None) Demo.pulled);
    [vm_compute; reflexivity | split; reflexivity].
Defined.

Section Selection.
Context `{OS} `{Yaml}.

Lemma find_first {A} (p : A -> bool) (xs : list A) (x : A) :
  find p xs = Some x ->
  exists before after,
    xs = (before ++ x :: after)%list /\ p x = true
    /\ forall y, In y before -> p y = false.
Proof.
  induction xs as [| y xs IH]; simpl; [discriminate |].
  destruct (p y) eqn:P.
  - intros [= <-]. exists [], xs. repeat split; auto. intros ? [].
  - intros F. destruct (IH F) as (before & after & -> & Px & B).
    exists (y :: before), after. repeat split; auto.
    intros z [<- | I]; auto.
Qed.

(** X27.  Of a configuration that loads, [getRepos] gives all the
    repositories when no name is asked for, the empty name included.  With
    a name it gives the first repository of that name alone; when there is
    none it runs nothing, prints two lines on the error stream and leaves
    with the exit code 1. *)
Theorem getRepos_selects (configPath repoName : option string) (w : World)
  (config : Config.t) :
  loadConfig configPath w = (Ok config, w, []) ->
  match Js.or_null repoName with
  | None => getRepos configPath repoName w = (Returned (Config.repos config), w, [])
  | Some name =>
      (exists before repo after,
         Config.repos config = (before ++ repo :: after)%list
         /\ RepoConfig.name repo = name
         /\ (forall r, In r before -> RepoConfig.name r <> name)
         /\ getRepos configPath repoName w = (Returned [repo], w, []))
      \/ ((forall r, In r (Config.repos config) -> RepoConfig.name r <> name)
          /\ exists first second,
               getRepos configPath repoName w
               = (Exited 1%Z, w, [EvError first; EvError second]))
  end.
Proof.
  intros L. unfold getRepos, andThen, lib. rewrite L. cbn [map].
  destruct (Js.or_null repoName) as [name |]; [| reflexivity].
  unfold findRepo. cbn [app].
  destruct (find (fun r => RepoConfig.name r =? name) (Config.repos config))
    as [repo |] eqn:F.
  - left. destruct (find_first _ _ _ F) as (before & after & E & N & B).
    exists before, repo, after. apply String.eqb_eq in N.
    repeat split; auto.
    intros r I. apply String.eqb_neq. auto.
  - right. split.
    + intros r I. apply String.eqb_neq. exact (find_none _ _ F r I).
    + unfold console_error, process_exit. simpl. eauto.
Qed.

End Selection.

Lemma getRepos_selects_witness :
  exists config repo,
    loadConfig (H := Demo.git) (H0 := DemoConfig.yaml) None DemoConfig.files
    = (Ok config, DemoConfig.files, [])
    /\ getRepos (H := Demo.git) (H0 := DemoConfig.yaml) None (Some "tools")
         DemoConfig.files = (Returned [repo], DemoConfig.files, [])
    /\ RepoConfig.name repo = "tools".
Proof.
  eexists.
  edestruct (getRepos_selects (H := Demo.git) (H0 := DemoConfig.yaml)
               None (Some "tools") DemoConfig.files)
    as [(before & repo & after & _ & N & _ & R) | [None _]];
    [vm_compute; reflexivity | exists repo; split; [reflexivity | auto] |].
  exfalso.
  apply (None (as_RepoConfig
                 (VObject [("name", VString "tools");
                           ("public", VString "https://example.org/tools.git");
                           ("private",
                            VString "git@private.example.org:vendor/tools.git");
                           ("markSource", VBool true)]))).
  - vm_compute. auto.
  - reflexivity.
Defined.

Section Cleaning.
Context `{OS}.

Lemma clean_events (repo : RepoConfig.t) (w w' : World) (r : Outcome unit)
  (tr : list Event) :
  clean repo w = (r, w', tr) ->
  forall path, In (EvRm path) tr -> path = getRepoTempPath (RepoConfig.name repo).
Proof.
  unfold clean, repoExists, fs_exists, fs_rm, exec, bind, ret. cbv zeta.
  destruct (existsSync _ w); simpl.
  - destruct (execSync _ _ _ w) as [[out | st e m] w1]; simpl.
    + destruct (rmSync _ w1) as [r1 w2]. intros [= <- <- <-] path [[=] | [[=] | []]].
      auto.
    + intros [= <- <- <-] path [[=] | []].
  - intros [= <- <- <-] path [].
Qed.

Lemma clean_loop (repos : list RepoConfig.t) (w w' : World) (ending : Ending unit)
  (tr : list CliEvent) :
  forEach repos
    (fun _ repo =>
       (lib (console_log (RepoConfig.name repo ++ ": cleaning...")) ;;;
        lib (clean repo) ;;;
        lib (console_log ("  ✓ Removed" ++ Js.nl)))%cli)
    tt w = (ending, w', tr) ->
  (forall path, In (Lib (EvRm path)) tr ->
                exists repo, In repo repos
                             /\ path = getRepoTempPath (RepoConfig.name repo))
  /\ error_lines tr = []
  /\ forall code, ending <> Exited code.
Proof.
  revert w tr. induction repos as [| repo repos IH]; intros w tr; simpl.
  - intros [= <- <- <-]. repeat split; [intros path [] | discriminate].
  - unfold andThen at 1 2 3, lib, console_log, emit.
    destruct (clean repo w) as [[[[] | e] w1] t1] eqn:C.
    + destruct (forEach repos _ tt w1) as [[r w2] t2] eqn:R.
      intros [= <- <- <-]. destruct (IH _ _ R) as (Rm & Er & Ex).
      split; [| split; [| exact Ex]].
      * intros path I. cbn [app In map] in I.
        destruct I as [[=] | I]. rewrite !in_app_iff in I.
        destruct I as [[I | [[=] | []]] | I].
        -- apply in_map_iff in I as (e & [= ->] & I).
           exists repo. split; [now left | exact (clean_events _ _ _ _ _ C path I)].
        -- destruct (Rm path I) as (r0 & I0 & ->). exists r0. split; [now right | auto].
      * cbn [app map error_lines flat_map].
        change (flat_map _ ?l) with (error_lines l).
        now rewrite !error_lines_app, error_lines_lib, Er.
    + intros [= <- <- <-]. split; [| split; [| discriminate]].
      * intros path I. cbn [app In map] in I.
        destruct I as [[=] | I]. rewrite ?app_nil_r in I.
        apply in_map_iff in I as (e0 & [= ->] & I).
        exists repo. split; [now left | exact (clean_events _ _ _ _ _ C path I)].
      * cbn [app map error_lines flat_map].
        change (flat_map _ ?l) with (error_lines l).
        now rewrite ?error_lines_app, ?error_lines_lib.
Qed.

(** X28.  [commandClean] removes nothing but the mirrors of the
    repositories it is given.  It prints nothing on the error stream and
    never leaves the process: it returns, or the removal throws. *)
Theorem commandClean_removes_listed (repos : list RepoConfig.t) (w w' : World)
  (ending : Ending unit) (tr : list CliEvent) :
  commandClean repos w = (ending, w', tr) ->
  (forall path, In (Lib (EvRm path)) tr ->
                exists repo, In repo repos
                             /\ path = getRepoTempPath (RepoConfig.name repo))
  /\ error_lines tr = []
  /\ forall code, ending <> Exited code.
Proof.
  unfold commandClean. unfold andThen at 1, lib at 1, console_log at 1, emit at 1.
  unfold andThen at 1.
  match goal with |- context [forEach repos ?body tt w] =>
    destruct (forEach repos body tt w) as [[[[] | e | code] w1] t1] eqn:L
  end; apply clean_loop in L; destruct L as (Rm & Er & Ex).
  - unfold lib, console_log, emit. intros [= <- <- <-].
    split; [| split; [| discriminate]].
    + intros path I. cbn [app In map] in I. destruct I as [[=] | I].
      apply in_app_iff in I as [I | [[=] | []]]. auto.
    + cbn [app map error_lines flat_map].
      change (flat_map _ ?l) with (error_lines l).
      now rewrite error_lines_app, Er.
  - intros [= <- <- <-]. split; [| split; [| discriminate]].
    + intros path I. cbn [app In map] in I. destruct I as [[=] | I]. auto.
    + cbn [app map error_lines flat_map]. exact Er.
  - now destruct (Ex code).
Qed.

End Cleaning.

Lemma commandClean_removes_listed_witness :
  exists w' tr,
    commandClean (H := Demo.git) [Demo.repo None] Demo.pulled = (Returned tt, w', tr)
    /\ In (Lib (EvRm "/home/user/.repo-sync/repos/demo.git")) tr
    /\ error_lines tr = [].
Proof.
  do 2 eexists. split; [vm_compute; reflexivity |].
  edestruct (commandClean_removes_listed (H := Demo.git) [Demo.repo None] Demo.pulled)
    as (_ & E & _); [vm_compute; reflexivity |].
  split; [vm_compute; auto 10 | exact E].
Defined.

(* ===================================================================== *)
(** ** Reading back what git prints *)
(* ===================================================================== *)

Module Reading.



















End Reading.

Section ReadingBack.
Context `{OS}.


End ReadingBack.


(* ===================================================================== *)
(** ** The status command from end to end *)
(* ===================================================================== *)

Section StatusCommand.
Context `{OS} `{Yaml} `{Locale}.











End StatusCommand.

